(** * Vedoice AI: the audio pipeline and the prompt builder

    A shallow embedding of the parts of the Vedoice text-to-speech
    application that carry algorithmic content:

    - the PCM codec ([decodeAudioData] of [index.tsx], [floatTo16BitPCM]
      of the standalone TTS service),
    - the WAV writer [bufferToWave],
    - the prompt builder inside [generateAudio] with the emotion
      instruction of [getEmotionPromptString],
    - speaker recognition ([MULTI_SPEAKER_PATTERN], [getRecognizedSpeakers],
      [generateTTS], [analyzeScriptForSpeakers]),
    - the busy flag that guards the MP3 export ([downloadMp3]) and the
      encoding loop of the MP3 worker,
    - the WAV blob and the error handling of the standalone TTS service
      ([convertAudioBufferToWavBlob], [generateTTS]) and of its page
      ([handleGenerateAudio]),
    - the speaker manager and the Emotion Lab with its colour and its
      saved blends.

    Conventions of the embedding.

    - A JavaScript number is a value of [JS.num]: [NaN], the two infinities
      or a finite rational.  Every float operation the modelled code performs
      on a sample is exact in binary64 when the sample is a 32-bit float of an
      audio buffer: the clamp only compares, the scale factors 32767 and 32768
      add at most 15 bits to a 24-bit significand, and [0.5 + s] is only
      compared with zero, whose sign rounding preserves.  Rational arithmetic
      therefore gives the machine result on those inputs.
    - A JavaScript string is a [string]; each character stands for one code
      unit below 256.
    - A thrown exception is the [Throw] case of [JS.result]. *)

From Stdlib Require Import ZArith QArith Qround List String Ascii Lia.
From Stdlib.Strings Require Import Byte.
From stdpp Require Import base list strings gmap pretty.

(** ** JavaScript values and platform primitives *)

Module JS.

Local Open Scope Z_scope.

(** Numbers. *)
Inductive num : Type :=
| NaN
| PosInf
| NegInf
| Fin (q : Q).

(** Exceptions the modelled code can raise. *)
Inductive exn : Type :=
| RangeError
| NotSupportedError
| TypeError
| Error (message : string).

Inductive result (A : Type) : Type :=
| Ok (a : A)
| Throw (e : exn).
Arguments Ok {A} a.
Arguments Throw {A} e.

Definition bind {A B} (r : result A) (k : A -> result B) : result B :=
  match r with
  | Ok a => k a
  | Throw e => Throw e
  end.

Definition of_Z (z : Z) : num := Fin (inject_Z z).
Definition of_nat (n : nat) : num := of_Z (Z.of_nat n).

(** [a < b]; any comparison with [NaN] is false. *)
Definition ltb (a b : num) : bool :=
  match a, b with
  | NaN, _ | _, NaN => false
  | _, NegInf => false
  | NegInf, _ => true
  | PosInf, _ => false
  | Fin _, PosInf => true
  | Fin p, Fin q => match (p ?= q)%Q with Lt => true | _ => false end
  end.

(** [Math.min] and [Math.max] of two arguments. *)
Definition Math_min (a b : num) : num :=
  match a, b with
  | NaN, _ | _, NaN => NaN
  | _, _ => if ltb b a then b else a
  end.

Definition Math_max (a b : num) : num :=
  match a, b with
  | NaN, _ | _, NaN => NaN
  | _, _ => if ltb a b then b else a
  end.

Definition sign_pos (q : Q) : bool :=
  match (0 ?= q)%Q with Lt => true | _ => false end.
Definition is_zero (q : Q) : bool :=
  match (0 ?= q)%Q with Eq => true | _ => false end.

Definition inf (positive : bool) : num := if positive then PosInf else NegInf.

Definition mul (a b : num) : num :=
  match a, b with
  | NaN, _ | _, NaN => NaN
  | Fin p, Fin q => Fin (p * q)
  | Fin p, PosInf | PosInf, Fin p =>
      if is_zero p then NaN else inf (sign_pos p)
  | Fin p, NegInf | NegInf, Fin p =>
      if is_zero p then NaN else inf (negb (sign_pos p))
  | PosInf, PosInf | NegInf, NegInf => PosInf
  | PosInf, NegInf | NegInf, PosInf => NegInf
  end.

Definition add (a b : num) : num :=
  match a, b with
  | NaN, _ | _, NaN => NaN
  | Fin p, Fin q => Fin (p + q)
  | PosInf, NegInf | NegInf, PosInf => NaN
  | PosInf, _ | _, PosInf => PosInf
  | NegInf, _ | _, NegInf => NegInf
  end.

Definition div (a b : num) : num :=
  match a, b with
  | NaN, _ | _, NaN => NaN
  | Fin p, Fin q =>
      if is_zero q then (if is_zero p then NaN else inf (sign_pos p))
      else Fin (p / q)
  | Fin _, _ => Fin 0
  | PosInf, Fin q => inf (sign_pos q || is_zero q)
  | NegInf, Fin q => inf (negb (sign_pos q || is_zero q))
  | _, _ => NaN
  end.

(** Truncation toward zero of a finite number. *)
Definition truncate (q : Q) : Z := Z.quot (Qnum q) (Z.pos (Qden q)).

(** The integer conversions of ECMAScript (and of WebIDL for
    [unsigned long]): [NaN] and the infinities go to 0, a finite number
    is truncated and reduced modulo [2^w]. *)
Definition ToUint (w : Z) (x : num) : Z :=
  match x with
  | Fin q => truncate q mod 2 ^ w
  | _ => 0
  end.

Definition ToInt (w : Z) (x : num) : Z :=
  let u := ToUint w x in
  if u <? 2 ^ (w - 1) then u else u - 2 ^ w.

Definition ToInt16 := ToInt 16.
Definition ToInt32 := ToInt 32.
Definition ToUint16 := ToUint 16.
Definition ToUint32 := ToUint 32.

(** Bytes. *)
Definition byte_of_Z (z : Z) : byte :=
  match Byte.of_N (Z.to_N (z mod 256)) with
  | Some b => b
  | None => x00
  end.

Definition Z_of_byte (b : byte) : Z := Z.of_N (Byte.to_N b).

(** Little-endian byte images of integers, as [DataView] stores them. *)
Definition le16 (v : Z) : list byte := [byte_of_Z v; byte_of_Z (v / 256)].
Definition le32 (v : Z) : list byte :=
  [byte_of_Z v; byte_of_Z (v / 256); byte_of_Z (v / 65536);
   byte_of_Z (v / 16777216)].

(** A [DataView] over an [ArrayBuffer] is the list of its bytes.  Every
    setter checks the range first and throws [RangeError] outside it. *)
Definition store (view : list byte) (pos : nat) (bs : list byte)
  : result (list byte) :=
  if (pos + length bs <=? length view)%nat
  then Ok (take pos view ++ bs ++ drop (pos + length bs) view)
  else Throw RangeError.

Definition setInt16 (view : list byte) (pos : nat) (x : num) :=
  store view pos (le16 (ToInt16 x)).
Definition setUint16 (view : list byte) (pos : nat) (x : num) :=
  store view pos (le16 (ToUint16 x)).
Definition setUint32 (view : list byte) (pos : nat) (x : num) :=
  store view pos (le32 (ToUint32 x)).

(** [new Int16Array(buffer)]: a view of the whole buffer in the
    platform's (little-endian) byte order; a byte length that is not a
    multiple of two is a [RangeError]. *)
Definition int16_of_bytes (lo hi : byte) : Z :=
  let u := Z_of_byte lo + 256 * Z_of_byte hi in
  if u <? 32768 then u else u - 65536.

Fixpoint int16_pairs (data : list byte) : list Z :=
  match data with
  | lo :: hi :: rest => int16_of_bytes lo hi :: int16_pairs rest
  | _ => []
  end.

Definition Int16Array_of (data : list byte) : result (list Z) :=
  if Nat.even (length data) then Ok (int16_pairs data) else Throw RangeError.

(** Audio buffers: a sample rate and planar channels of equal length. *)
Record AudioBuffer : Type := mkAudioBuffer {
  sampleRate : Z;
  channels : list (list num)
}.

Definition numberOfChannels (b : AudioBuffer) : nat := length (channels b).
Definition frames (b : AudioBuffer) : nat :=
  match channels b with
  | c :: _ => length c
  | [] => 0%nat
  end.
Definition getChannelData (b : AudioBuffer) (c : nat) : list num :=
  default [] (channels b !! c).

(** [BaseAudioContext.createBuffer(numberOfChannels, length, sampleRate)].
    The first two arguments are WebIDL [unsigned long]s, so a fractional
    length is truncated; zero channels or zero frames, more channels than
    the platform supports, or a sample rate outside the range it supports
    raise [NotSupportedError].  The platform of the model supports what
    the Web Audio specification asks of every platform: up to 32 channels
    and the rates from 8000 to 96000 Hz.  The buffer starts silent. *)
Definition maxChannels : Z := 32.
Definition minSampleRate : Z := 8000.
Definition maxSampleRate : Z := 96000.

Definition createBuffer (nChannels : num) (len : num) (rate : Z)
  : result AudioBuffer :=
  let c := ToUint32 nChannels in
  let n := ToUint32 len in
  if (c =? 0) || (maxChannels <? c) || (n =? 0)
     || (rate <? minSampleRate) || (maxSampleRate <? rate)
  then Throw NotSupportedError
  else Ok (mkAudioBuffer rate
             (replicate (Z.to_nat c) (replicate (Z.to_nat n) (Fin 0)))).

End JS.

Export JS (num(..), exn(..), result(..), AudioBuffer(..)).

(** [result] is an error monad; stdpp's [x ← e; k] sequences it. *)
#[global] Instance result_ret : MRet result := fun _ a => Ok a.
#[global] Instance result_bind : MBind result := fun _ _ k r => JS.bind r k.

(** ** The PCM codec *)

Module Pcm.

Local Open Scope Z_scope.

(** The indices [i = 0, 1, 2, ...] that pass the loop test [i < bound]
    of [for (let i = 0; i < bound; i++)], for a bound the body leaves
    alone.  ([i < Infinity] never fails; no caller reaches that case.) *)
Definition upto (bound : num) : list nat :=
  match bound with
  | Fin q => seq 0 (Z.to_nat (Qceiling q))
  | _ => []
  end.

(** [dataInt16[idx] / 32768.0]; an index past the end reads [undefined],
    which the division turns into [NaN]. *)
Definition pcm_float (v : Z) : num := JS.div (JS.of_Z v) (JS.of_Z 32768).

Definition sample_at (dataInt16 : list Z) (idx : nat) : num :=
  match dataInt16 !! idx with
  | Some v => pcm_float v
  | None => NaN
  end.

(** [channelData[i] = ...] on a [Float32Array]: a write past the end is
    dropped, which is what list insertion does. *)
Definition fill_channel (dataInt16 : list Z) (numChannels channel : nat)
    (frameCount : num) (channelData : list num) : list num :=
  foldl (fun data i =>
           <[i := sample_at dataInt16 (i * numChannels + channel)]> data)
        channelData (upto frameCount).

Definition set_channel (b : AudioBuffer) (c : nat) (data : list num)
  : AudioBuffer :=
  mkAudioBuffer (JS.sampleRate b) (<[c := data]> (JS.channels b)).

(** One turn of the loop over the channels. *)
Definition decode_channel (dataInt16 : list Z) (numChannels : nat)
    (frameCount : num) (buffer : AudioBuffer) (channel : nat)
  : AudioBuffer :=
  set_channel buffer channel
    (fill_channel dataInt16 numChannels channel frameCount
       (JS.getChannelData buffer channel)).

(** [decodeAudioData(data, ctx, sampleRate, numChannels)], index.tsx. *)
Definition decodeAudioData (data : list byte) (sampleRate : Z)
    (numChannels : nat) : result AudioBuffer :=
  dataInt16 ← JS.Int16Array_of data;
  let frameCount :=
    JS.div (JS.of_nat (length dataInt16)) (JS.of_nat numChannels) in
  buffer ← JS.createBuffer (JS.of_nat numChannels) frameCount sampleRate;
  Ok (foldl (decode_channel dataInt16 numChannels frameCount)
            buffer (seq 0 numChannels)).

(** Channel [c] of the de-interleaved samples: [frameCount] frames, frame
    [i] being sample [i * numChannels + c]. *)
Definition planar (dataInt16 : list Z) (numChannels frameCount c : nat)
  : list num :=
  map (fun i => sample_at dataInt16 (i * numChannels + c))
      (seq 0 frameCount).

(** [Math.max(-1, Math.min(1, x))]. *)
Definition clamp (x : num) : num :=
  JS.Math_max (JS.of_Z (-1)) (JS.Math_min (JS.of_Z 1) x).

(** The clamp on a finite number, as a rational. *)
Definition Qltb (p q : Q) : bool :=
  match (p ?= q)%Q with Lt => true | _ => false end.

Definition clampQ (q : Q) : Q :=
  let m := if Qltb q (inject_Z 1) then q else inject_Z 1 in
  if Qltb (inject_Z (-1)) m then m else inject_Z (-1).

(** The value [floatTo16BitPCM] hands to [setInt16]:
    [s < 0 ? s * 0x8000 : s * 0x7FFF] on the clamped sample. *)
Definition scale16 (s : num) : num :=
  if JS.ltb s (JS.of_Z 0) then JS.mul s (JS.of_Z 32768)
  else JS.mul s (JS.of_Z 32767).

(** [floatTo16BitPCM(output, offset, input)] of the TTS service. *)
Fixpoint floatTo16BitPCM (output : list byte) (offset : nat)
    (input : list num) : result (list byte) :=
  match input with
  | [] => Ok output
  | x :: rest =>
      let s := clamp x in
      output' ← JS.setInt16 output offset (scale16 s);
      floatTo16BitPCM output' (offset + 2) rest
  end.

(** The sample conversion inside [bufferToWave]:
    [(0.5 + sample < 0 ? sample * 32768 : sample * 32767) | 0]
    on the clamped sample.  [+] binds tighter than [<], so the test
    reads [(0.5 + sample) < 0]. *)
Definition wave_sample (x : num) : num :=
  let sample := clamp x in
  JS.of_Z
    (JS.ToInt32
       (if JS.ltb (JS.add (Fin (1 # 2)) sample) (JS.of_Z 0)
        then JS.mul sample (JS.of_Z 32768)
        else JS.mul sample (JS.of_Z 32767))).

(** The conversion as the specification words it: clamp, then scale by
    32768 when negative and by 32767 otherwise, keeping the integer part. *)
Definition spec_sample (x : num) : Z :=
  match clamp x with
  | Fin s =>
      if JS.ltb (Fin s) (JS.of_Z 0) then JS.truncate (s * inject_Z 32768)
      else JS.truncate (s * inject_Z 32767)
  | _ => 0
  end.

(** Re-encoding an [n]-sample channel into a fresh view of [2 n] bytes. *)
Definition encode_channel (input : list num) : result (list byte) :=
  floatTo16BitPCM (replicate (2 * length input) x00) 0 input.

(** Decoding mono PCM and encoding channel 0 again, the path of
    [generateTTS] without the WAV header. *)
Definition roundtrip (b : list byte) (sampleRate : Z) : result (list byte) :=
  buffer ← decodeAudioData b sampleRate 1;
  encode_channel (JS.getChannelData buffer 0).

(** What one decode/encode round does to a 16-bit sample. *)
Definition requantize (v : Z) : Z := if 0 <? v then v - 1 else v.

Definition bytes_of_samples (l : list Z) : list byte :=
  concat (map JS.le16 l).

End Pcm.

(** ** The WAV writer *)

Module Wav.

Local Open Scope Z_scope.

(** [bufferToWave] writes through a [DataView] and keeps a running
    position: the closures [setUint16] and [setUint32] share [view] and
    [pos] with the loop that follows them. *)
Record writer : Type := mkWriter {
  view : list byte;
  pos : nat
}.

Definition W (A : Type) : Type := writer -> result (A * writer).

#[global] Instance W_ret : MRet W := fun _ a w => Ok (a, w).
#[global] Instance W_bind : MBind W := fun _ _ k m w =>
  match m w with
  | Ok (a, w') => k a w'
  | Throw e => Throw e
  end.

Definition setUint16 (data : num) : W unit := fun w =>
  v ← JS.setUint16 (view w) (pos w) data;
  Ok (tt, mkWriter v (pos w + 2)).

Definition setUint32 (data : num) : W unit := fun w =>
  v ← JS.setUint32 (view w) (pos w) data;
  Ok (tt, mkWriter v (pos w + 4)).

(** [view.setInt16(pos, sample, true); pos += 2] *)
Definition setInt16 (sample : num) : W unit := fun w =>
  v ← JS.setInt16 (view w) (pos w) sample;
  Ok (tt, mkWriter v (pos w + 2)).

Definition getPos : W nat := fun w => Ok (pos w, w).

(** The WAVE header. *)
Definition write_header (numOfChan : nat) (rate : Z) (length : nat)
  : W unit :=
  setUint32 (JS.of_Z 0x46464952);;
  setUint32 (JS.of_Z (Z.of_nat length - 8));;
  setUint32 (JS.of_Z 0x45564157);;
  setUint32 (JS.of_Z 0x20746d66);;
  setUint32 (JS.of_Z 16);;
  setUint16 (JS.of_Z 1);;
  setUint16 (JS.of_nat numOfChan);;
  setUint32 (JS.of_Z rate);;
  setUint32 (JS.of_Z (rate * 2 * Z.of_nat numOfChan));;
  setUint16 (JS.of_Z (Z.of_nat numOfChan * 2));;
  setUint16 (JS.of_Z 16);;
  setUint32 (JS.of_Z 0x61746164);;
  p ← getPos;
  setUint32 (JS.of_Z (Z.of_nat length - Z.of_nat p - 4)).

(** [channels[i][offset]]; past the end of the channel the read is
    [undefined], which [Math.min] turns into [NaN]. *)
Definition read_sample (channel : list num) (offset : nat) : num :=
  default NaN (channel !! offset).

(** The inner loop: one sample of every channel, in channel order. *)
Fixpoint write_frame (channels : list (list num)) (offset : nat) : W unit :=
  match channels with
  | [] => mret tt
  | channel :: others =>
      setInt16 (Pcm.wave_sample (read_sample channel offset));;
      write_frame others offset
  end.

(** [while (pos < length) { ...; offset++ }].  [None] stands for a loop
    that is still running when the fuel is spent. *)
Fixpoint write_frames (fuel : nat) (channels : list (list num))
    (length : nat) (offset : nat) (w : writer) : option (result writer) :=
  match fuel with
  | O => None
  | S fuel' =>
      if (pos w <? length)%nat then
        match write_frame channels offset w with
        | Ok (_, w') => write_frames fuel' channels length (S offset) w'
        | Throw e => Some (Throw e)
        end
      else Some (Ok w)
  end.

(** [bufferToWave(abuffer, len)]; the result is the content of the
    [ArrayBuffer] the blob wraps. *)
Definition bufferToWave_fuel (fuel : nat) (abuffer : AudioBuffer)
    (len : nat) : option (result (list byte)) :=
  let numOfChan := JS.numberOfChannels abuffer in
  let length := (len * numOfChan * 2 + 44)%nat in
  let buffer := replicate length x00 in
  match write_header numOfChan (JS.sampleRate abuffer) length
          (mkWriter buffer 0) with
  | Throw e => Some (Throw e)
  | Ok (_, w) =>
      match write_frames fuel (JS.channels abuffer) length 0 w with
      | Some (Ok w') => Some (Ok (view w'))
      | Some (Throw e) => Some (Throw e)
      | None => None
      end
  end.

(** Every turn of the loop moves [pos] forward, so [len + 1] turns are
    always enough ([bufferToWave_total] below). *)
Definition bufferToWave (abuffer : AudioBuffer) (len : nat)
  : option (result (list byte)) :=
  bufferToWave_fuel (S len) abuffer len.

(** The 16-bit integer [bufferToWave] stores for a sample. *)
Definition stored_sample (x : num) : Z := JS.ToInt16 (Pcm.wave_sample x).

(** One frame: the samples at [offset] of all channels, in channel
    order, two little-endian bytes each. *)
Definition frame_bytes (channels : list (list num)) (offset : nat)
  : list byte :=
  concat (map (fun channel =>
                 JS.le16 (stored_sample (read_sample channel offset)))
              channels).

(** The interleaved sample data of [n] frames from frame [first] on. *)
Definition interleaved_from (channels : list (list num)) (first n : nat)
  : list byte :=
  concat (map (frame_bytes channels) (seq first n)).

Definition interleaved (channels : list (list num)) (n : nat) : list byte :=
  interleaved_from channels 0 n.

(** The header as bytes. *)
Definition header (numOfChan : nat) (rate : Z) (length : nat) : list byte :=
  JS.le32 0x46464952 ++ JS.le32 ((Z.of_nat length - 8) mod 2 ^ 32)
  ++ JS.le32 0x45564157 ++ JS.le32 0x20746d66 ++ JS.le32 16
  ++ JS.le16 1 ++ JS.le16 (Z.of_nat numOfChan mod 2 ^ 16)
  ++ JS.le32 (rate mod 2 ^ 32)
  ++ JS.le32 ((rate * 2 * Z.of_nat numOfChan) mod 2 ^ 32)
  ++ JS.le16 ((Z.of_nat numOfChan * 2) mod 2 ^ 16) ++ JS.le16 16
  ++ JS.le32 0x61746164 ++ JS.le32 ((Z.of_nat length - 44) mod 2 ^ 32).

(** The 16-bit integer of a sample as the comment in [bufferToWave]
    words it: the sample clamped to [-1, 1] and scaled to a 16-bit
    signed integer, by 32768 where the test [0.5 + sample < 0] holds and
    by 32767 elsewhere, the fraction dropped.  A sample that is no
    number gives 0. *)
Definition sample16 (x : num) : Z :=
  match x with
  | NaN => 0
  | PosInf => 32767
  | NegInf => -32768
  | Fin q =>
      let s := Pcm.clampQ q in
      if Pcm.Qltb ((1 # 2) + s) (inject_Z 0)
      then JS.truncate (s * inject_Z 32768)
      else JS.truncate (s * inject_Z 32767)
  end.

(** Reading 16-bit and 32-bit little-endian fields back. *)
Definition u16_at (bytes : list byte) (at_ : nat) : option Z :=
  match bytes !! at_, bytes !! S at_ with
  | Some b0, Some b1 => Some (JS.Z_of_byte b0 + 256 * JS.Z_of_byte b1)
  | _, _ => None
  end.

Definition u32_at (bytes : list byte) (at_ : nat) : option Z :=
  match u16_at bytes at_, u16_at bytes (at_ + 2) with
  | Some lo, Some hi => Some (lo + 65536 * hi)
  | _, _ => None
  end.

End Wav.

(** ** Strings *)

Module Str.

Local Open Scope string_scope.

(** Code units that [\s] and [String.prototype.trim] treat as white
    space: tab, line feed, vertical tab, form feed, carriage return,
    space and no-break space. *)
Definition is_space (c : ascii) : bool :=
  let n := nat_of_ascii c in
  (((9 <=? n) && (n <=? 13)) || (n =? 32) || (n =? 160))%nat.

(** Line terminators: line feed and carriage return. *)
Definition is_line_terminator (c : ascii) : bool :=
  let n := nat_of_ascii c in ((n =? 10) || (n =? 13))%nat.

Definition chars (s : string) : list ascii := list_ascii_of_string s.
Definition of_chars (l : list ascii) : string := string_of_list_ascii l.

(** The longest prefix whose characters satisfy [p], and the rest. *)
Fixpoint span (p : ascii -> bool) (l : list ascii)
  : list ascii * list ascii :=
  match l with
  | c :: l' =>
      if p c then let '(a, b) := span p l' in (c :: a, b) else ([], l)
  | [] => ([], [])
  end.

(** [l] is empty or starts with a character that fails [p]. *)
Definition stops (p : ascii -> bool) (l : list ascii) : Prop :=
  match l with
  | [] => True
  | c :: _ => p c = false
  end.

Definition trim_chars (l : list ascii) : list ascii :=
  rev (snd (span is_space (rev (snd (span is_space l))))).

(** [s.trim()] *)
Definition trim (s : string) : string := of_chars (trim_chars (chars s)).

(** [!s] for a string: only the empty string is falsy. *)
Definition falsy (s : string) : bool :=
  match s with
  | EmptyString => true
  | _ => false
  end.

(** [a || b] where [a] is a string or [undefined]. *)
Definition or_else (a : option string) (b : string) : string :=
  match a with
  | Some s => if falsy s then b else s
  | None => b
  end.

(** [parts.join(sep)] *)
Definition join (sep : string) (parts : list string) : string :=
  String.concat sep parts.

End Str.

(** ** Plain objects used as tables *)

Module Obj.

Local Open Scope string_scope.

(** The functions every object literal inherits from [Object.prototype];
    the accessor [__proto__] is inherited as well. *)
Definition prototype_functions : list string :=
  ["constructor"; "hasOwnProperty"; "isPrototypeOf";
   "propertyIsEnumerable"; "toLocaleString"; "toString"; "valueOf";
   "__defineGetter__"; "__defineSetter__"; "__lookupGetter__";
   "__lookupSetter__"].

Definition inherits (key : string) : bool :=
  bool_decide (key ∈ prototype_functions) || String.eqb key "__proto__".

(** What [table[key]] finds in an object literal [table]: a property of
    its own, a property it inherits, or nothing ([undefined]). *)
Inductive property (A : Type) : Type :=
| Own (value : A)
| Inherited
| Absent.
Arguments Own {A} value.
Arguments Inherited {A}.
Arguments Absent {A}.

Definition get {A} (table : gmap string A) (key : string) : property A :=
  match table !! key with
  | Some value => Own value
  | None => if inherits key then Inherited else Absent
  end.

(** The text of an inherited value: a built-in function prints as
    [function name() { [native code] }] (the white space is the
    engine's; this is V8's), [constructor] being the function [Object];
    [__proto__] is the prototype object. *)
Definition inherited_text (key : string) : string :=
  if String.eqb key "__proto__" then "[object Object]"
  else
    "function "
    +:+ (if String.eqb key "constructor" then "Object" else key)
    +:+ "() { [native code] }".

(** [table[key]] of a table of strings, as a string; [None] is
    [undefined].  An inherited value is never falsy and neither is its
    text. *)
Definition get_text (table : gmap string string) (key : string)
  : option string :=
  match get table key with
  | Own value => Some value
  | Inherited => Some (inherited_text key)
  | Absent => None
  end.

End Obj.

(** ** The prompt builder *)

Module Prompt.

Local Open Scope string_scope.

Definition MAX_EMOTIONS : nat := 3.
Definition MAX_SPEAKERS : nat := 5.
Definition MIN_SPEAKERS : nat := 2.

Inductive EditorId : Type := tts | story | poetry.

(** An entry of [speakerConfigsForGeneration]: a speaker without its id. *)
Record Speaker : Type := mkSpeaker {
  name : string;
  voice : string
}.

(** One row of the Emotion Lab: the selected emotion and
    [parseInt(slider.value)]. *)
Record EmotionControl : Type := mkEmotion {
  emotion : string;
  intensity : Z
}.

Definition emotionAdverbMap : gmap string string :=
  list_to_map
    [("joyful", "joyfully"); ("amused", "amusedly");
     ("excited", "excitedly"); ("enthusiastic", "enthusiastically");
     ("confident", "confidently"); ("hopeful", "hopefully");
     ("calm", "calmly"); ("playful", "playfully"); ("proud", "proudly");
     ("sad", "sadly"); ("angry", "angrily"); ("fearful", "fearfully");
     ("concerned", "in a concerned tone");
     ("disappointed", "disappointedly"); ("anxious", "anxiously");
     ("annoyed", "in an annoyed tone"); ("sarcastic", "sarcastically");
     ("surprised", "in a surprised tone");
     ("suspenseful", "suspensefully"); ("skeptical", "skeptically");
     ("thoughtful", "thoughtfully"); ("whisper", "in a whispering tone");
     ("authoritative", "authoritatively"); ("cinematic", "cinematically")].

Definition narrationStylePromptMap : gmap string string :=
  list_to_map
    [("default", "");
     ("news", "Recite in a clear, formal tone like a news anchor. ");
     ("documentary",
      "Recite in a calm, informative tone like a documentary narrator. ");
     ("audiobook",
      "Recite in an engaging, narrative tone like an audiobook narrator. ");
     ("trailer",
      "Recite in a dramatic, epic tone like a movie trailer voiceover. ");
     ("asmr", "Recite in a very soft, close-mic, whispering ASMR style. ");
     ("radio_dj",
      "Recite in an upbeat, energetic tone like a morning show radio DJ. ");
     ("sports",
      "Recite in a fast-paced, excited, and dynamic tone like a sports commentator. ");
     ("meditation",
      "Recite in a slow, calming, and peaceful tone with pauses, like a meditation guide. ");
     ("elearning",
      "Recite in a clear, friendly, and educational tone like an e-learning instructor. ")].

Definition poetryAccentPromptMap : gmap string string :=
  list_to_map
    [("american-standard", "in a standard American accent");
     ("american-southern", "in a gentle Southern American accent");
     ("american-californian",
      "in a relaxed, contemporary Californian accent");
     ("american-new-york", "in a distinct New York City accent");
     ("british-rp",
      "in a classic, clear Received Pronunciation British accent");
     ("british-cockney",
      "in a lively, informal Cockney accent from East London");
     ("british-scottish", "in a soft, melodic Scottish accent");
     ("british-scouse",
      "in a characteristic Scouse accent from Liverpool");
     ("british-yorkshire", "in a broad, friendly Yorkshire accent");
     ("irish-dublin", "in a friendly Dublin Irish accent");
     ("irish-cork", "in a lyrical Cork city Irish accent");
     ("indian-generic", "in a clear, metropolitan Indian English accent");
     ("indian-hindi", "in a Hindi-influenced Indian English accent");
     ("indian-bengali", "in a Bengali-influenced Indian English accent");
     ("indian-tamil", "in a Tamil-influenced Indian English accent");
     ("australian-general", "in a general Australian accent");
     ("canadian", "in a standard Canadian accent");
     ("south-african", "in a general South African English accent");
     ("nigerian", "in a Nigerian English accent");
     ("jamaican", "in a Jamaican Patois-influenced English accent");
     ("french", "with a light, sophisticated French accent");
     ("spanish", "with a light, rhythmic Spanish accent")].

(** [emotionAdverbMap[emotion] || `with ${emotion}`], as the string it
    becomes in the instruction.  For the name of an inherited property
    the table answers with the inherited value, which is truthy. *)
Definition adverb_of (emotion : string) : string :=
  Str.or_else (Obj.get_text emotionAdverbMap emotion) ("with " +:+ emotion).


(** [getEmotionPromptString()], over the rows of the Emotion Lab in
    document order. *)
Definition getEmotionPromptString (controls : list EmotionControl)
  : string :=
  let emotionStrings :=
    foldl (fun pushed control =>
             if negb (String.eqb (emotion control) "neutral")
                && (0 <? intensity control)%Z
             then (pushed ++ [adverb_of (emotion control)])%list
             else pushed)
          [] controls in
  if (length emotionStrings =? 0)%nat then ""
  else "Recite the following " +:+ Str.join " and " emotionStrings +:+ ": ".

(** The voice configuration of a request. *)
Inductive SpeechConfig : Type :=
| SingleVoice (voiceName : string)
| MultiSpeaker (speakerVoiceConfigs : list Speaker).

(** The argument of [ai.models.generateContent]; the response modality
    is always audio. *)
Record Request : Type := mkRequest {
  model : string;
  prompt : string;
  speechConfig : SpeechConfig
}.

(** What [generateAudio] reads from the page and from module state when
    it starts. *)
Record Page : Type := mkPage {
  activeTab : EditorId;
  script : string;
  emotionControls : list EmotionControl;
  voiceSelect : string;
  narrationStyleSelect : string;
  hinglishToggle : bool;
  storyMode : string;
  speakerConfigsForGeneration : list Speaker;
  aiCreativeToggle : bool;
  storyVoiceSelect : string;
  genreSelect : string;
  regionSelect : string
}.

(** An entry of the blend contributes when its emotion is not neutral and
    its intensity is positive. *)
Definition contributes (c : EmotionControl) : Prop :=
  emotion c <> "neutral" /\ (0 < intensity c)%Z.

#[global] Instance contributes_dec c : Decision (contributes c).
Proof. unfold contributes. apply _. Defined.

Definition phrases (blend : list EmotionControl) : list string :=
  map (fun c => adverb_of (emotion c)) (filter contributes blend).

Definition hinglish_hint : string :=
  "The following is Hinglish text. Please pronounce all words appropriately. ".

(** The prompt of the plain TTS tab. *)
Definition tts_prompt (emotionInstruction : string)
    (narrationStyle : string) (useHinglish : bool) (script : string)
  : string :=
  let promptBody := script in
  let promptBody :=
    if Str.falsy emotionInstruction then promptBody
    else emotionInstruction +:+ promptBody in
  let promptBody :=
    match Obj.get_text narrationStylePromptMap narrationStyle with
    | Some narrationInstruction =>
        if Str.falsy narrationInstruction then promptBody
        else narrationInstruction +:+ promptBody
    | None => promptBody
    end in
  let promptBody :=
    if useHinglish then hinglish_hint +:+ promptBody else promptBody in
  "TTS the following text: " +:+ promptBody.

(** The prompt as the specification words it: emotion instruction,
    narration-style instruction, language hint, script. *)
Definition spec_tts_prompt (emotionInstruction : string)
    (narrationStyle : string) (useHinglish : bool) (script : string)
  : string :=
  emotionInstruction
  +:+ default "" (narrationStylePromptMap !! narrationStyle)
  +:+ (if useHinglish then hinglish_hint else "")
  +:+ script.

Definition insufficient_speakers : string :=
  "Multi-speaker and AI Director modes require at least "
  +:+ pretty MIN_SPEAKERS +:+ " speakers to be configured.".

Definition empty_script : string :=
  "Script is empty. Please enter some text to generate audio.".

Definition no_audio : string :=
  "API did not return any audio data. Please check your script or settings.".

Definition tts_model : string := "gemini-2.5-flash-preview-tts".

(** How a run of [generateAudio] ends: with a playable buffer, by the
    early [return] after a cancellation, or in the [catch] block. *)
Inductive outcome : Type :=
| Ready (finalAudioBuffer : AudioBuffer)
| Cancelled
| Failed (e : exn).

Section Generation.

(** The collaborators: the remote model (its answer is
    [response.candidates?.[0]?.content?.parts?.[0]?.inlineData?.data ?? null],
    or a rejected promise), [atob], whether the user cancelled while the
    call was pending, and the two [String.replace] calls that rewrite or
    strip director's notes. *)
Variable generateContent : Request -> result (option string).
Variable atob : string -> result (list byte).
Variable abortedDuringCall : bool.
Variable directorNotes : bool -> string -> string.

(** A computation that may issue remote calls: it extends the log of
    requests and returns a value or throws. *)
Definition Gen (A : Type) : Type :=
  list Request -> result A * list Request.

#[local] Instance Gen_ret : MRet Gen := fun _ a log => (Ok a, log).
#[local] Instance Gen_bind : MBind Gen := fun _ _ k m log =>
  match m log with
  | (Ok a, log') => k a log'
  | (Throw e, log') => (Throw e, log')
  end.

Definition throw {A} (message : string) : Gen A :=
  fun log => (Throw (Error message), log).

Definition lift {A} (r : result A) : Gen A := fun log => (r, log).

(** [await ai.models.generateContent(...)] *)
Definition call (request : Request) : Gen (option string) :=
  fun log => (generateContent request, (log ++ [request])%list).

(** Steps 2 and 3 of [generateAudio]: validate, build the prompt of the
    active tab and call the model. *)
Definition request_audio (page : Page) : Gen (option string) :=
  if Str.falsy (Str.trim (script page)) then throw empty_script
  else
    let emotionInstruction :=
      getEmotionPromptString (emotionControls page) in
    match activeTab page with
    | tts =>
        let prompt :=
          tts_prompt emotionInstruction (narrationStyleSelect page)
            (hinglishToggle page) (script page) in
        call (mkRequest tts_model prompt (SingleVoice (voiceSelect page)))
    | story =>
        if String.eqb (storyMode page) "multi"
           || String.eqb (storyMode page) "ai"
        then
          let speakers := speakerConfigsForGeneration page in
          if (length speakers <? MIN_SPEAKERS)%nat
          then throw insufficient_speakers
          else
            let prompt :=
              if String.eqb (storyMode page) "ai" then
                if aiCreativeToggle page
                then "TTS the following script, following all parenthetical directions for tone and pacing:"
                     +:+ Str.of_chars ["010"%char; "010"%char]
                     +:+ directorNotes true (script page)
                else "TTS the following script, ignoring any parenthetical notes:"
                     +:+ Str.of_chars ["010"%char; "010"%char]
                     +:+ Str.trim (directorNotes false (script page))
              else
                "TTS the following conversation between "
                +:+ Str.join " and " (map name speakers) +:+ ": "
                +:+ script page in
            call (mkRequest tts_model prompt (MultiSpeaker speakers))
        else
          let prompt :=
            "TTS the following story: " +:+ emotionInstruction
            +:+ script page in
          call (mkRequest tts_model prompt
                  (SingleVoice (storyVoiceSelect page)))
    | poetry =>
        let accent :=
          default "undefined"
            (Obj.get_text poetryAccentPromptMap (regionSelect page)) in
        let prompt :=
          emotionInstruction +:+ "Recite the following "
          +:+ genreSelect page +:+ " " +:+ accent +:+ ": "
          +:+ script page in
        call (mkRequest tts_model prompt (SingleVoice (voiceSelect page)))
    end.

(** Step 4: decode the answer. *)
Definition decode_audio (base64Audio : option string)
  : Gen (option AudioBuffer) :=
  if abortedDuringCall then mret None
  else
    match base64Audio with
    | Some data =>
        if Str.falsy data then throw no_audio
        else
          decodedBytes ← lift (atob data);
          audioBuffer ← lift (Pcm.decodeAudioData decodedBytes 24000 1);
          mret (Some audioBuffer)
    | None => throw no_audio
    end.

(** [generateAudio()]: the outcome and the remote calls it made. *)
Definition generateAudio (page : Page) : outcome * list Request :=
  match (request_audio page ≫= decode_audio) [] with
  | (Ok (Some audioBuffer), log) => (Ready audioBuffer, log)
  | (Ok None, log) => (Cancelled, log)
  | (Throw e, log) => (Failed e, log)
  end.

End Generation.

End Prompt.

(** ** Speakers *)

Module Speakers.

Local Open Scope string_scope.

(** *** [MULTI_SPEAKER_PATTERN]

    The pattern, with the flags [g] and [m], is: [^], group 1 (a letter
    or underscore followed by any number of letters, digits and
    underscores), a colon, [\s] any number of times, group 2 ([.] any
    number of times), [$].  With the [m] flag [^] holds at the start of
    the text and after a line terminator, and [$] at its end and before a
    line terminator; [\s] also matches line terminators and [.] does
    not.  The three quantifiers are greedy and the first attempt always
    succeeds: the name is the longest run of name characters (the colon
    that must follow is not one), the white space is the longest run of
    white space, and group 2 runs to the end of the line, where [$]
    holds. *)

Definition is_name_start (c : ascii) : bool :=
  let n := nat_of_ascii c in
  (((65 <=? n) && (n <=? 90)) || ((97 <=? n) && (n <=? 122))
   || (n =? 95))%nat.

Definition is_name_char (c : ascii) : bool :=
  let n := nat_of_ascii c in
  (is_name_start c || ((48 <=? n) && (n <=? 57)))%nat.

Definition not_line_terminator (c : ascii) : bool :=
  negb (Str.is_line_terminator c).

(** A match: the matched text ([match[0]]) and the two groups. *)
Record Match : Type := mkMatch {
  matched : list ascii;
  group1 : list ascii;
  group2 : list ascii
}.

(** The match that starts at the head of [s], if there is one; the
    caller has checked [^]. *)
Definition match_here (s : list ascii) : option Match :=
  match s with
  | c :: s1 =>
      if is_name_start c then
        let '(more, s2) := Str.span is_name_char s1 in
        match s2 with
        | x :: s3 =>
            if Ascii.eqb x ":" then
              let '(spaces, s4) := Str.span Str.is_space s3 in
              let '(rest_of_line, _) := Str.span not_line_terminator s4 in
              Some (mkMatch
                      (c :: more ++ ":"%char :: spaces ++ rest_of_line)
                      (c :: more) rest_of_line)
            else None
        | [] => None
        end
      else None
  | [] => None
  end.

(** All matches, left to right and without overlap, as [matchAll] (and
    [match] with the [g] flag) finds them from [lastIndex = 0].
    [line_start] tells whether [^] holds at the head of [s]; [skip]
    counts the characters of the last match still to be passed. *)
Fixpoint scan (s : list ascii) (line_start : bool) (skip : nat)
  : list Match :=
  match s with
  | [] => []
  | c :: s' =>
      match skip with
      | S k => scan s' (Str.is_line_terminator c) k
      | O =>
          match (if line_start then match_here s else None) with
          | Some m =>
              m :: scan s' (Str.is_line_terminator c)
                     (length (matched m) - 1)
          | None => scan s' (Str.is_line_terminator c) 0
          end
      end
  end.

Definition matchAll (text : string) : list Match :=
  scan (Str.chars text) true 0.

(** *** The standalone page: recognized speakers *)

(** [speakers.add(x)] on a [Set], which keeps insertion order. *)
Definition set_add (speakers : list string) (x : string) : list string :=
  if bool_decide (x ∈ speakers) then speakers else (speakers ++ [x])%list.

(** [getRecognizedSpeakers(text)] *)
Definition getRecognizedSpeakers (text : string) : list string :=
  foldl (fun speakers m =>
           let name := Str.of_chars (group1 m) in
           if Str.falsy name then speakers else set_add speakers name)
        [] (matchAll text).

(** The first appearances of the elements of a list, in order. *)
Fixpoint first_appearances (l : list string) : list string :=
  match l with
  | [] => []
  | x :: l' => x :: filter (fun y => y <> x) (first_appearances l')
  end.

(** The names the matches of the pattern capture, in order. *)
Definition names (text : string) : list string :=
  map (fun m => Str.of_chars (group1 m)) (matchAll text).

(** Speaker extraction as the specification words it: every line is
    looked at on its own, and a line that starts with a name and a colon
    names a speaker; first appearances are kept, in order. *)
Fixpoint lines_of (s : list ascii) (current : list ascii)
  : list (list ascii) :=
  match s with
  | [] => [current]
  | c :: s' =>
      if Str.is_line_terminator c then current :: lines_of s' []
      else lines_of s' (current ++ [c])
  end.

Definition line_speaker (line : list ascii) : option string :=
  match line with
  | c :: l1 =>
      if is_name_start c then
        match Str.span is_name_char l1 with
        | (more, x :: _) =>
            if Ascii.eqb x ":" then Some (Str.of_chars (c :: more))
            else None
        | (_, []) => None
        end
      else None
  | [] => None
  end.

Definition spec_extractSpeakers (text : string) : list string :=
  foldl (fun speakers line =>
           match line_speaker line with
           | Some name => set_add speakers name
           | None => speakers
           end)
        [] (lines_of (Str.chars text) []).

(** A line that is a speaker tag with nothing but white space after its
    colon. *)
Definition bare_tag (line : list ascii) : bool :=
  match line with
  | c :: l1 =>
      if is_name_start c then
        match Str.span is_name_char l1 with
        | (_, x :: l2) => Ascii.eqb x ":" && forallb Str.is_space l2
        | (_, []) => false
        end
      else false
  | [] => false
  end.

(** No line but the last is a bare tag. *)
Fixpoint tags_have_text (lines : list (list ascii)) : Prop :=
  match lines with
  | [] => True
  | line :: rest =>
      match rest with
      | [] => True
      | _ :: _ => bare_tag line = false /\ tags_have_text rest
      end
  end.

(** *** The standalone TTS service *)

Definition MULTI_SPEAKER_VOICES : gmap string string :=
  list_to_map
    [("Joe", "Kore"); ("Jane", "Puck"); ("Anna", "Charon");
     ("Max", "Fenrir"); ("Sarah", "Zephyr")].

Record SpeechSettings : Type := mkSettings {
  speakingRate : Q;
  pitch : Q;
  volumeGainDb : Q
}.

Record VoiceConfig : Type := mkVoiceConfig {
  voiceName : string;
  settings : SpeechSettings
}.

Inductive SpeechConfig : Type :=
| voiceConfig (v : VoiceConfig)
| multiSpeakerVoiceConfig (speakerVoiceConfigs : list (string * VoiceConfig)).

(** [parseMultiSpeakerText(text)]: the matched texts. *)
Definition parseMultiSpeakerText (text : string) : list string :=
  map (fun m => Str.of_chars (matched m)) (matchAll text).

(** [part.match(MULTI_SPEAKER_PATTERN)]: the pattern has the [g] flag,
    so the result is the array of all matched texts, or [null]. *)
Definition String_match (part : string) : option (list string) :=
  match parseMultiSpeakerText part with
  | [] => None
  | found => Some found
  end.

(** The [forEach] over the speaker parts: [match[1]] is the second
    element of the array [match] returned. *)
Definition add_speaker (speechSettings : SpeechSettings)
    (state : list (string * VoiceConfig) * list string) (part : string)
  : list (string * VoiceConfig) * list string :=
  let '(speakerVoiceConfigs, uniqueSpeakers) := state in
  match String_match part with
  | Some found =>
      match found !! 1%nat with
      | Some second =>
          if Str.falsy second then state
          else
            let speakerName := Str.trim second in
            if bool_decide (speakerName ∈ uniqueSpeakers) then state
            else
              let voice :=
                Str.or_else (MULTI_SPEAKER_VOICES !! speakerName) "Zephyr" in
              ((speakerVoiceConfigs
                ++ [(speakerName, mkVoiceConfig voice speechSettings)])%list,
               (uniqueSpeakers ++ [speakerName])%list)
      | None => state
      end
  | None => state
  end.

Definition collect_speakers (speechSettings : SpeechSettings)
    (speakerParts : list string) : list (string * VoiceConfig) :=
  fst (foldl (add_speaker speechSettings) ([], []) speakerParts).

(** The speech configuration [generateTTS(text, voiceName, speechSettings)]
    sends with the text. *)
Definition generateTTS_speechConfig (text : string) (voice : string)
    (speechSettings : SpeechSettings) : SpeechConfig :=
  let speakerParts := parseMultiSpeakerText text in
  let isMultiSpeaker := negb (length speakerParts =? 0)%nat in
  if isMultiSpeaker then
    let speakerVoiceConfigs := collect_speakers speechSettings speakerParts in
    if (length speakerVoiceConfigs =? 0)%nat
    then voiceConfig (mkVoiceConfig voice speechSettings)
    else multiSpeakerVoiceConfig speakerVoiceConfigs
  else voiceConfig (mkVoiceConfig voice speechSettings).

(** *** The main page: speakers from the script analysis *)

Record SpeakerConfig : Type := mkSpeakerConfig {
  id : Z;
  name : string;
  voice : string
}.

Definition defaultVoices : list string :=
  ["Kore"; "Zephyr"; "Puck"; "Charon"; "Fenrir"].

(** The roster [analyzeScriptForSpeakers] builds from the names the
    analysis returned, [now] being [Date.now()]. *)
Definition newSpeakerConfigs (now : Z) (characterNames : list string)
  : list SpeakerConfig :=
  imap (fun index name =>
          mkSpeakerConfig (now + Z.of_nat index) name
            (default "" (defaultVoices !! (index mod length defaultVoices)%nat)))
       (take Prompt.MAX_SPEAKERS characterNames).

(** [handleSetSpeakers] replaces the roster when the new one is not
    empty; an empty analysis result leaves it alone. *)
Definition setSpeakersFromScript (speakers : list SpeakerConfig) (now : Z)
    (characterNames : list string) : list SpeakerConfig :=
  match newSpeakerConfigs now characterNames with
  | [] => speakers
  | detail => detail
  end.

End Speakers.

(** ** The MP3 export and its busy flag *)

Module Mp3.

(** The module state [downloadMp3] and the worker's handlers read and
    write, with two counters of the environment: the calls of
    [downloadMp3] suspended at [await applyAudioLabEffects(...)] and the
    jobs posted to the worker that it has not answered yet. *)
Record state : Type := mkState {
  finalAudioBuffer : bool;   (* a buffer is there (not [null]) *)
  mp3Worker : bool;          (* the worker was created *)
  isEncodingMp3 : bool;
  onmessage : bool;          (* a handler is installed *)
  onerror : bool;
  processing : nat;
  posted : nat
}.

(** What the event loop can run next. *)
Inductive event : Type :=
| Request          (* [downloadMp3()] is called *)
| EffectsResolved  (* the awaited effects chain resolves *)
| EffectsRejected  (* it rejects: the [catch] block runs *)
| WorkerMessage    (* the worker posts its blob *)
| WorkerError      (* the worker raises an error event *)
| BufferChanged (present : bool). (* a generation starts or completes *)

(** What the user sees of a step. *)
Inductive signal : Type :=
| AlertNoAudio
| AlertBusy
| AlertNoWorker
| Started
| JobPosted
| Downloaded
| AlertEncodingError
| AlertProcessingError
| Unhandled
| Silent.

(** [downloadMp3()] up to its [await]: the three guards, then the flag is
    set and the effects chain is started. *)
Definition downloadMp3 (s : state) : state * signal :=
  if negb (finalAudioBuffer s) then (s, AlertNoAudio)
  else if isEncodingMp3 s then (s, AlertBusy)
  else if negb (mp3Worker s) then (s, AlertNoWorker)
  else
    (mkState (finalAudioBuffer s) (mp3Worker s) true
       (onmessage s) (onerror s) (S (processing s)) (posted s),
     Started).

(** The rest of the [try] block, once the effects chain has resolved:
    both handlers are installed and the samples are posted. *)
Definition downloadMp3_resumed (s : state) (stillProcessing : nat)
  : state * signal :=
  (mkState (finalAudioBuffer s) (mp3Worker s) (isEncodingMp3 s)
     true true stillProcessing (S (posted s)),
   JobPosted).

(** The [catch] block. *)
Definition downloadMp3_caught (s : state) (stillProcessing : nat)
  : state * signal :=
  (mkState (finalAudioBuffer s) (mp3Worker s) false
     (onmessage s) (onerror s) stillProcessing (posted s),
   AlertProcessingError).

(** [mp3Worker.onmessage]: download, clear the flag, uninstall itself. *)
Definition worker_onmessage (s : state) (stillPosted : nat)
  : state * signal :=
  (mkState (finalAudioBuffer s) (mp3Worker s) false
     false (onerror s) (processing s) stillPosted,
   Downloaded).

(** [mp3Worker.onerror]: alert, clear the flag, uninstall itself. *)
Definition worker_onerror (s : state) (stillPosted : nat)
  : state * signal :=
  (mkState (finalAudioBuffer s) (mp3Worker s) false
     (onmessage s) false (processing s) stillPosted,
   AlertEncodingError).

(** An answer of the worker that finds no handler changes nothing but
    the count of answers owed. *)
Definition unhandled (s : state) (stillPosted : nat) : state * signal :=
  (mkState (finalAudioBuffer s) (mp3Worker s) (isEncodingMp3 s)
     (onmessage s) (onerror s) (processing s) stillPosted,
   Unhandled).

(** One turn of the event loop; [None] when the event cannot occur
    (nothing is awaited, or the worker owes no answer: it answers a job
    once, with a message or with an error). *)
Definition step (s : state) (e : event) : option (state * signal) :=
  match e with
  | Request => Some (downloadMp3 s)
  | EffectsResolved =>
      match processing s with
      | S n => Some (downloadMp3_resumed s n)
      | O => None
      end
  | EffectsRejected =>
      match processing s with
      | S n => Some (downloadMp3_caught s n)
      | O => None
      end
  | WorkerMessage =>
      match posted s with
      | S n => Some (if onmessage s then worker_onmessage s n
                     else unhandled s n)
      | O => None
      end
  | WorkerError =>
      match posted s with
      | S n => Some (if onerror s then worker_onerror s n
                     else unhandled s n)
      | O => None
      end
  | BufferChanged present =>
      Some (mkState present (mp3Worker s) (isEncodingMp3 s)
              (onmessage s) (onerror s) (processing s) (posted s),
            Silent)
  end.

(** A run of the event loop from [s]. *)
Fixpoint run (s : state) (events : list event) : option state :=
  match events with
  | [] => Some s
  | e :: rest =>
      match step s e with
      | Some (s', _) => run s' rest
      | None => None
      end
  end.

(** The state after [init()]: no encode, no handler; the worker is
    there unless its creation failed. *)
Definition initial (worker : bool) : state :=
  mkState false worker false false false 0 0.

(** The encodes in flight. *)
Definition active (s : state) : nat := processing s + posted s.

(** The invariant of the event loop: the flag is set exactly while one
    encode is in flight, never more than one is, and a posted job finds
    both handlers installed. *)
Definition consistent (s : state) : Prop :=
  active s <= 1 /\
  (isEncodingMp3 s = true <-> active s = 1) /\
  (posted s = 1 -> onmessage s = true /\ onerror s = true).

End Mp3.

(** ** The standalone TTS service: the WAV blob and the errors *)

Module TtsService.

Local Open Scope string_scope.

Definition MODEL_NAME : string := "gemini-2.5-flash-preview-tts".
Definition OUTPUT_SAMPLE_RATE : Z := 24000.
Definition OUTPUT_CHANNELS : nat := 1.

(** [view.setUint8(pos, x)] *)
Definition setUint8 (view : list byte) (pos : nat) (x : num)
  : result (list byte) :=
  JS.store view pos [JS.byte_of_Z (JS.ToUint 8 x)].

(** [writeString(view, offset, s)], the loop from index [i] on:
    [view.setUint8(offset + i, s.charCodeAt(i))]. *)
Fixpoint writeString_from (view : list byte) (offset i : nat)
    (s : list ascii) : result (list byte) :=
  match s with
  | [] => Ok view
  | c :: s' =>
      view' ← setUint8 view (offset + i) (JS.of_nat (nat_of_ascii c));
      writeString_from view' offset (S i) s'
  end.

Definition writeString (view : list byte) (offset : nat) (s : string)
  : result (list byte) :=
  writeString_from view offset 0 (Str.chars s).

(** [convertAudioBufferToWavBlob(audioBuffer)]; the result is the content
    of the view the blob wraps.  Only channel 0 is written, whatever the
    channel count.  ([getChannelData(0)] needs a channel: the platform
    makes no buffer without one.) *)
Definition convertAudioBufferToWavBlob (audioBuffer : AudioBuffer)
  : result (list byte) :=
  let numOfChannels := JS.numberOfChannels audioBuffer in
  let sampleRate := JS.sampleRate audioBuffer in
  let format := 1%Z in
  let bitDepth := 16%Z in
  let len := (JS.frames audioBuffer * numOfChannels * 2)%nat in
  let view := replicate (44 + len) x00 in
  view ← writeString view 0 "RIFF";
  view ← JS.setUint32 view 4 (JS.of_nat (36 + len));
  view ← writeString view 8 "WAVE";
  view ← writeString view 12 "fmt ";
  view ← JS.setUint32 view 16 (JS.of_Z 16);
  view ← JS.setUint16 view 20 (JS.of_Z format);
  view ← JS.setUint16 view 22 (JS.of_nat numOfChannels);
  view ← JS.setUint32 view 24 (JS.of_Z sampleRate);
  view ← JS.setUint32 view 28
         (JS.of_Z (sampleRate * Z.of_nat numOfChannels * (bitDepth / 8)));
  view ← JS.setUint16 view 32
         (JS.of_Z (Z.of_nat numOfChannels * (bitDepth / 8)));
  view ← JS.setUint16 view 34 (JS.of_Z bitDepth);
  view ← writeString view 36 "data";
  view ← JS.setUint32 view 40 (JS.of_nat len);
  Pcm.floatTo16BitPCM view 44 (JS.getChannelData audioBuffer 0).

(** The byte [writeString] stores for a character, and the data
    [floatTo16BitPCM] stores for a channel. *)
Definition char_byte (c : ascii) : byte :=
  JS.byte_of_Z (Z.of_nat (nat_of_ascii c)).

Definition pcm16 (channel : list num) : list byte :=
  Pcm.bytes_of_samples (map Pcm.spec_sample channel).

(** The argument of [ai.models.generateContent]. *)
Record Request : Type := mkRequest {
  model : string;
  text : string;
  speechConfig : Speakers.SpeechConfig
}.

Definition no_audio : string := "No audio data received from Gemini API.".

Section Service.

(** The collaborators: the client ([new GoogleGenAI({ apiKey: ... })],
    which succeeds or throws), the remote model (its answer is the
    [data] of the first inline part, if there is one, or a rejected
    promise), the two imports from [audioUtils], and the [message] the
    platform gives its own exceptions. *)
Variable GoogleGenAI : result unit.
Variable generateContent : Request -> result (option string).
Variable decode : string -> result (list byte).
Variable decodeAudioData : list byte -> Z -> nat -> result AudioBuffer.
Variable platform_message : exn -> string.

(** [error.message] *)
Definition message_of (error : exn) : string :=
  match error with
  | Error message => message
  | _ => platform_message error
  end.

(** The body of the [try] block. *)
Definition synthesize (request : Request) : result (list byte) :=
  base64Audio ← generateContent request;
  match base64Audio with
  | Some data =>
      if Str.falsy data then Throw (Error no_audio)
      else
        bytes ← decode data;
        audioBuffer ←
          decodeAudioData bytes OUTPUT_SAMPLE_RATE OUTPUT_CHANNELS;
        convertAudioBufferToWavBlob audioBuffer
  | None => Throw (Error no_audio)
  end.

(** [generateTTS(text, voiceName, speechSettings)]: the WAV content behind
    the returned URL, or the error thrown, and the requests sent.  The
    client is made first, outside the [try]: when that throws, the error
    leaves the function as it is and nothing is sent. *)
Definition generateTTS (text : string) (voiceName : string)
    (speechSettings : Speakers.SpeechSettings)
  : result (list byte) * list Request :=
  match GoogleGenAI with
  | Throw error => (Throw error, [])
  | Ok _ =>
      let speechConfig :=
        Speakers.generateTTS_speechConfig text voiceName speechSettings in
      let request := mkRequest MODEL_NAME text speechConfig in
      (match synthesize request with
       | Ok audioData => Ok audioData
       | Throw error =>
           Throw (Error ("Failed to generate audio: "
                         +:+ message_of error))
       end,
       [request])
  end.

End Service.

End TtsService.

(** ** The standalone page *)

Module App.

Local Open Scope string_scope.

Definition DEFAULT_VOICE : string := "Zephyr".
Definition DEFAULT_SPEECH_SETTINGS : Speakers.SpeechSettings :=
  Speakers.mkSettings 1 0 0.

Inductive Setting : Type := speakingRate | pitch | volumeGainDb.

(** The state of the component; [audioUrl] stands for the blob the URL
    points at. *)
Record State : Type := mkState {
  inputText : string;
  selectedVoice : string;
  speechSettings : Speakers.SpeechSettings;
  audioUrl : option (list byte);
  isLoading : bool;
  error : option string
}.

Definition initial : State :=
  mkState "" DEFAULT_VOICE DEFAULT_SPEECH_SETTINGS None false None.

(** [handleSettingsChange(setting, value)] *)
Definition handleSettingsChange (setting : Setting) (value : Q) (s : State)
  : State :=
  let prev := speechSettings s in
  let next :=
    match setting with
    | speakingRate =>
        Speakers.mkSettings value (Speakers.pitch prev)
          (Speakers.volumeGainDb prev)
    | pitch =>
        Speakers.mkSettings (Speakers.speakingRate prev) value
          (Speakers.volumeGainDb prev)
    | volumeGainDb =>
        Speakers.mkSettings (Speakers.speakingRate prev)
          (Speakers.pitch prev) value
    end in
  mkState (inputText s) (selectedVoice s) next (audioUrl s) (isLoading s)
    (error s).

(** [handleClear()] *)
Definition handleClear (s : State) : State := initial.

(** [hasMultiSpeakerPattern(text)]: [test] from [lastIndex = 0] tells
    whether the pattern has a first match. *)
Definition hasMultiSpeakerPattern (text : string) : bool :=
  match Speakers.matchAll text with
  | [] => false
  | _ :: _ => true
  end.

Section Page.

Variable GoogleGenAI : result unit.
Variable generateContent :
  TtsService.Request -> result (option string).
Variable decode : string -> result (list byte).
Variable decodeAudioData : list byte -> Z -> nat -> result AudioBuffer.
Variable platform_message : exn -> string.

(** [handleGenerateAudio()], run to its end: the state it leaves and the
    requests sent.  Whatever [generateTTS] throws is an [Error] of the
    service or an exception of the client, so the [catch] block always
    reads its [message]. *)
Definition handleGenerateAudio (s : State)
  : State * list TtsService.Request :=
  if Str.falsy (Str.trim (inputText s)) then
    (mkState (inputText s) (selectedVoice s) (speechSettings s)
       (audioUrl s) (isLoading s)
       (Some "Please enter some text to generate audio."),
     [])
  else
    let '(outcome, sent) :=
      TtsService.generateTTS GoogleGenAI generateContent decode
        decodeAudioData platform_message (inputText s) (selectedVoice s)
        (speechSettings s) in
    match outcome with
    | Ok audioData =>
        (mkState (inputText s) (selectedVoice s) (speechSettings s)
           (Some audioData) false None,
         sent)
    | Throw err =>
        (mkState (inputText s) (selectedVoice s) (speechSettings s)
           None false
           (Some ("Failed to generate audio: "
                  +:+ TtsService.message_of platform_message err)),
         sent)
    end.

End Page.

End App.

(** ** The validation in [generateAudio] *)

Module Validation.

Import Prompt.
Local Open Scope string_scope.

(** The pages [generateAudio] turns down before it calls the model: a
    blank script, or a multi-speaker or AI-director story with fewer
    than [MIN_SPEAKERS] speakers. *)
Definition rejected (page : Page) : Prop :=
  Str.falsy (Str.trim (script page)) = true \/
  (activeTab page = story /\
   (storyMode page = "multi" \/ storyMode page = "ai") /\
   (length (speakerConfigsForGeneration page) < MIN_SPEAKERS)%nat).

End Validation.

(** ** The generated audio as the player and the WAV download get it *)

Module Player.

Local Open Scope Z_scope.

(** What a 16-bit sample becomes when [decodeAudioData] has divided it by
    32768 and [bufferToWave] has scaled it back: only zero and the samples
    below -16384 are kept, every other sample moves one step toward
    zero. *)
Definition wave_requantize (v : Z) : Z :=
  if v <? -16384 then v
  else if v <? 0 then v + 1
  else if 0 <? v then v - 1
  else 0.

(** Steps 4 and 6 of [generateAudio] on the decoded bytes:
    [decodeAudioData(decodedBytes, audioContext, 24000, 1)], then
    [bufferToWave(finalAudioBuffer, finalAudioBuffer.length)], which
    [downloadWav] repeats. *)
Definition playable_wave (decodedBytes : list byte)
  : result (option (result (list byte))) :=
  finalAudioBuffer ← Pcm.decodeAudioData decodedBytes 24000 1;
  Ok (Wav.bufferToWave finalAudioBuffer (JS.frames finalAudioBuffer)).

End Player.

(** ** The speaker manager *)

Module SpeakerManager.

Import Speakers.
Local Open Scope string_scope.

(** The state of the component: the roster and the voices on offer for
    the selected language. *)
Record state : Type := mkState {
  speakers : list SpeakerConfig;
  availableVoices : list string
}.

Definition initial : state :=
  mkState [mkSpeakerConfig 1 "Narrator" "Kore";
           mkSpeakerConfig 2 "Character_A" "Zephyr"] [].

(** [addSpeaker()], [now] being [Date.now()]. *)
Definition addSpeaker (now : Z) (s : state) : state :=
  if (length (speakers s) <? Prompt.MAX_SPEAKERS)%nat then
    mkState
      (speakers s
       ++ [mkSpeakerConfig now
             ("Speaker_" +:+ pretty (length (speakers s) + 1)%nat)
             (Str.or_else (head (availableVoices s)) "Zephyr")])%list
      (availableVoices s)
  else s.

(** [removeSpeaker(id)]; with [MIN_SPEAKERS] speakers or fewer it only
    alerts. *)
Definition removeSpeaker (removed : Z) (s : state) : state :=
  if (Prompt.MIN_SPEAKERS <? length (speakers s))%nat then
    mkState (filter (fun speaker => id speaker <> removed) (speakers s))
      (availableVoices s)
  else s.

(** [updateSpeaker(id, newName, newVoice)] *)
Definition updateSpeaker (updated : Z) (newName newVoice : string)
    (s : state) : state :=
  mkState
    (map (fun speaker =>
            if (id speaker =? updated)%Z
            then mkSpeakerConfig (id speaker) newName newVoice
            else speaker)
         (speakers s))
    (availableVoices s).

(** [handleSetSpeakers], on the event [analyzeScriptForSpeakers]
    dispatches. *)
Definition handleSetSpeakers (now : Z) (characterNames : list string)
    (s : state) : state :=
  mkState (setSpeakersFromScript (speakers s) now characterNames)
    (availableVoices s).

(** [updateVoices()], [filtered] being the voices of the selected country
    and language. *)
Definition updateVoices (filtered : list string) (s : state) : state :=
  mkState (speakers s) filtered.

(** The effect that bridges the roster to [generateAudio]:
    [speakers.map(({ id, ...rest }) => rest)]. *)
Definition speakerConfigsForGeneration (s : state) : list Prompt.Speaker :=
  map (fun speaker => Prompt.mkSpeaker (name speaker) (voice speaker))
      (speakers s).

Inductive event : Type :=
| AddSpeaker (now : Z)
| RemoveSpeaker (id : Z)
| UpdateSpeaker (id : Z) (newName newVoice : string)
| SetSpeakersFromScript (now : Z) (characterNames : list string)
| UpdateVoices (filtered : list string).

Definition step (s : state) (e : event) : state :=
  match e with
  | AddSpeaker now => addSpeaker now s
  | RemoveSpeaker id => removeSpeaker id s
  | UpdateSpeaker id newName newVoice => updateSpeaker id newName newVoice s
  | SetSpeakersFromScript now characterNames =>
      handleSetSpeakers now characterNames s
  | UpdateVoices filtered => updateVoices filtered s
  end.

Definition run (events : list event) (s : state) : state :=
  foldl step s events.

(** An event the clock and the script analysis can be expected to give:
    a time stamp no speaker has as its id yet, an analysis that names at
    least [MIN_SPEAKERS] characters. *)
Definition expected (s : state) (e : event) : Prop :=
  match e with
  | AddSpeaker now => now ∉ map id (speakers s)
  | SetSpeakersFromScript _ characterNames =>
      (Prompt.MIN_SPEAKERS <= length characterNames)%nat
  | _ => True
  end.

Fixpoint all_expected (s : state) (events : list event) : Prop :=
  match events with
  | [] => True
  | e :: rest => expected s e /\ all_expected (step s e) rest
  end.

End SpeakerManager.

(** ** The Emotion Lab *)

Module EmotionLab.

Import Prompt.
Local Open Scope string_scope.

(** *** The rows and the add button *)

(** The rows of the lab, in document order, and whether the add button
    is disabled. *)
Record state : Type := mkState {
  controls : list EmotionControl;
  addEmotionBtn_disabled : bool
}.

Definition empty : state := mkState [] false.

Section Markup.

(** What a new row shows depends on the markup of the template: the
    value its [select] holds after [select.value = emotion], and the
    number its slider holds after [slider.value = String(intensity)]. *)
Variable select_value : string -> string.
Variable slider_value : Z -> Z.

(** The row a call of [addEmotionControl] appends. *)
Definition new_row (emotion : string) (intensity : Z) : EmotionControl :=
  mkEmotion (select_value emotion) (slider_value intensity).

(** [addEmotionControl(emotion, intensity)] *)
Definition addEmotionControl (emotion : string) (intensity : Z) (s : state)
  : state :=
  let controlCount := length (controls s) in
  if (MAX_EMOTIONS <=? controlCount)%nat then s
  else
    let controls' := (controls s ++ [new_row emotion intensity])%list in
    mkState controls'
      (if (MAX_EMOTIONS <=? length controls')%nat then true
       else addEmotionBtn_disabled s).

(** [applyEmotionPreset(emotions)] *)
Definition applyEmotionPreset (emotions : list EmotionControl) (s : state)
  : state :=
  let cleared := mkState [] false in
  if (0 <? length emotions)%nat then
    foldl (fun s p => addEmotionControl (emotion p) (intensity p) s)
          cleared emotions
  else addEmotionControl "neutral" 50 cleared.

(** The click on the remove button of row [i]. *)
Definition removeControl (i : nat) (s : state) : state :=
  match controls s !! i with
  | Some _ => mkState (delete i (controls s)) false
  | None => s
  end.

(** The user moves the slider of row [i], or picks an emotion in it. *)
Definition sliderInput (i : nat) (value : Z) (s : state) : state :=
  mkState (alter (fun c => mkEmotion (emotion c) value) i (controls s))
    (addEmotionBtn_disabled s).

Definition selectChange (i : nat) (value : string) (s : state) : state :=
  mkState (alter (fun c => mkEmotion value (intensity c)) i (controls s))
    (addEmotionBtn_disabled s).

Inductive event : Type :=
| AddClick
| RemoveClick (i : nat)
| SliderInput (i : nat) (value : Z)
| SelectChange (i : nat) (value : string)
| ApplyPreset (emotions : list EmotionControl).

Definition step (s : state) (e : event) : state :=
  match e with
  | AddClick => addEmotionControl "neutral" 50 s
  | RemoveClick i => removeControl i s
  | SliderInput i value => sliderInput i value s
  | SelectChange i value => selectChange i value s
  | ApplyPreset emotions => applyEmotionPreset emotions s
  end.

Definition run (events : list event) (s : state) : state :=
  foldl step s events.

End Markup.

(** The lab holds at most [MAX_EMOTIONS] rows and the add button is
    disabled exactly when it is full. *)
Definition consistent (s : state) : Prop :=
  (length (controls s) <= MAX_EMOTIONS)%nat /\
  (addEmotionBtn_disabled s = true <->
   length (controls s) = MAX_EMOTIONS).

(** *** The colour of a blend *)

Definition emotionColorMap : gmap string (Z * Z * Z) :=
  list_to_map
    [("joyful", (255, 215, 0)%Z); ("amused", (255, 165, 0)%Z);
     ("excited", (255, 140, 0)%Z); ("enthusiastic", (255, 105, 180)%Z);
     ("confident", (30, 144, 255)%Z); ("hopeful", (144, 238, 144)%Z);
     ("calm", (173, 216, 230)%Z); ("playful", (255, 182, 193)%Z);
     ("proud", (218, 165, 32)%Z); ("sad", (70, 130, 180)%Z);
     ("angry", (220, 20, 60)%Z); ("fearful", (138, 43, 226)%Z);
     ("concerned", (100, 149, 237)%Z);
     ("disappointed", (128, 128, 128)%Z); ("anxious", (255, 69, 0)%Z);
     ("annoyed", (255, 99, 71)%Z); ("sarcastic", (128, 0, 128)%Z);
     ("surprised", (0, 255, 255)%Z); ("suspenseful", (47, 79, 79)%Z);
     ("skeptical", (106, 90, 205)%Z); ("thoughtful", (72, 61, 139)%Z);
     ("whisper", (211, 211, 211)%Z); ("authoritative", (0, 0, 139)%Z);
     ("cinematic", (25, 25, 112)%Z)].

(** The accumulators of [calculateEmotionColor]; [None] stands for
    [NaN]. *)
Record sums : Type := mkSums {
  r : option Z;
  g : option Z;
  b : option Z;
  totalIntensity : Z
}.

(** [sum += component * intensity]; a component that is [undefined]
    makes the sum [NaN], and [NaN] it stays. *)
Definition accumulate (sum component : option Z) (intensity : Z)
  : option Z :=
  match sum, component with
  | Some s, Some c => Some (s + c * intensity)%Z
  | _, _ => None
  end.

(** An entry counts when its emotion is not neutral and its intensity is
    positive. *)
Definition counts (e : EmotionControl) : bool :=
  negb (String.eqb (emotion e) "neutral") && (0 <? intensity e)%Z.

(** One turn of its [forEach].  An inherited value is truthy and has no
    elements: [color[0]], [color[1]] and [color[2]] are [undefined]. *)
Definition add_color (acc : sums) (e : EmotionControl) : sums :=
  if negb (String.eqb (emotion e) "neutral") && (0 <? intensity e)%Z then
    match Obj.get emotionColorMap (emotion e) with
    | Obj.Own (cr, cg, cb) =>
        mkSums (accumulate (r acc) (Some cr) (intensity e))
          (accumulate (g acc) (Some cg) (intensity e))
          (accumulate (b acc) (Some cb) (intensity e))
          (totalIntensity acc + intensity e)
    | Obj.Inherited =>
        mkSums (accumulate (r acc) None (intensity e))
          (accumulate (g acc) None (intensity e))
          (accumulate (b acc) None (intensity e))
          (totalIntensity acc + intensity e)
    | Obj.Absent => acc
    end
  else acc.

(** [Math.round(a / b)] for integers [a] and [b > 0]: the quotient
    rounded to the nearest integer, a half upward.  The float division
    rounds the quotient first; a quotient of integers that is not a
    half-integer stays at least [1 / (2 b)] away from the nearest one, so
    for sums below [2^45] the rounding cannot carry it across and the
    rational quotient gives the machine result. *)
Definition round_div (a b : Z) : Z :=
  Qfloor (inject_Z a / inject_Z b + (1 # 2)).

(** [Math.round(sum / totalIntensity)] as the template prints it. *)
Definition component_text (sum : option Z) (totalIntensity : Z) : string :=
  match sum with
  | Some s => pretty (round_div s totalIntensity)
  | None => "NaN"
  end.

(** [calculateEmotionColor(emotions)].  The intensities are integers
    (what [parseInt] returns; [NaN] fails the test [intensity > 0] like
    any number that is not positive), so the sums are exact. *)
Definition calculateEmotionColor (emotions : list EmotionControl)
  : string :=
  let acc := foldl add_color (mkSums (Some 0) (Some 0) (Some 0) 0)%Z
                   emotions in
  if (0 <? totalIntensity acc)%Z then
    "rgb(" +:+ component_text (r acc) (totalIntensity acc) +:+ ", "
    +:+ component_text (g acc) (totalIntensity acc) +:+ ", "
    +:+ component_text (b acc) (totalIntensity acc) +:+ ")"
  else "var(--border-color)".

(** An [rgb(...)] colour of three integers. *)
Definition rgb (red green blue : Z) : string :=
  "rgb(" +:+ pretty red +:+ ", " +:+ pretty green +:+ ", "
  +:+ pretty blue +:+ ")".

(** The colour the table itself gives an entry that counts. *)
Definition tint (e : EmotionControl) : option (Z * Z * Z) :=
  if counts e then emotionColorMap !! emotion e else None.

(** An entry that counts and whose emotion is the name of an inherited
    property. *)
Definition poisons (e : EmotionControl) : bool :=
  counts e && Obj.inherits (emotion e).

(** The sums within the range of weighted bytes. *)
Definition bounded (acc : sums) : Prop :=
  exists red green blue : Z,
    r acc = Some red /\ g acc = Some green /\ b acc = Some blue /\
    (0 <= totalIntensity acc /\
     0 <= red <= 255 * totalIntensity acc /\
     0 <= green <= 255 * totalIntensity acc /\
     0 <= blue <= 255 * totalIntensity acc)%Z.

(** *** Saved blends *)

Record CustomEmotionPreset : Type := mkPreset {
  name : string;
  emotions : list EmotionControl
}.

(** How [saveCurrentEmotionBlend] ends: with one of its three alerts and
    nothing saved, or with the blend saved. *)
Inductive save_outcome : Type :=
| NameMissing
| NameTaken
| BlendEmpty
| Saved.

Section Blends.

(** [String.prototype.toLowerCase] *)
Variable toLowerCase : string -> string.

(** [saveCurrentEmotionBlend()], [input] being the text of the name
    field and [controls] the rows of the lab. *)
Definition saveCurrentEmotionBlend (input : string)
    (controls : list EmotionControl)
    (customEmotionPresets : list CustomEmotionPreset)
  : list CustomEmotionPreset * save_outcome :=
  let name' := Str.trim input in
  if Str.falsy name' then (customEmotionPresets, NameMissing)
  else if existsb (fun p =>
                     String.eqb (toLowerCase (name p)) (toLowerCase name'))
                  customEmotionPresets
  then (customEmotionPresets, NameTaken)
  else if (length controls =? 0)%nat
          || forallb (fun e => String.eqb (emotion e) "neutral") controls
  then (customEmotionPresets, BlendEmpty)
  else ((customEmotionPresets ++ [mkPreset name' controls])%list, Saved).

(** The delete button of the blend called [deleted], once confirmed. *)
Definition deleteBlend (deleted : string)
    (customEmotionPresets : list CustomEmotionPreset)
  : list CustomEmotionPreset :=
  filter (fun p => name p <> deleted) customEmotionPresets.

Inductive blend_event : Type :=
| Save (input : string) (controls : list EmotionControl)
| Delete (deleted : string).

Definition blend_step (presets : list CustomEmotionPreset)
    (e : blend_event) : list CustomEmotionPreset :=
  match e with
  | Save input controls =>
      fst (saveCurrentEmotionBlend input controls presets)
  | Delete deleted => deleteBlend deleted presets
  end.

(** Saved blends in good order: no two names that agree up to case, no
    empty name, and in every blend an emotion that is not neutral. *)
Definition tidy (presets : list CustomEmotionPreset) : Prop :=
  NoDup (map (fun p => toLowerCase (name p)) presets) /\
  Forall (fun p =>
            name p <> "" /\
            Exists (fun e => emotion e <> "neutral") (emotions p))
         presets.

End Blends.

End EmotionLab.

(** ** The MP3 worker *)

Module Mp3Worker.

Local Open Scope Z_scope.

(** [samples[i] = s < 0 ? s * 0x8000 : s * 0x7FFF] on the clamped
    sample; the store into the [Int16Array] converts to 16 bits. *)
Definition to_int16 (x : num) : Z :=
  JS.ToInt16 (Pcm.scale16 (Pcm.clamp x)).

Definition sampleBlockSize : nat := 1152.

(** [samples.subarray(i, i + sampleBlockSize)] *)
Definition subarray (samples : list Z) (first last : nat) : list Z :=
  take (last - first) (drop first samples).

(** Chunks that cover a list of samples, in order: none is empty, none
    is longer than a block, and only the last can be shorter. *)
Definition blocks_of (samples : list Z) (cs : list (list Z)) : Prop :=
  concat cs = samples /\
  Forall (fun c => (0 < length c <= sampleBlockSize)%nat) cs /\
  (forall j c, cs !! j = Some c -> (S j < length cs)%nat ->
               length c = sampleBlockSize).

Section Encoder.

(** The [lamejs] encoder: a state, [encodeBuffer] and [flush]. *)
Variable Mp3Encoder : Type.
Variable encodeBuffer : Mp3Encoder -> list Z -> Mp3Encoder * list byte.
Variable flush : Mp3Encoder -> list byte.

(** What the loop carries: the encoder, [mp3Data], and (for the record
    only) the chunks handed to the encoder so far. *)
Record progress : Type := mkProgress {
  mp3encoder : Mp3Encoder;
  mp3Data : list (list byte);
  chunks : list (list Z)
}.

(** [mp3Data.push(mp3buf)] when the buffer is not empty. *)
Definition push_buffer (mp3Data : list (list byte)) (mp3buf : list byte)
  : list (list byte) :=
  if (0 <? length mp3buf)%nat then (mp3Data ++ [mp3buf])%list else mp3Data.

(** [for (let i = 0; i < samples.length; i += sampleBlockSize)], from
    [i] on; [None] stands for a loop still running when the fuel is
    spent. *)
Fixpoint encode_blocks (fuel : nat) (samples : list Z) (i : nat)
    (p : progress) : option progress :=
  match fuel with
  | O => None
  | S fuel' =>
      if (i <? length samples)%nat then
        let sampleChunk := subarray samples i (i + sampleBlockSize) in
        let '(encoder, mp3buf) := encodeBuffer (mp3encoder p) sampleChunk in
        encode_blocks fuel' samples (i + sampleBlockSize)
          (mkProgress encoder (push_buffer (mp3Data p) mp3buf)
             (chunks p ++ [sampleChunk])%list)
      else Some p
  end.

(** The worker's [onmessage]: the content of the blob it posts back and
    the chunks the encoder was given.  [i] grows in every turn, so
    [length + 1] turns are enough. *)
Definition onmessage (fresh : Mp3Encoder) (pcmFloat32 : list num)
  : option (list byte * list (list Z)) :=
  let samples := map to_int16 pcmFloat32 in
  match encode_blocks (S (length samples)) samples 0
          (mkProgress fresh [] []) with
  | Some p =>
      let mp3Data := push_buffer (mp3Data p) (flush (mp3encoder p)) in
      Some (concat mp3Data, chunks p)
  | None => None
  end.

(** The buffers the encoder returns for a list of chunks, in order, and
    the encoder they leave. *)
Fixpoint encoded (encoder : Mp3Encoder) (blocks : list (list Z))
  : Mp3Encoder * list byte :=
  match blocks with
  | [] => (encoder, [])
  | block :: rest =>
      let '(encoder', mp3buf) := encodeBuffer encoder block in
      let '(final, more) := encoded encoder' rest in
      (final, (mp3buf ++ more)%list)
  end.

End Encoder.

End Mp3Worker.

(** ** The Audio Lab and the MP3 export *)

Module AudioLab.

Local Open Scope string_scope.

(** The controls [applyAudioLabEffects] reads. *)
Record Controls : Type := mkControls {
  bgmSelect : string;
  bassBoostToggle : bool;
  distortionToggle : bool;
  telephoneToggle : bool;
  echoToggle : bool;
  reverbToggle : bool;
  radioStaticToggle : bool
}.

Definition hasEffects (lab : Controls) : bool :=
  bassBoostToggle lab || distortionToggle lab || telephoneToggle lab
  || echoToggle lab || reverbToggle lab.

Section Rendering.

(** The three offline renderings of the Web Audio graph: the mix with
    the background music fetched from a URL, the effects chain, and the
    mix with radio static. *)
Variable mixBackground : string -> AudioBuffer -> result AudioBuffer.
Variable renderEffects : Controls -> AudioBuffer -> result AudioBuffer.
Variable mixStatic : AudioBuffer -> result AudioBuffer.

(** [applyAudioLabEffects(inputBuffer)] *)
Definition applyAudioLabEffects (lab : Controls) (inputBuffer : AudioBuffer)
  : result AudioBuffer :=
  let currentBuffer := inputBuffer in
  currentBuffer ←
    (if negb (String.eqb (bgmSelect lab) "none")
     then mixBackground (bgmSelect lab) currentBuffer
     else Ok currentBuffer);
  currentBuffer ←
    (if hasEffects lab then renderEffects lab currentBuffer
     else Ok currentBuffer);
  if radioStaticToggle lab then mixStatic currentBuffer
  else Ok currentBuffer.

(** The samples [downloadMp3] posts to the worker:
    [processedBuffer.getChannelData(0).slice(0)]. *)
Definition posted_pcm (lab : Controls) (finalAudioBuffer : AudioBuffer)
  : result (list num) :=
  processedBuffer ← applyAudioLabEffects lab finalAudioBuffer;
  Ok (JS.getChannelData processedBuffer 0).

End Rendering.

(** No background music and every effect switched off. *)
Definition plain (lab : Controls) : Prop :=
  bgmSelect lab = "none" /\ hasEffects lab = false /\
  radioStaticToggle lab = false.

End AudioLab.


(** * Properties *)

(** ** Numbers and bytes *)

Module JSFacts.

Local Open Scope Z_scope.

Lemma Z_of_byte_range (b : byte) : 0 <= JS.Z_of_byte b < 256.
Proof.
  unfold JS.Z_of_byte. pose proof (Byte.to_N_bounded b). lia.
Qed.

Lemma byte_of_Z_of_byte (b : byte) : JS.byte_of_Z (JS.Z_of_byte b) = b.
Proof.
  unfold JS.byte_of_Z. pose proof (Z_of_byte_range b) as Hb.
  rewrite Z.mod_small by lia. unfold JS.Z_of_byte.
  rewrite N2Z.id, Byte.of_to_N. reflexivity.
Qed.

Lemma byte_of_Z_mod (z : Z) : JS.byte_of_Z (z mod 256) = JS.byte_of_Z z.
Proof. unfold JS.byte_of_Z. rewrite Z.mod_mod by lia. reflexivity. Qed.

Lemma byte_of_Z_congr (a b : Z) :
  a mod 256 = b mod 256 -> JS.byte_of_Z a = JS.byte_of_Z b.
Proof. intros H. unfold JS.byte_of_Z. rewrite H. reflexivity. Qed.

Lemma Z_of_byte_of_Z (z : Z) : JS.Z_of_byte (JS.byte_of_Z z) = z mod 256.
Proof.
  unfold JS.Z_of_byte, JS.byte_of_Z.
  pose proof (Z.mod_pos_bound z 256 ltac:(lia)) as Hm.
  destruct (Byte.of_N (Z.to_N (z mod 256))) as [b|] eqn:E.
  - apply Byte.to_of_N in E. rewrite E. lia.
  - apply Byte.of_N_None_iff in E. lia.
Qed.

Lemma int16_of_bytes_range (lo hi : byte) :
  -32768 <= JS.int16_of_bytes lo hi <= 32767.
Proof.
  unfold JS.int16_of_bytes.
  pose proof (Z_of_byte_range lo). pose proof (Z_of_byte_range hi).
  destruct (Z.ltb_spec (JS.Z_of_byte lo + 256 * JS.Z_of_byte hi) 32768); lia.
Qed.

(** Storing a sample read from two bytes gives the two bytes back. *)
Lemma le16_int16_of_bytes (lo hi : byte) :
  JS.le16 (JS.int16_of_bytes lo hi) = [lo; hi].
Proof.
  unfold JS.le16, JS.int16_of_bytes.
  pose proof (Z_of_byte_range lo) as Hl. pose proof (Z_of_byte_range hi) as Hh.
  set (l := JS.Z_of_byte lo) in *. set (h := JS.Z_of_byte hi) in *.
  assert (E1 : forall v, v = l + 256 * h \/ v = l + 256 * h - 65536 ->
               JS.byte_of_Z v = lo /\ JS.byte_of_Z (v / 256) = hi).
  { intros v Hv. split.
    - rewrite <- (byte_of_Z_of_byte lo). apply byte_of_Z_congr. fold l.
      destruct Hv; subst v; Z.to_euclidean_division_equations; lia.
    - rewrite <- (byte_of_Z_of_byte hi). apply byte_of_Z_congr. fold h.
      destruct Hv; subst v; Z.to_euclidean_division_equations; lia. }
  destruct (l + 256 * h <? 32768);
    [destruct (E1 (l + 256 * h)) as [-> ->]
    |destruct (E1 (l + 256 * h - 65536)) as [-> ->]]; auto.
Qed.

Lemma length_le16 (v : Z) : length (JS.le16 v) = 2%nat.
Proof. reflexivity. Qed.

Lemma length_le32 (v : Z) : length (JS.le32 v) = 4%nat.
Proof. reflexivity. Qed.

(** A value that already fits is left alone by the conversion. *)
Lemma ToInt16_truncate (q : Q) :
  -32768 <= JS.truncate q <= 32767 ->
  JS.ToInt16 (Fin q) = JS.truncate q.
Proof.
  intros H. unfold JS.ToInt16, JS.ToInt, JS.ToUint.
  change (2 ^ 16) with 65536. change (2 ^ (16 - 1)) with 32768.
  destruct (Z.ltb_spec (JS.truncate q mod 65536) 32768);
    Z.to_euclidean_division_equations; lia.
Qed.

Lemma ToInt32_truncate (q : Q) :
  -2147483648 <= JS.truncate q <= 2147483647 ->
  JS.ToInt32 (Fin q) = JS.truncate q.
Proof.
  intros H. unfold JS.ToInt32, JS.ToInt, JS.ToUint.
  change (2 ^ 32) with 4294967296. change (2 ^ (32 - 1)) with 2147483648.
  destruct (Z.ltb_spec (JS.truncate q mod 4294967296) 2147483648);
    Z.to_euclidean_division_equations; lia.
Qed.

Lemma truncate_inject_Z (z : Z) : JS.truncate (inject_Z z) = z.
Proof. unfold JS.truncate. simpl. apply Z.quot_1_r. Qed.

(** Writing inside the view replaces exactly the addressed bytes. *)
Lemma store_app (pre mid post bs : list byte) :
  length mid = length bs ->
  JS.store (pre ++ mid ++ post) (length pre) bs = Ok (pre ++ bs ++ post).
Proof.
  intros Hlen. unfold JS.store.
  rewrite !length_app, Hlen.
  destruct (Nat.leb_spec (length pre + length bs)
              (length pre + (length bs + length post))); [|lia].
  rewrite take_app_length.
  rewrite drop_app_add'; [|reflexivity].
  rewrite <- Hlen, drop_app_length. reflexivity.
Qed.

Lemma store_length (view : list byte) (pos : nat) (bs view' : list byte) :
  JS.store view pos bs = Ok view' -> length view' = length view.
Proof.
  unfold JS.store.
  destruct (Nat.leb_spec (pos + length bs) (length view)); [|discriminate].
  intros [= <-]. rewrite !length_app, length_take, length_drop. lia.
Qed.

End JSFacts.

(** ** The PCM codec *)

Module PcmFacts.

Import Pcm.
Local Open Scope Z_scope.

(** *** Sample conversions *)

Lemma Qltb_spec (p q : Q) : reflect (p < q)%Q (Qltb p q).
Proof.
  unfold Qltb. destruct (p ?= q)%Q eqn:E; constructor;
    rewrite Qlt_alt; congruence.
Qed.

Lemma clamp_Fin (q : Q) : clamp (Fin q) = Fin (clampQ q).
Proof.
  unfold clamp, clampQ, JS.Math_max, JS.Math_min, JS.of_Z, JS.ltb, Qltb.
  destruct (q ?= inject_Z 1)%Q; simpl;
    try reflexivity; destruct (inject_Z (-1) ?= q)%Q; reflexivity.
Qed.

Lemma clamp_NaN : clamp NaN = NaN.
Proof. reflexivity. Qed.

Lemma clamp_PosInf : clamp PosInf = Fin (inject_Z 1).
Proof. reflexivity. Qed.

Lemma clamp_NegInf : clamp NegInf = Fin (inject_Z (-1)).
Proof. reflexivity. Qed.

Lemma clampQ_range (q : Q) : (inject_Z (-1) <= clampQ q <= inject_Z 1)%Q.
Proof.
  unfold clampQ.
  destruct (Qltb_spec q (inject_Z 1)) as [H1|H1];
    [destruct (Qltb_spec (inject_Z (-1)) q) as [H2|H2]|]; simpl.
  - split; apply Qlt_le_weak; assumption.
  - split; [apply Qle_refl|discriminate].
  - split; [discriminate|apply Qle_refl].
Qed.

Lemma clampQ_id (q : Q) :
  (inject_Z (-1) <= q <= inject_Z 1)%Q -> (clampQ q == q)%Q.
Proof.
  intros [Hl Hu]. unfold clampQ.
  destruct (Qltb_spec q (inject_Z 1)) as [H1|H1].
  - destruct (Qltb_spec (inject_Z (-1)) q) as [H2|H2]; [reflexivity|].
    apply Qle_antisym; [exact Hl|]. apply Qnot_lt_le. exact H2.
  - assert (q == inject_Z 1)%Q as E
      by (apply Qle_antisym; [exact Hu|apply Qnot_lt_le; exact H1]).
    simpl. symmetry. exact E.
Qed.

(** The integer part depends on the value only, not on the fraction
    that denotes it. *)
Lemma truncate_Qeq (p q : Q) : (p == q)%Q -> JS.truncate p = JS.truncate q.
Proof.
  destruct p as [n d], q as [m e]. unfold Qeq, JS.truncate. simpl. intros H.
  rewrite <- (Z.quot_mul_cancel_r n (Z.pos d) (Z.pos e)) by lia.
  rewrite H, (Z.mul_comm (Z.pos d)).
  apply Z.quot_mul_cancel_r; lia.
Qed.

Lemma truncate_scale_range (s : Q) (k : Z) :
  0 < k -> (inject_Z (-1) <= s <= inject_Z 1)%Q ->
  - k <= JS.truncate (s * inject_Z k) <= k.
Proof.
  destruct s as [n d]. unfold Qle, JS.truncate. simpl. intros Hk [Hl Hu].
  rewrite Pos.mul_1_r.
  assert (Hd : 0 < Z.pos d) by lia.
  pose proof (Z.quot_rem' (n * k) (Z.pos d)) as E.
  pose proof (Z.rem_bound_abs (n * k) (Z.pos d) ltac:(lia)) as Hr.
  destruct (Z_le_gt_dec 0 n) as [Hn|Hn].
  - assert (0 <= n * k) as Hnk by (apply Z.mul_nonneg_nonneg; lia).
    pose proof (Z.rem_bound_pos (n * k) (Z.pos d) Hnk Hd). nia.
  - assert (n * k <= 0) as Hnk by (apply Z.mul_nonpos_nonneg; lia).
    pose proof (Z.rem_nonpos (n * k) (Z.pos d) ltac:(lia) Hnk). nia.
Qed.

Lemma truncate_scale_nonpos (s : Q) (k : Z) :
  0 < k -> (s < inject_Z 0)%Q -> JS.truncate (s * inject_Z k) <= 0.
Proof.
  destruct s as [n d]. unfold Qlt, JS.truncate. simpl. intros Hk Hs.
  rewrite Pos.mul_1_r.
  assert (n * k <= 0) as Hnk by (apply Z.mul_nonpos_nonneg; lia).
  pose proof (Z.quot_rem' (n * k) (Z.pos d)) as E.
  pose proof (Z.rem_bound_abs (n * k) (Z.pos d) ltac:(lia)) as Hr.
  pose proof (Z.rem_nonpos (n * k) (Z.pos d) ltac:(lia) Hnk). nia.
Qed.

Lemma ltb_Fin (p q : Q) : JS.ltb (Fin p) (Fin q) = Qltb p q.
Proof. reflexivity. Qed.

(** [floatTo16BitPCM] stores the integer part of the scaled clamped
    sample: the conversion of [setInt16] never wraps. *)
Lemma scale16_spec (x : num) :
  JS.ToInt16 (scale16 (clamp x)) = spec_sample x /\
  -32768 <= spec_sample x <= 32767.
Proof.
  unfold spec_sample.
  destruct x as [| | |q];
    [vm_compute; repeat split; try reflexivity; discriminate ..|].
  rewrite clamp_Fin. pose proof (clampQ_range q) as Hr.
  unfold scale16, JS.of_Z. rewrite ltb_Fin.
  destruct (Qltb_spec (clampQ q) (inject_Z 0)) as [Hneg|Hpos]; simpl.
  - pose proof (truncate_scale_range (clampQ q) 32768 ltac:(lia) Hr) as Ht.
    pose proof (truncate_scale_nonpos (clampQ q) 32768 ltac:(lia) Hneg).
    split; [apply JSFacts.ToInt16_truncate|]; lia.
  - pose proof (truncate_scale_range (clampQ q) 32767 ltac:(lia) Hr) as Ht.
    split; [apply JSFacts.ToInt16_truncate|]; lia.
Qed.

(** Every sample [bufferToWave] produces is an integer of the 16-bit
    range, so the [setInt16] that follows stores it unchanged. *)
Lemma wave_sample_range (x : num) :
  exists z, wave_sample x = JS.of_Z z /\ -32768 <= z <= 32767.
Proof.
  unfold wave_sample. eexists. split; [reflexivity|].
  destruct x as [| | |q]; [vm_compute; split; discriminate ..|].
  rewrite clamp_Fin. pose proof (clampQ_range q) as Hr.
  unfold JS.of_Z, JS.add. rewrite ltb_Fin.
  destruct (Qltb_spec ((1 # 2) + clampQ q) (inject_Z 0)) as [Hneg|Hpos];
    simpl.
  - pose proof (truncate_scale_range (clampQ q) 32768 ltac:(lia) Hr) as Ht.
    assert (clampQ q < inject_Z 0)%Q as Hs.
    { apply Qlt_trans with ((1 # 2) + clampQ q)%Q; [|exact Hneg].
      rewrite <- (Qplus_0_l (clampQ q)) at 1.
      apply Qplus_lt_l. reflexivity. }
    pose proof (truncate_scale_nonpos (clampQ q) 32768 ltac:(lia) Hs).
    rewrite JSFacts.ToInt32_truncate; lia.
  - pose proof (truncate_scale_range (clampQ q) 32767 ltac:(lia) Hr) as Ht.
    rewrite JSFacts.ToInt32_truncate; lia.
Qed.

(** *** One decode/encode round on a sample *)

Lemma pcm_float_Fin (v : Z) :
  exists q, pcm_float v = Fin q /\ (q == v # 32768)%Q.
Proof.
  unfold pcm_float, JS.div, JS.of_Z. simpl.
  eexists. split; [reflexivity|].
  unfold Qeq, Qdiv, Qmult, Qinv. simpl. lia.
Qed.

Lemma requantize_spec (v : Z) :
  -32768 <= v <= 32767 ->
  JS.ToInt16 (scale16 (clamp (pcm_float v))) = requantize v.
Proof.
  intros Hv. destruct (scale16_spec (pcm_float v)) as [-> _].
  destruct (pcm_float_Fin v) as (q & -> & Hq).
  unfold spec_sample. rewrite clamp_Fin.
  assert (clampQ q == v # 32768)%Q as Hc.
  { rewrite clampQ_id; [exact Hq|]. rewrite Hq.
    unfold Qle. simpl. lia. }
  unfold JS.of_Z. rewrite ltb_Fin. unfold requantize.
  destruct (Qltb_spec (clampQ q) (inject_Z 0)) as [Hneg|Hpos].
  - rewrite Hc in Hneg. unfold Qlt in Hneg. simpl in Hneg.
    destruct (Z.ltb_spec 0 v); [lia|].
    rewrite (truncate_Qeq _ (inject_Z v)).
    + apply JSFacts.truncate_inject_Z.
    + rewrite Hc. unfold Qeq. simpl. lia.
  - rewrite Hc in Hpos. unfold Qlt in Hpos. simpl in Hpos.
    rewrite (truncate_Qeq _ (v * 32767 # 32768))
      by (rewrite Hc; unfold Qeq; simpl; lia).
    unfold JS.truncate. simpl.
    destruct (Z.ltb_spec 0 v).
    + rewrite Z.quot_div_nonneg by lia.
      symmetry. apply (Z.div_unique _ _ _ (32768 - v)); lia.
    + assert (v = 0) by lia. subst v. reflexivity.
Qed.

(** *** The encoder loop *)

Lemma floatTo16BitPCM_spec (input : list num) :
  forall pre mid post : list byte,
    length mid = (2 * length input)%nat ->
    floatTo16BitPCM (pre ++ mid ++ post) (length pre) input
    = Ok (pre ++ bytes_of_samples (map spec_sample input) ++ post).
Proof.
  induction input as [|x rest IH]; intros pre mid post Hlen.
  - destruct mid; [reflexivity|discriminate].
  - destruct mid as [|m1 [|m2 mid]]; simpl in Hlen; try lia.
    cbn [floatTo16BitPCM]. unfold JS.setInt16.
    change (pre ++ m1 :: m2 :: mid ++ post)
      with (pre ++ [m1; m2] ++ (mid ++ post)).
    rewrite (JSFacts.store_app pre [m1; m2] (mid ++ post)) by reflexivity.
    cbn [mbind result_bind JS.bind].
    destruct (scale16_spec x) as [-> _].
    replace (length pre + 2)%nat
      with (length (pre ++ JS.le16 (spec_sample x)))
      by (rewrite length_app; reflexivity).
    rewrite (app_assoc pre (JS.le16 _)).
    rewrite IH by lia.
    unfold bytes_of_samples. cbn [map concat].
    rewrite <- !app_assoc. reflexivity.
Qed.

Lemma encode_channel_spec (input : list num) :
  encode_channel input = Ok (bytes_of_samples (map spec_sample input)).
Proof.
  unfold encode_channel.
  pose proof (floatTo16BitPCM_spec input []
                (replicate (2 * length input) x00) []) as H.
  rewrite !app_nil_r in H. simpl in H. apply H.
  apply length_replicate.
Qed.

(** *** The 16-bit view of a byte array *)

Lemma pairs_ind (P : list byte -> Prop) :
  P [] -> (forall b, P [b]) ->
  (forall lo hi rest, P rest -> P (lo :: hi :: rest)) ->
  forall l, P l.
Proof.
  intros H0 H1 H2.
  assert (forall l, P l /\ forall b, P (b :: l)) as H.
  { induction l as [|a l [IH1 IH2]]; split; auto. }
  intros l. apply H.
Qed.

Lemma length_int16_pairs (data : list byte) :
  length (JS.int16_pairs data) = (length data / 2)%nat.
Proof.
  induction data as [| b | lo hi rest IH] using pairs_ind;
    [reflexivity..|].
  cbn [JS.int16_pairs length]. rewrite IH.
  change (S (S (length rest))) with (1 * 2 + length rest)%nat.
  rewrite Nat.add_comm, Nat.div_add by lia. lia.
Qed.

Lemma bytes_of_int16_pairs (data : list byte) :
  Nat.even (length data) = true ->
  bytes_of_samples (JS.int16_pairs data) = data.
Proof.
  induction data as [| b | lo hi rest IH] using pairs_ind;
    [reflexivity|discriminate|].
  intros He. cbn [JS.int16_pairs]. unfold bytes_of_samples in *.
  cbn [map concat]. rewrite JSFacts.le16_int16_of_bytes.
  rewrite IH by exact He. reflexivity.
Qed.

Lemma int16_pairs_range (data : list byte) :
  Forall (fun v => -32768 <= v <= 32767) (JS.int16_pairs data).
Proof.
  induction data as [| b | lo hi rest IH] using pairs_ind;
    [constructor..|].
  constructor; [apply JSFacts.int16_of_bytes_range|exact IH].
Qed.

(** *** The decoder loops *)

(** [upto] lists exactly the indices that pass the loop test. *)
Lemma elem_of_upto (q : Q) (i : nat) :
  i ∈ upto (Fin q) <-> JS.ltb (JS.of_nat i) (Fin q) = true.
Proof.
  unfold upto, JS.of_nat, JS.of_Z. rewrite ltb_Fin, elem_of_seq.
  destruct (Qltb_spec (inject_Z (Z.of_nat i)) q) as [Hlt|Hge].
  - split; [reflexivity|]. intros _.
    assert (Z.of_nat i < Qceiling q).
    { rewrite Zlt_Qlt. eapply Qlt_le_trans; [exact Hlt|apply Qle_ceiling]. }
    lia.
  - split; [|discriminate]. intros [_ Hi]. exfalso. apply Hge.
    eapply Qle_lt_trans; [|apply Qceiling_lt].
    rewrite <- Zle_Qle. lia.
Qed.

(** A counting loop that writes [f i] at every index [i < C] of an
    array: indices past the end write nothing. *)
Lemma foldl_insert_seq {A} (f : nat -> A) (l : list A) (C : nat) :
  foldl (fun d i => <[i := f i]> d) l (seq 0 C)
  = map f (seq 0 (Nat.min C (length l))) ++ drop C l.
Proof.
  induction C as [|C IH]; [reflexivity|].
  rewrite seq_S, foldl_app, IH. cbn [foldl Nat.add].
  destruct (Nat.lt_ge_cases C (length l)) as [Hlt|Hge].
  - rewrite (Nat.min_l C) by lia. rewrite (Nat.min_l (S C)) by lia.
    destruct (lookup_lt_is_Some_2 l C Hlt) as [x Hx].
    rewrite (drop_S l x C Hx).
    rewrite insert_app_r_alt by (rewrite length_map, length_seq; lia).
    rewrite length_map, length_seq, Nat.sub_diag.
    rewrite seq_S, map_app, <- app_assoc. reflexivity.
  - rewrite !Nat.min_r by lia.
    rewrite list_insert_ge
      by (rewrite length_app, length_map, length_seq, length_drop; lia).
    rewrite !drop_ge by lia. reflexivity.
Qed.

Lemma fill_channel_spec (samples : list Z) (nc c : nat) (fc : num)
      (l : list num) :
  (length l <= length (upto fc))%nat ->
  fill_channel samples nc c fc l
  = map (fun i => sample_at samples (i * nc + c)) (seq 0 (length l)).
Proof.
  intros Hlen. unfold fill_channel, upto in *.
  destruct fc as [| | |q]; cbn [length] in Hlen;
    try (destruct l; [reflexivity|cbn [length] in Hlen; lia]).
  rewrite length_seq in Hlen.
  rewrite (foldl_insert_seq
             (fun i => sample_at samples (i * nc + c)) l).
  rewrite Nat.min_r by lia. rewrite drop_ge by lia.
  apply app_nil_r.
Qed.

(** The frame count [dataInt16.length / numChannels] for a positive
    channel count. *)
Lemma frameCount_Fin (n nc : nat) :
  (1 <= nc)%nat ->
  exists q, JS.div (JS.of_nat n) (JS.of_nat nc) = Fin q /\
            (q == Z.of_nat n # Pos.of_nat nc)%Q.
Proof.
  intros Hnc. destruct nc as [|k]; [lia|].
  unfold JS.div, JS.of_nat, JS.of_Z. simpl.
  eexists. split; [reflexivity|].
  unfold Qeq, Qdiv, Qmult, Qinv. simpl.
  rewrite Pos.of_nat_succ. lia.
Qed.

Lemma truncate_frac (n nc : nat) :
  (1 <= nc)%nat ->
  JS.truncate (Z.of_nat n # Pos.of_nat nc) = Z.of_nat (n / nc).
Proof.
  intros Hnc. unfold JS.truncate. simpl.
  rewrite Z.quot_div_nonneg by lia.
  rewrite Nat2Z.inj_div. f_equal.
  rewrite <- positive_nat_Z, Nat2Pos.id by lia. reflexivity.
Qed.

Lemma ceiling_frac (n nc : nat) :
  (1 <= nc)%nat ->
  (n / nc <= Z.to_nat (Qceiling (Z.of_nat n # Pos.of_nat nc)))%nat.
Proof.
  intros Hnc.
  assert (Qfloor (Z.of_nat n # Pos.of_nat nc)
          <= Qceiling (Z.of_nat n # Pos.of_nat nc)) as H.
  { rewrite Zle_Qle.
    eapply Qle_trans; [apply Qfloor_le|apply Qle_ceiling]. }
  assert (Qfloor (Z.of_nat n # Pos.of_nat nc) = Z.of_nat (n / nc)) as E.
  { simpl. rewrite Nat2Z.inj_div. f_equal.
    rewrite <- positive_nat_Z, Nat2Pos.id by lia. reflexivity. }
  rewrite E in H. lia.
Qed.

(** After [k] rounds of the channel loop the first [k] channels hold
    their samples and the others are still silent. *)
Lemma channel_loop_inv (samples : list Z) (sr : Z) (nc F : nat) (fc : num)
      (k : nat) :
  (F <= length (upto fc))%nat -> (k <= nc)%nat ->
  foldl (decode_channel samples nc fc)
        (mkAudioBuffer sr (replicate nc (replicate F (Fin 0)))) (seq 0 k)
  = mkAudioBuffer sr
      (map (planar samples nc F) (seq 0 k)
       ++ replicate (nc - k) (replicate F (Fin 0))).
Proof.
  intros HF. induction k as [|k IH]; intros Hk.
  - rewrite Nat.sub_0_r. reflexivity.
  - rewrite seq_S, foldl_app, IH by lia. cbn [foldl Nat.add].
    unfold decode_channel at 1, set_channel, JS.getChannelData.
    cbn [JS.channels JS.sampleRate].
    f_equal.
    assert (length (map (planar samples nc F) (seq 0 k)) = k) as Hl
      by (rewrite length_map, length_seq; reflexivity).
    rewrite lookup_app_r by lia. rewrite Hl, Nat.sub_diag.
    replace (nc - k)%nat with (S (nc - S k)) by lia.
    cbn [replicate lookup list_lookup default].
    rewrite insert_app_r_alt by lia. rewrite Hl, Nat.sub_diag.
    cbn [insert list_insert].
    change (id ?x) with x.
    rewrite fill_channel_spec by (rewrite length_replicate; exact HF).
    rewrite length_replicate.
    rewrite map_app, <- app_assoc. reflexivity.
Qed.

(** *** The decoder *)

(** What [decodeAudioData] returns on a byte array of even length: the
    frame count is the sample count divided by the channel count and
    rounded down, and frame [i] of channel [c] is sample [i * nc + c]
    divided by 32768. *)
Lemma decodeAudioData_even (data : list byte) (sr : Z) (nc : nat) :
  Nat.even (length data) = true ->
  (1 <= nc <= 32)%nat ->
  (1 <= length data / 2 / nc)%nat ->
  Z.of_nat (length data / 2 / nc) < 2 ^ 32 ->
  JS.minSampleRate <= sr <= JS.maxSampleRate ->
  decodeAudioData data sr nc
  = Ok (mkAudioBuffer sr
          (map (planar (JS.int16_pairs data) nc (length data / 2 / nc))
               (seq 0 nc))).
Proof.
  intros He Hnc HF Hbound Hrate.
  unfold decodeAudioData, JS.Int16Array_of. rewrite He.
  cbn [mbind result_bind JS.bind].
  rewrite length_int16_pairs.
  set (n := (length data / 2)%nat) in *.
  destruct (frameCount_Fin n nc ltac:(lia)) as (q & Hq & Eq).
  rewrite Hq. unfold JS.createBuffer.
  assert (JS.ToUint32 (JS.of_nat nc) = Z.of_nat nc) as ->.
  { unfold JS.ToUint32, JS.ToUint, JS.of_nat, JS.of_Z.
    rewrite JSFacts.truncate_inject_Z. apply Z.mod_small. lia. }
  assert (JS.ToUint32 (Fin q) = Z.of_nat (n / nc)) as ->.
  { unfold JS.ToUint32, JS.ToUint.
    rewrite (truncate_Qeq _ _ Eq), truncate_frac by lia.
    apply Z.mod_small. lia. }
  unfold JS.maxChannels.
  destruct (Z.eqb_spec (Z.of_nat nc) 0); [lia|].
  destruct (Z.ltb_spec 32 (Z.of_nat nc)); [lia|].
  destruct (Z.eqb_spec (Z.of_nat (n / nc)) 0); [lia|].
  destruct (Z.ltb_spec sr JS.minSampleRate); [lia|].
  destruct (Z.ltb_spec JS.maxSampleRate sr); [lia|].
  cbn [orb mbind result_bind JS.bind]. rewrite !Nat2Z.id.
  f_equal.
  rewrite (channel_loop_inv (JS.int16_pairs data) sr nc (n / nc) (Fin q)).
  - rewrite Nat.sub_diag, app_nil_r. reflexivity.
  - unfold upto. rewrite length_seq.
    rewrite (Qceiling_comp _ _ Eq). apply ceiling_frac. lia.
  - lia.
Qed.

Lemma sample_at_defined (data : list byte) (nc c i : nat) :
  (c < nc)%nat -> (i < length data / 2 / nc)%nat ->
  exists v, JS.int16_pairs data !! (i * nc + c)%nat = Some v /\
            sample_at (JS.int16_pairs data) (i * nc + c) = pcm_float v.
Proof.
  intros Hc Hi.
  assert (i * nc + c < length (JS.int16_pairs data))%nat as Hlt.
  { rewrite length_int16_pairs.
    pose proof (Nat.Div0.mul_div_le (length data / 2) nc). nia. }
  destruct (lookup_lt_is_Some_2 _ _ Hlt) as [v Hv].
  exists v. split; [exact Hv|]. unfold sample_at. rewrite Hv. reflexivity.
Qed.

(** *** Reading back what was stored *)

Lemma int16_of_le16 (v : Z) :
  -32768 <= v <= 32767 ->
  JS.int16_of_bytes (JS.byte_of_Z v) (JS.byte_of_Z (v / 256)) = v.
Proof.
  intros Hv. unfold JS.int16_of_bytes. rewrite !JSFacts.Z_of_byte_of_Z.
  destruct (Z.ltb_spec (v mod 256 + 256 * ((v / 256) mod 256)) 32768);
    Z.to_euclidean_division_equations; lia.
Qed.

Lemma int16_pairs_bytes (l : list Z) :
  Forall (fun v => -32768 <= v <= 32767) l ->
  JS.int16_pairs (bytes_of_samples l) = l.
Proof.
  unfold bytes_of_samples.
  induction 1 as [|v l Hv _ IH]; [reflexivity|].
  cbn [map concat JS.le16 app JS.int16_pairs].
  rewrite int16_of_le16 by exact Hv. rewrite IH. reflexivity.
Qed.

Lemma requantize_range (v : Z) :
  -32768 <= v <= 32767 -> -32768 <= requantize v <= 32767.
Proof. unfold requantize. destruct (Z.ltb_spec 0 v); lia. Qed.

Lemma map_requantize_fixed (l : list Z) :
  map requantize l = l <-> Forall (fun v => v <= 0) l.
Proof.
  induction l as [|v l IH]; [split; auto|].
  cbn [map]. split.
  - intros [= Hv Hl]. constructor; [|apply IH; exact Hl].
    unfold requantize in Hv. destruct (Z.ltb_spec 0 v); lia.
  - intros H. inversion H as [|? ? Hv Hl]; subst.
    f_equal; [|apply IH; exact Hl].
    unfold requantize. destruct (Z.ltb_spec 0 v); lia.
Qed.

Lemma map_seq_lookup {A B} (l : list A) (f : nat -> B) (g : A -> B) :
  (forall i v, l !! i = Some v -> f i = g v) ->
  map f (seq 0 (length l)) = map g l.
Proof.
  intros H. apply list_eq. intros i. rewrite !list_lookup_fmap.
  destruct (l !! i) as [v|] eqn:Hv.
  - rewrite lookup_seq_lt by (eapply lookup_lt_Some; exact Hv).
    cbn. f_equal. apply H. exact Hv.
  - rewrite lookup_seq_ge by (apply lookup_ge_None_1; exact Hv).
    reflexivity.
Qed.

(** The round trip in closed form. *)
Lemma roundtrip_closed_form (b : list byte) (sr : Z) :
  Nat.even (length b) = true -> b <> [] ->
  Z.of_nat (length b / 2) < 2 ^ 32 ->
  JS.minSampleRate <= sr <= JS.maxSampleRate ->
  roundtrip b sr
  = Ok (bytes_of_samples (map requantize (JS.int16_pairs b))).
Proof.
  intros He Hne Hbound Hrate.
  assert (1 <= length b / 2)%nat as Hlen.
  { destruct b as [|b0 [|b1 rest]]; [congruence|discriminate|].
    cbn [length].
    change (S (S (length rest))) with (1 * 2 + length rest)%nat.
    rewrite Nat.add_comm, Nat.div_add by lia. lia. }
  unfold roundtrip.
  rewrite decodeAudioData_even;
    rewrite ?Nat.div_1_r; try lia; try exact He.
  cbn [mbind result_bind JS.bind seq map JS.getChannelData JS.channels
       lookup list_lookup default].
  change (id ?x) with x.
  rewrite encode_channel_spec. f_equal. f_equal.
  rewrite <- length_int16_pairs.
  pose proof (int16_pairs_range b) as Hr.
  remember (JS.int16_pairs b) as l eqn:El. clear El.
  unfold planar. rewrite map_map. apply map_seq_lookup. intros i v Hv.
  unfold sample_at. rewrite Nat.mul_1_r, Nat.add_0_r, Hv.
  destruct (scale16_spec (pcm_float v)) as [<- _].
  apply requantize_spec.
  exact (proj1 (Forall_lookup _ l) Hr i v Hv).
Qed.

(** *** The codec claims *)

(** C1, as stated, fails: the mono byte array [01 00] (the sample 1)
    decodes to [1 / 32768], which the encoder scales by 32767 and
    truncates to 0, so the bytes [00 00] come back. *)
Lemma roundtrip_loses_positive_sample :
  Nat.even (length [x01; x00]) = true /\
  roundtrip [x01; x00] 24000 = Ok [x00; x00] /\
  roundtrip [x01; x00] 24000 <> Ok [x01; x00].
Proof. repeat split. discriminate. Qed.

(** C1, amended: for every non-empty mono PCM byte array of even length
    and every sample rate the platform supports, decoding with
    [decodeAudioData] and encoding channel 0 with [floatTo16BitPCM] yields
    the bytes of the same samples with every strictly positive sample
    lowered by one; the original bytes come back exactly when no sample
    is positive. *)
Theorem roundtrip_requantizes (b : list byte) (sr : Z) :
  Nat.even (length b) = true -> b <> [] ->
  Z.of_nat (length b / 2) < 2 ^ 32 ->
  8000 <= sr <= 96000 ->
  roundtrip b sr
    = Ok (bytes_of_samples (map requantize (JS.int16_pairs b))) /\
  (roundtrip b sr = Ok b <->
   Forall (fun v => v <= 0) (JS.int16_pairs b)).
Proof.
  intros He Hne Hbound Hrate.
  rewrite (roundtrip_closed_form b sr He Hne Hbound Hrate).
  split; [reflexivity|].
  pose proof (int16_pairs_range b) as Hr.
  rewrite <- map_requantize_fixed. split.
  - intros [= H]. apply (f_equal JS.int16_pairs) in H.
    rewrite int16_pairs_bytes in H; [exact H|].
    apply Forall_fmap. eapply Forall_impl; [exact Hr|].
    intros v Hv. apply requantize_range. exact Hv.
  - intros ->. rewrite bytes_of_int16_pairs by exact He. reflexivity.
Qed.

Lemma roundtrip_requantizes_witness :
  roundtrip [xff; xff; x05; x00] 24000
    = Ok (bytes_of_samples
            (map requantize (JS.int16_pairs [xff; xff; x05; x00]))) /\
  (roundtrip [xff; xff; x05; x00] 24000 = Ok [xff; xff; x05; x00] <->
   Forall (fun v => v <= 0) (JS.int16_pairs [xff; xff; x05; x00])).
Proof.
  apply (roundtrip_requantizes [xff; xff; x05; x00] 24000).
  - reflexivity.
  - discriminate.
  - reflexivity.
  - lia.
Defined.

(** C3: in [bufferToWave] the test is [0.5 + sample < 0], so the sample
    -0.25 is scaled by 32767 and stored as -8191, where scaling negative
    samples by 32768 (what [floatTo16BitPCM] does) gives -8192. *)
Lemma wave_sample_small_negative :
  wave_sample (Fin (-1 # 4)) = JS.of_Z (-8191) /\
  spec_sample (Fin (-1 # 4)) = -8192 /\
  JS.ToInt16 (scale16 (clamp (Fin (-1 # 4)))) = -8192.
Proof. repeat split. Qed.

(** C4, as stated, fails: six bytes are no multiple of the four bytes of
    a stereo frame, and yet they decode, to one frame (1 / 32768 left,
    2 / 32768 right); the third sample is dropped. *)
Lemma decode_accepts_incomplete_frame :
  (length [x01; x00; x02; x00; x03; x00] mod (2 * 2) <> 0)%nat /\
  decodeAudioData [x01; x00; x02; x00; x03; x00] 24000 2
  = Ok (mkAudioBuffer 24000 [[Fin (1 # 32768)]; [Fin (2 # 32768)]]).
Proof. split; [discriminate|reflexivity]. Qed.

(** The bytes of a sample and its value. *)
Lemma int16_pairs_lookup (data : list byte) (k : nat) (v : Z) :
  JS.int16_pairs data !! k = Some v ->
  exists lo hi,
    data !! (2 * k)%nat = Some lo /\
    data !! (2 * k + 1)%nat = Some hi /\
    v = JS.int16_of_bytes lo hi.
Proof.
  revert k. induction data as [| |lo hi rest IH] using pairs_ind;
    intros k Hk; try discriminate.
  cbn [JS.int16_pairs] in Hk. destruct k as [|k].
  - injection Hk as <-. exists lo, hi. repeat split.
  - cbn [lookup list_lookup] in Hk.
    destruct (IH k Hk) as (lo' & hi' & Hlo & Hhi & ->).
    exists lo', hi'.
    replace (2 * S k)%nat with (S (S (2 * k))) by lia.
    replace (S (S (2 * k)) + 1)%nat with (S (S (2 * k + 1))) by lia.
    auto.
Qed.

(** C4, amended: decoding throws (a [RangeError], from the 16-bit view)
    when the byte length is odd, and (a [NotSupportedError], from
    [createBuffer]) when the length is even but holds no whole frame.
    For an even length, 1 to 32 channels, a sample rate the platform
    supports and at least one whole frame it returns a buffer of
    [numChannels] channels with [floor (sampleCount / numChannels)]
    frames each; frame [i] of channel [c] is sample [i * numChannels + c],
    that is the signed 16-bit little-endian integer of its two bytes,
    divided by 32768; samples of an incomplete last frame are dropped. *)
Theorem decodeAudioData_frames (data : list byte) (sr : Z) (nc : nat) :
  (Nat.even (length data) = false ->
   decodeAudioData data sr nc = Throw RangeError) /\
  (Nat.even (length data) = true -> (1 <= nc <= 32)%nat ->
   (length data / 2 / nc = 0)%nat ->
   decodeAudioData data sr nc = Throw NotSupportedError) /\
  (Nat.even (length data) = true -> (1 <= nc <= 32)%nat ->
   (1 <= length data / 2 / nc)%nat ->
   Z.of_nat (length data / 2 / nc) < 2 ^ 32 ->
   8000 <= sr <= 96000 ->
   exists buffer,
     decodeAudioData data sr nc = Ok buffer /\
     JS.sampleRate buffer = sr /\
     JS.numberOfChannels buffer = nc /\
     forall c, (c < nc)%nat ->
       length (JS.getChannelData buffer c) = (length data / 2 / nc)%nat /\
       forall i, (i < length data / 2 / nc)%nat ->
         exists (lo hi : byte) (q : Q),
           data !! (2 * (i * nc + c))%nat = Some lo /\
           data !! (2 * (i * nc + c) + 1)%nat = Some hi /\
           JS.getChannelData buffer c !! i = Some (Fin q) /\
           let u := Z.of_N (Byte.to_N lo) + 256 * Z.of_N (Byte.to_N hi) in
           (q == (if u <? 32768 then u else u - 65536) # 32768)%Q).
Proof.
  split; [|split].
  - intros Ho. unfold decodeAudioData, JS.Int16Array_of.
    rewrite Ho. reflexivity.
  - intros He Hnc HF.
    unfold decodeAudioData, JS.Int16Array_of. rewrite He.
    cbn [mbind result_bind JS.bind]. rewrite length_int16_pairs.
    destruct (frameCount_Fin (length data / 2) nc ltac:(lia))
      as (q & Hq & Eq).
    rewrite Hq. unfold JS.createBuffer.
    assert (JS.ToUint32 (Fin q) = 0) as ->.
    { unfold JS.ToUint32, JS.ToUint.
      rewrite (truncate_Qeq _ _ Eq), truncate_frac, HF by lia.
      reflexivity. }
    rewrite Z.eqb_refl, !orb_true_r. reflexivity.
  - intros He Hnc HF Hbound Hrate. eexists.
    split; [apply decodeAudioData_even; assumption|].
    split; [reflexivity|].
    split; [unfold JS.numberOfChannels; cbn [JS.channels];
            rewrite length_map, length_seq; reflexivity|].
    intros c Hc. unfold JS.getChannelData. cbn [JS.channels].
    rewrite list_lookup_fmap, lookup_seq_lt by exact Hc. cbn.
    unfold planar.
    split; [rewrite length_map, length_seq; reflexivity|].
    intros i Hi.
    destruct (sample_at_defined data nc c i Hc Hi) as (v & Hv & Hs).
    destruct (int16_pairs_lookup data _ v Hv) as (lo & hi & Hlo & Hhi & ->).
    destruct (pcm_float_Fin (JS.int16_of_bytes lo hi)) as (q & Hq & Eq).
    exists lo, hi, q. split; [exact Hlo|]. split; [exact Hhi|].
    split; [|exact Eq].
    rewrite list_lookup_fmap, lookup_seq_lt by exact Hi. cbn.
    f_equal. rewrite Hs. exact Hq.
Qed.

Lemma decodeAudioData_frames_witness :
  exists buffer,
    decodeAudioData [x01; x00; xfe; xff; x00; x80; xff; x7f] 24000 2
      = Ok buffer /\
    JS.sampleRate buffer = 24000 /\
    JS.numberOfChannels buffer = 2%nat /\
    forall c, (c < 2)%nat ->
      length (JS.getChannelData buffer c) = 2%nat /\
      forall i, (i < 2)%nat ->
        exists (lo hi : byte) (q : Q),
          [x01; x00; xfe; xff; x00; x80; xff; x7f]
            !! (2 * (i * 2 + c))%nat = Some lo /\
          [x01; x00; xfe; xff; x00; x80; xff; x7f]
            !! (2 * (i * 2 + c) + 1)%nat = Some hi /\
          JS.getChannelData buffer c !! i = Some (Fin q) /\
          let u := Z.of_N (Byte.to_N lo) + 256 * Z.of_N (Byte.to_N hi) in
          (q == (if u <? 32768 then u else u - 65536) # 32768)%Q.
Proof.
  apply (proj2 (proj2 (decodeAudioData_frames
           [x01; x00; xfe; xff; x00; x80; xff; x7f] 24000 2))).
  - reflexivity.
  - lia.
  - cbn. lia.
  - reflexivity.
  - lia.
Defined.

(** [floatTo16BitPCM] clamps every sample to [[-1, 1]], scales it by
    32768 when it is negative and by 32767 otherwise, and stores the
    integer part, which always lies in the 16-bit range: whatever the
    input holds ([NaN] and the infinities included), the encoder succeeds
    and no stored value wraps. *)
Theorem floatTo16BitPCM_clamps_and_scales (input : list num) :
  encode_channel input = Ok (bytes_of_samples (map spec_sample input)) /\
  Forall (fun v => -32768 <= v <= 32767) (map spec_sample input).
Proof.
  split; [apply encode_channel_spec|].
  apply Forall_fmap, Forall_forall. intros x _.
  apply (scale16_spec x).
Qed.

End PcmFacts.

(** ** The WAV writer *)

Module WavFacts.

Import Wav.
Local Open Scope Z_scope.

Lemma ToUint32_of_Z (z : Z) : JS.ToUint32 (JS.of_Z z) = z mod 2 ^ 32.
Proof.
  unfold JS.ToUint32, JS.ToUint, JS.of_Z.
  rewrite JSFacts.truncate_inject_Z. reflexivity.
Qed.

Lemma ToUint16_of_Z (z : Z) : JS.ToUint16 (JS.of_Z z) = z mod 2 ^ 16.
Proof.
  unfold JS.ToUint16, JS.ToUint, JS.of_Z.
  rewrite JSFacts.truncate_inject_Z. reflexivity.
Qed.

Lemma store_prefix (pre rest bs : list byte) :
  (length bs <= length rest)%nat ->
  JS.store (pre ++ rest) (length pre) bs
  = Ok (pre ++ bs ++ drop (length bs) rest).
Proof.
  intros H.
  rewrite <- (take_drop (length bs) rest) at 1.
  apply JSFacts.store_app. rewrite length_take. lia.
Qed.

(** *** Single writes *)

Lemma run_setUint32 (pre rest : list byte) (z : Z) :
  (4 <= length rest)%nat ->
  setUint32 (JS.of_Z z) (mkWriter (pre ++ rest) (length pre))
  = Ok (tt, mkWriter ((pre ++ JS.le32 (z mod 2 ^ 32)) ++ drop 4 rest)
              (length (pre ++ JS.le32 (z mod 2 ^ 32)))).
Proof.
  intros H. unfold setUint32, JS.setUint32. cbn [view pos].
  rewrite ToUint32_of_Z, store_prefix by exact H.
  cbn [mbind result_bind JS.bind].
  rewrite length_app, app_assoc. reflexivity.
Qed.

Lemma run_setUint16 (pre rest : list byte) (z : Z) :
  (2 <= length rest)%nat ->
  setUint16 (JS.of_Z z) (mkWriter (pre ++ rest) (length pre))
  = Ok (tt, mkWriter ((pre ++ JS.le16 (z mod 2 ^ 16)) ++ drop 2 rest)
              (length (pre ++ JS.le16 (z mod 2 ^ 16)))).
Proof.
  intros H. unfold setUint16, JS.setUint16. cbn [view pos].
  rewrite ToUint16_of_Z, store_prefix by exact H.
  cbn [mbind result_bind JS.bind].
  rewrite length_app, app_assoc. reflexivity.
Qed.

Lemma run_setInt16 (pre rest : list byte) (x : num) :
  (2 <= length rest)%nat ->
  setInt16 (Pcm.wave_sample x) (mkWriter (pre ++ rest) (length pre))
  = Ok (tt, mkWriter ((pre ++ JS.le16 (stored_sample x)) ++ drop 2 rest)
              (length (pre ++ JS.le16 (stored_sample x)))).
Proof.
  intros H. unfold setInt16, JS.setInt16. cbn [view pos].
  fold (stored_sample x).
  rewrite store_prefix by exact H.
  cbn [mbind result_bind JS.bind].
  rewrite length_app, app_assoc. reflexivity.
Qed.

(** *** The header *)

Lemma write_header_run (numOfChan : nat) (rate : Z) (n : nat) :
  write_header numOfChan rate (n + 44)
    (mkWriter (replicate (n + 44) x00) 0)
  = Ok (tt, mkWriter (header numOfChan rate (n + 44) ++ replicate n x00)
              44).
Proof.
  unfold write_header, getPos, JS.of_nat.
  change (mkWriter (replicate (n + 44) x00) 0)
    with (mkWriter ([] ++ replicate (n + 44) x00) (length (@nil byte))).
  unfold mbind, W_bind.
  do 13 (first [rewrite run_setUint32
                    by (rewrite ?length_drop, length_replicate; lia)
                 |rewrite run_setUint16
                    by (rewrite ?length_drop, length_replicate; lia)]).
  rewrite !drop_drop, drop_replicate.
  cbn [pos]. rewrite !length_app. cbn [length JS.le32 JS.le16 Nat.add].
  unfold header. rewrite <- !app_assoc. cbn [app].
  rewrite drop_replicate.
  replace (n + 44 - 44)%nat with n by lia.
  change (Z.of_nat 40) with 40.
  replace (Z.of_nat (n + 44) - 40 - 4) with (Z.of_nat (n + 44) - 44) by lia.
  reflexivity.
Qed.

(** *** The sample loops *)

Lemma length_frame_bytes (channels : list (list num)) (offset : nat) :
  length (frame_bytes channels offset) = (2 * length channels)%nat.
Proof.
  unfold frame_bytes. induction channels as [|c cs IH]; [reflexivity|].
  cbn [map concat length]. rewrite length_app, IH. cbn [length JS.le16]. lia.
Qed.

Lemma length_interleaved_from (channels : list (list num)) (n : nat) :
  forall first,
    length (interleaved_from channels first n)
    = (n * (2 * length channels))%nat.
Proof.
  unfold interleaved_from.
  induction n as [|n IH]; intros first; [reflexivity|].
  cbn [seq map concat]. rewrite length_app, length_frame_bytes, IH. lia.
Qed.

Lemma write_frame_run (channels : list (list num)) (offset : nat) :
  forall pre rest : list byte,
    (2 * length channels <= length rest)%nat ->
    write_frame channels offset (mkWriter (pre ++ rest) (length pre))
    = Ok (tt, mkWriter ((pre ++ frame_bytes channels offset)
                          ++ drop (2 * length channels) rest)
                (length (pre ++ frame_bytes channels offset))).
Proof.
  induction channels as [|c cs IH]; intros pre rest Hlen.
  - unfold frame_bytes. cbn. rewrite !app_nil_r. reflexivity.
  - cbn [length] in Hlen. cbn [write_frame].
    unfold mbind, W_bind.
    rewrite run_setInt16 by lia.
    rewrite IH by (rewrite length_drop; lia).
    rewrite drop_drop. unfold frame_bytes. cbn [map concat length].
    rewrite !app_assoc.
    replace (2 + 2 * length cs)%nat with (2 * S (length cs))%nat by lia.
    reflexivity.
Qed.

(** The [while] loop, [k] frames before the end of the view: it runs [k]
    turns and stops, whatever fuel above [k] it is given. *)
Lemma write_frames_run (channels : list (list num)) (k : nat) :
  (1 <= length channels)%nat ->
  forall (fuel offset : nat) (pre : list byte),
    (k < fuel)%nat ->
    write_frames fuel channels
      (length pre + k * (2 * length channels)) offset
      (mkWriter (pre ++ replicate (k * (2 * length channels)) x00)
         (length pre))
    = Some (Ok (mkWriter (pre ++ interleaved_from channels offset k)
                  (length pre + k * (2 * length channels)))).
Proof.
  intros Hnc. induction k as [|k IH]; intros fuel offset pre Hfuel;
    (destruct fuel as [|fuel]; [lia|]); cbn [write_frames pos].
  - rewrite Nat.add_0_r, Nat.ltb_irrefl. reflexivity.
  - destruct (Nat.ltb_spec (length pre)
                (length pre + S k * (2 * length channels))) as [_|]; [|nia].
    rewrite write_frame_run by (rewrite length_replicate; lia).
    rewrite drop_replicate.
    replace (S k * (2 * length channels) - 2 * length channels)%nat
      with (k * (2 * length channels))%nat by lia.
    replace (length pre + S k * (2 * length channels))%nat
      with (length (pre ++ frame_bytes channels offset)
            + k * (2 * length channels))%nat
      by (rewrite length_app, length_frame_bytes; lia).
    rewrite IH by lia.
    unfold interleaved_from. cbn [seq map concat].
    rewrite <- app_assoc. reflexivity.
Qed.

(** *** The writer as a whole *)

Lemma bufferToWave_fuel_spec (fuel : nat) (abuffer : AudioBuffer)
      (len : nat) :
  (1 <= JS.numberOfChannels abuffer)%nat -> (len < fuel)%nat ->
  bufferToWave_fuel fuel abuffer len
  = Some (Ok (header (JS.numberOfChannels abuffer) (JS.sampleRate abuffer)
                (len * JS.numberOfChannels abuffer * 2 + 44)
              ++ interleaved (JS.channels abuffer) len)).
Proof.
  intros Hnc Hfuel. unfold bufferToWave_fuel.
  rewrite write_header_run.
  set (h := header _ _ _).
  assert (length h = 44%nat) as Hh by reflexivity.
  unfold JS.numberOfChannels in *.
  pose proof (write_frames_run (JS.channels abuffer) len Hnc fuel 0 h Hfuel)
    as Hrun.
  rewrite Hh in Hrun.
  replace (len * length (JS.channels abuffer) * 2 + 44)%nat
    with (44 + len * (2 * length (JS.channels abuffer)))%nat by lia.
  replace (len * length (JS.channels abuffer) * 2)%nat
    with (len * (2 * length (JS.channels abuffer)))%nat by lia.
  rewrite Hrun. reflexivity.
Qed.

(** The loop never outlasts its fuel: [bufferToWave] always returns. *)
Lemma bufferToWave_total (abuffer : AudioBuffer) (len : nat) :
  exists r, bufferToWave abuffer len = Some r.
Proof.
  unfold bufferToWave.
  destruct (Nat.eq_dec (JS.numberOfChannels abuffer) 0%nat) as [H0|Hn].
  - unfold bufferToWave_fuel. rewrite H0, Nat.mul_0_r.
    change (0 * 2 + 44)%nat with (0 + 44)%nat.
    rewrite write_header_run. cbn [write_frames pos Nat.ltb Nat.leb].
    eexists. reflexivity.
  - eexists. apply bufferToWave_fuel_spec; lia.
Qed.

(** The four bytes of [le32 v] read back as [v]. *)
Lemma le32_value (v : Z) :
  0 <= v < 2 ^ 32 ->
  JS.Z_of_byte (JS.byte_of_Z v)
  + 256 * JS.Z_of_byte (JS.byte_of_Z (v / 256))
  + 65536 * (JS.Z_of_byte (JS.byte_of_Z (v / 65536))
             + 256 * JS.Z_of_byte (JS.byte_of_Z (v / 16777216))) = v.
Proof.
  intros Hv. rewrite !JSFacts.Z_of_byte_of_Z.
  change (2 ^ 32) with 4294967296 in Hv.
  replace (v / 16777216) with (v / 256 / 256 / 256)
    by (rewrite !Z.div_div by lia; reflexivity).
  replace (v / 65536) with (v / 256 / 256)
    by (rewrite !Z.div_div by lia; reflexivity).
  pose proof (Z.div_mod v 256 ltac:(lia)).
  pose proof (Z.div_mod (v / 256) 256 ltac:(lia)).
  pose proof (Z.div_mod (v / 256 / 256) 256 ltac:(lia)).
  pose proof (Z.mod_pos_bound v 256 ltac:(lia)).
  pose proof (Z.mod_pos_bound (v / 256) 256 ltac:(lia)).
  pose proof (Z.mod_pos_bound (v / 256 / 256) 256 ltac:(lia)).
  assert (0 <= v / 256 / 256 / 256 < 256) as Htop.
  { split.
    - repeat (apply Z.div_pos; [|lia]). lia.
    - repeat (apply Z.div_lt_upper_bound; [lia|]). lia. }
  rewrite (Z.mod_small (v / 256 / 256 / 256)) by lia.
  lia.
Qed.

(** *** The WAV writer claim *)

(** The element at place [j] of block [i], when all blocks have [k]
    elements. *)
Lemma lookup_concat_uniform {A} (k : nat) (blocks : list (list A)) :
  Forall (fun block => length block = k) blocks ->
  forall i j block,
    blocks !! i = Some block -> (j < k)%nat ->
    concat blocks !! (i * k + j)%nat = block !! j.
Proof.
  induction 1 as [|first blocks Hfirst _ IH]; intros i j block Hi Hj;
    [discriminate|].
  cbn [concat]. destruct i as [|i].
  - injection Hi as ->. cbn [Nat.mul Nat.add].
    apply lookup_app_l. lia.
  - cbn [lookup list_lookup] in Hi.
    rewrite lookup_app_r by (rewrite Hfirst; lia).
    replace (S i * k + j - length first)%nat with (i * k + j)%nat
      by (rewrite Hfirst; lia).
    apply IH; assumption.
Qed.

(** Where the two bytes of a sample lie in the data chunk. *)
Lemma interleaved_lookup (channels : list (list num)) (n c i d : nat)
      (channel : list num) :
  channels !! c = Some channel -> (i < n)%nat -> (d < 2)%nat ->
  interleaved channels n !! (2 * (i * length channels + c) + d)%nat
  = JS.le16 (stored_sample (read_sample channel i)) !! d.
Proof.
  intros Hc Hi Hd.
  pose proof (lookup_lt_Some _ _ _ Hc) as Hlt.
  unfold interleaved, interleaved_from.
  replace (2 * (i * length channels + c) + d)%nat
    with (i * (2 * length channels) + (c * 2 + d))%nat by lia.
  assert (Forall (fun block : list byte =>
                    length block = (2 * length channels)%nat)
                 (map (frame_bytes channels) (seq 0 n))) as Hblocks.
  { apply Forall_fmap, Forall_forall. intros offset _.
    apply length_frame_bytes. }
  rewrite (lookup_concat_uniform _ _ Hblocks i (c * 2 + d)%nat
             (frame_bytes channels i));
    [|rewrite list_lookup_fmap, lookup_seq_lt by exact Hi; reflexivity
     |lia].
  unfold frame_bytes.
  apply (lookup_concat_uniform 2).
  - apply Forall_fmap, Forall_forall. intros. reflexivity.
  - rewrite list_lookup_fmap, Hc. reflexivity.
  - exact Hd.
Qed.

(** The integer the loop stores is the clamped and scaled sample: the
    conversions [| 0] and [setInt16] never wrap. *)
Lemma stored_sample_sample16 (x : num) :
  stored_sample x = sample16 x /\ -32768 <= sample16 x <= 32767.
Proof.
  unfold stored_sample, Pcm.wave_sample, sample16.
  destruct x as [| | |q];
    [vm_compute; repeat split; try reflexivity; discriminate ..|].
  rewrite PcmFacts.clamp_Fin.
  pose proof (PcmFacts.clampQ_range q) as Hr.
  unfold JS.of_Z, JS.add. rewrite PcmFacts.ltb_Fin.
  destruct (PcmFacts.Qltb_spec ((1 # 2) + Pcm.clampQ q) (inject_Z 0))
    as [Hneg|Hpos]; cbn [JS.mul].
  - pose proof (PcmFacts.truncate_scale_range (Pcm.clampQ q) 32768
                  ltac:(lia) Hr) as Ht.
    assert (Pcm.clampQ q < inject_Z 0)%Q as Hs.
    { apply Qlt_trans with ((1 # 2) + Pcm.clampQ q)%Q; [|exact Hneg].
      rewrite <- (Qplus_0_l (Pcm.clampQ q)) at 1.
      apply Qplus_lt_l. reflexivity. }
    pose proof (PcmFacts.truncate_scale_nonpos (Pcm.clampQ q) 32768
                  ltac:(lia) Hs).
    rewrite JSFacts.ToInt32_truncate by lia.
    rewrite JSFacts.ToInt16_truncate;
      rewrite JSFacts.truncate_inject_Z; lia.
  - pose proof (PcmFacts.truncate_scale_range (Pcm.clampQ q) 32767
                  ltac:(lia) Hr) as Ht.
    rewrite JSFacts.ToInt32_truncate by lia.
    rewrite JSFacts.ToInt16_truncate;
      rewrite JSFacts.truncate_inject_Z; lia.
Qed.

(** Two little-endian bytes read back as an unsigned number. *)
Lemma u16_at_le16 (bytes : list byte) (at_ : nat) (v : Z) :
  bytes !! at_ = JS.le16 v !! 0%nat ->
  bytes !! S at_ = JS.le16 v !! 1%nat ->
  u16_at bytes at_ = Some (v mod 2 ^ 16).
Proof.
  intros H0 H1. unfold u16_at. rewrite H0, H1.
  cbn [JS.le16 lookup list_lookup]. rewrite !JSFacts.Z_of_byte_of_Z.
  f_equal. change (2 ^ 16) with 65536.
  Z.to_euclidean_division_equations; lia.
Qed.

(** C8: for every audio buffer (at least one channel, byte rate below
    [2^32]) [bufferToWave], called with the buffer's frame count, returns
    [44 + frameCount * channelCount * 2] bytes: the 44-byte RIFF/WAVE
    header, whose format tag is 1, whose bits-per-sample field is 16 and
    whose byte-rate field is [sampleRate * channelCount * 2], followed by
    the 16-bit samples interleaved frame by frame: the two bytes at
    [44 + 2 * (i * channelCount + c)] are sample [i] of channel [c],
    clamped and scaled to a 16-bit integer, low byte first. *)
Theorem bufferToWave_layout (a : AudioBuffer) :
  (1 <= JS.numberOfChannels a)%nat ->
  0 <= JS.sampleRate a * Z.of_nat (JS.numberOfChannels a) * 2 < 2 ^ 32 ->
  exists bytes,
    bufferToWave a (JS.frames a) = Some (Ok bytes) /\
    length bytes
      = (44 + JS.frames a * JS.numberOfChannels a * 2)%nat /\
    take 44 bytes
      = header (JS.numberOfChannels a) (JS.sampleRate a)
          (JS.frames a * JS.numberOfChannels a * 2 + 44) /\
    take 4 bytes = [x52; x49; x46; x46] /\
    take 4 (drop 8 bytes) = [x57; x41; x56; x45] /\
    u16_at bytes 20 = Some 1 /\
    u16_at bytes 34 = Some 16 /\
    u32_at bytes 28
      = Some (JS.sampleRate a * Z.of_nat (JS.numberOfChannels a) * 2) /\
    forall (c i : nat) (channel : list num) (x : num),
      JS.channels a !! c = Some channel ->
      channel !! i = Some x ->
      (i < JS.frames a)%nat ->
      u16_at bytes (44 + 2 * (i * JS.numberOfChannels a + c))
      = Some (sample16 x mod 2 ^ 16).
Proof.
  intros Hnc Hrate. eexists. split.
  { apply bufferToWave_fuel_spec; [exact Hnc|lia]. }
  set (h := header _ _ _).
  assert (length h = 44%nat) as Hh by reflexivity.
  split.
  { rewrite length_app, Hh. unfold interleaved.
    rewrite length_interleaved_from. unfold JS.numberOfChannels. lia. }
  split; [rewrite <- Hh; apply take_app_length|].
  split; [reflexivity|]. split; [reflexivity|].
  split; [reflexivity|]. split; [reflexivity|].
  split.
  { subst h. unfold header.
    replace (JS.sampleRate a * 2 * Z.of_nat (JS.numberOfChannels a))
      with (JS.sampleRate a * Z.of_nat (JS.numberOfChannels a) * 2) by lia.
    rewrite (Z.mod_small (JS.sampleRate a * _ * 2)) by exact Hrate.
    unfold u32_at, u16_at.
    cbn [app JS.le32 JS.le16 lookup list_lookup Nat.add].
    f_equal. apply le32_value. exact Hrate. }
  intros c i channel x Hc Hx Hi.
  destruct (stored_sample_sample16 x) as [<- _].
  replace x with (read_sample channel i)
    by (unfold read_sample; rewrite Hx; reflexivity).
  unfold JS.numberOfChannels.
  apply u16_at_le16.
  - rewrite lookup_app_r by (rewrite Hh; lia).
    replace (44 + 2 * (i * length (JS.channels a) + c) - length h)%nat
      with (2 * (i * length (JS.channels a) + c) + 0)%nat
      by (rewrite Hh; lia).
    apply interleaved_lookup; [exact Hc|exact Hi|lia].
  - rewrite lookup_app_r by (rewrite Hh; lia).
    replace (S (44 + 2 * (i * length (JS.channels a) + c)) - length h)%nat
      with (2 * (i * length (JS.channels a) + c) + 1)%nat
      by (rewrite Hh; lia).
    apply interleaved_lookup; [exact Hc|exact Hi|lia].
Qed.

Lemma bufferToWave_layout_witness :
  exists bytes,
    bufferToWave
      (mkAudioBuffer 24000
         [[Fin (1 # 2); Fin (-1 # 4)]; [Fin (-3 # 4); Fin 2]]) 2
      = Some (Ok bytes) /\
    length bytes = 52%nat /\
    take 44 bytes = header 2 24000 52 /\
    take 4 bytes = [x52; x49; x46; x46] /\
    take 4 (drop 8 bytes) = [x57; x41; x56; x45] /\
    u16_at bytes 20 = Some 1 /\
    u16_at bytes 34 = Some 16 /\
    u32_at bytes 28 = Some 96000 /\
    forall (c i : nat) (channel : list num) (x : num),
      [[Fin (1 # 2); Fin (-1 # 4)]; [Fin (-3 # 4); Fin 2]] !! c
        = Some channel ->
      channel !! i = Some x ->
      (i < 2)%nat ->
      u16_at bytes (44 + 2 * (i * 2 + c))
      = Some (sample16 x mod 2 ^ 16).
Proof.
  apply (bufferToWave_layout
           (mkAudioBuffer 24000
              [[Fin (1 # 2); Fin (-1 # 4)]; [Fin (-3 # 4); Fin 2]])).
  - cbn. lia.
  - split; [discriminate|reflexivity].
Defined.

End WavFacts.

(** ** Property lookup in object literals *)

Module ObjFacts.

Local Open Scope string_scope.

(** For a key that is no inherited name, the object literal answers as
    the finite map of its own properties. *)
Lemma get_own {A} (table : gmap string A) (key : string) :
  Obj.inherits key = false ->
  Obj.get table key
  = match table !! key with
    | Some value => Obj.Own value
    | None => Obj.Absent
    end.
Proof. intros H. unfold Obj.get. rewrite H. reflexivity. Qed.

Lemma get_text_own (table : gmap string string) (key : string) :
  Obj.inherits key = false ->
  Obj.get_text table key = table !! key.
Proof.
  intros H. unfold Obj.get_text. rewrite get_own by exact H.
  destruct (table !! key); reflexivity.
Qed.


(** The text of an inherited value is never the empty string. *)
Lemma inherited_text_truthy (key : string) :
  Str.falsy (Obj.inherited_text key) = false.
Proof.
  unfold Obj.inherited_text.
  destruct (String.eqb key "__proto__"); reflexivity.
Qed.

End ObjFacts.

(** ** The prompt builder *)

Module PromptFacts.

Import Prompt.
Local Open Scope string_scope.

(** *** The emotion instruction *)











(** *** The plain TTS prompt *)

(** The prompt in closed form: the fixed lead-in, then the language
    hint, the narration-style instruction, the emotion instruction and
    the script. *)
Lemma tts_prompt_closed_form (emotionInstruction narrationStyle : string)
      (useHinglish : bool) (script : string) :
  tts_prompt emotionInstruction narrationStyle useHinglish script
  = "TTS the following text: "
    +:+ (if useHinglish then hinglish_hint else "")
    +:+ default "" (Obj.get_text narrationStylePromptMap narrationStyle)
    +:+ emotionInstruction +:+ script.
Proof.
  unfold tts_prompt, hinglish_hint.
  destruct (Obj.get_text narrationStylePromptMap narrationStyle) as [n|];
    [destruct n|]; destruct emotionInstruction; destruct useHinglish;
    reflexivity.
Qed.

Section Runs.

Variable generateContent : Request -> result (option string).
Variable atob : string -> result (list byte).
Variable abortedDuringCall : bool.
Variable directorNotes : bool -> string -> string.

(** The log only grows in [call]; decoding adds nothing to it. *)
Lemma decode_audio_log (data : option string) (log : list Request) :
  snd (decode_audio atob abortedDuringCall data log) = log.
Proof.
  unfold decode_audio.
  destruct abortedDuringCall; [reflexivity|].
  destruct data as [d|]; [|reflexivity].
  destruct (Str.falsy d); [reflexivity|].
  unfold mbind, Gen_bind, lift.
  destruct (atob d) as [bs|e]; [|reflexivity].
  destruct (Pcm.decodeAudioData bs 24000 1); reflexivity.
Qed.

Lemma run_after_call (page : Page) (request : Request) :
  request_audio generateContent directorNotes page []
    = call generateContent request [] ->
  snd (generateAudio generateContent atob abortedDuringCall directorNotes
         page) = [request].
Proof.
  intros H. unfold generateAudio, mbind, Gen_bind. rewrite H.
  unfold call. cbn [app].
  destruct (generateContent request) as [data|e]; [|reflexivity].
  pose proof (decode_audio_log data [request]) as Hlog.
  destruct (decode_audio atob abortedDuringCall data [request])
    as [[[b|]|e] log]; cbn in Hlog |- *; congruence.
Qed.

Lemma run_after_throw (page : Page) (message : string) :
  request_audio generateContent directorNotes page []
    = throw message [] ->
  generateAudio generateContent atob abortedDuringCall directorNotes page
  = (Failed (Error message), []).
Proof.
  intros H. unfold generateAudio, mbind, Gen_bind. rewrite H.
  reflexivity.
Qed.

(** C2, amended: in plain TTS mode, for every script that is not
    blank and every narration style that is not named like a property
    every object inherits, exactly one request is sent, for the selected
    single voice, and its prompt is the concatenation of the fixed
    lead-in "TTS the following text: ", the language hint (when the
    Hinglish toggle is on), the narration-style instruction (when the
    style has one), the emotion instruction (when there is one) and the
    script, in that order. *)
Theorem tts_prompt_order (page : Page) :
  activeTab page = tts ->
  Str.falsy (Str.trim (script page)) = false ->
  Obj.inherits (narrationStyleSelect page) = false ->
  snd (generateAudio generateContent atob abortedDuringCall directorNotes
         page)
  = [mkRequest tts_model
       ("TTS the following text: "
        +:+ (if hinglishToggle page then hinglish_hint else "")
        +:+ default ""
              (narrationStylePromptMap !! narrationStyleSelect page)
        +:+ getEmotionPromptString (emotionControls page)
        +:+ script page)
       (SingleVoice (voiceSelect page))].
Proof.
  intros Htab Hscript Hstyle. apply run_after_call.
  unfold request_audio. rewrite Hscript, Htab.
  rewrite tts_prompt_closed_form, ObjFacts.get_text_own by exact Hstyle.
  reflexivity.
Qed.

(** C5, amended: a multi-speaker or AI-director story run with fewer
    than [MIN_SPEAKERS] configured speakers fails and issues no remote
    call; the error is the one that asks for at least two speakers,
    unless the script is blank, which is reported first. *)
Theorem too_few_speakers_fails_before_call (page : Page) :
  activeTab page = story ->
  storyMode page = "multi" \/ storyMode page = "ai" ->
  (length (speakerConfigsForGeneration page) < MIN_SPEAKERS)%nat ->
  generateAudio generateContent atob abortedDuringCall directorNotes page
  = (Failed (Error (if Str.falsy (Str.trim (script page))
                    then empty_script else insufficient_speakers)),
     []).
Proof.
  intros Htab Hmode Hfew. apply run_after_throw.
  unfold request_audio.
  destruct (Str.falsy (Str.trim (script page))); [reflexivity|].
  rewrite Htab.
  assert (String.eqb (storyMode page) "multi"
          || String.eqb (storyMode page) "ai" = true) as ->.
  { destruct Hmode as [-> | ->]; reflexivity. }
  destruct (Nat.ltb_spec (length (speakerConfigsForGeneration page))
              MIN_SPEAKERS); [reflexivity|lia].
Qed.

End Runs.

(** C2, as stated, fails: with the emotion joyful and the news style the
    prompt puts the style instruction before the emotion instruction and
    opens with a fixed lead-in; it is neither the concatenation the claim
    describes nor that concatenation behind the lead-in. *)
Lemma tts_prompt_not_in_claimed_order :
  let page :=
    mkPage tts "Hello." [mkEmotion "joyful" 80] "Kore" "news" false
      "single" [] false "Kore" "sonnet" "french" in
  let claimed :=
    spec_tts_prompt (getEmotionPromptString (emotionControls page))
      (narrationStyleSelect page) (hinglishToggle page) (script page) in
  snd (generateAudio (fun _ => Ok None) (fun _ => Ok []) false
         (fun _ s => s) page)
  = [mkRequest tts_model
       "TTS the following text: Recite in a clear, formal tone like a news anchor. Recite the following joyfully: Hello."
       (SingleVoice "Kore")] /\
  claimed
  = "Recite the following joyfully: Recite in a clear, formal tone like a news anchor. Hello." /\
  String.eqb
    "TTS the following text: Recite in a clear, formal tone like a news anchor. Recite the following joyfully: Hello."
    claimed = false /\
  String.eqb
    "TTS the following text: Recite in a clear, formal tone like a news anchor. Recite the following joyfully: Hello."
    ("TTS the following text: " +:+ claimed) = false.
Proof. repeat split. Qed.

Lemma tts_prompt_order_witness :
  snd (generateAudio (fun _ => Ok None) (fun _ => Ok []) false
         (fun _ s => s)
         (mkPage tts "Hello." [mkEmotion "joyful" 80] "Kore" "news" true
            "single" [] false "Kore" "sonnet" "french"))
  = [mkRequest tts_model
       ("TTS the following text: " +:+ hinglish_hint
        +:+ "Recite in a clear, formal tone like a news anchor. "
        +:+ "Recite the following joyfully: " +:+ "Hello.")
       (SingleVoice "Kore")].
Proof.
  apply (tts_prompt_order (fun _ => Ok None) (fun _ => Ok []) false
           (fun _ s => s)
           (mkPage tts "Hello." [mkEmotion "joyful" 80] "Kore" "news" true
              "single" [] false "Kore" "sonnet" "french"));
    reflexivity.
Defined.

(** C5, as stated, fails: with a blank script the run of one speaker
    ends with the empty-script error, not with the one that asks for
    more speakers; no remote call is made either way. *)
Lemma blank_script_reported_first :
  generateAudio (fun _ => Ok (Some "AAAA")) (fun _ => Ok [x01; x00]) false
    (fun _ s => s)
    (mkPage story "   " [] "Kore" "default" false "multi"
       [mkSpeaker "Joe" "Kore"] false "Kore" "sonnet" "french")
  = (Failed (Error
       "Script is empty. Please enter some text to generate audio."), []) /\
  insufficient_speakers
  = "Multi-speaker and AI Director modes require at least 2 speakers to be configured." /\
  String.eqb "Script is empty. Please enter some text to generate audio."
             insufficient_speakers = false.
Proof. repeat split. Qed.

Lemma too_few_speakers_witness :
  generateAudio (fun _ => Ok (Some "AAAA")) (fun _ => Ok [x01; x00]) false
    (fun _ s => s)
    (mkPage story "Joe: Hello." [] "Kore" "default" false "multi"
       [mkSpeaker "Joe" "Kore"] false "Kore" "sonnet" "french")
  = (Failed (Error insufficient_speakers), []).
Proof.
  apply (too_few_speakers_fails_before_call
           (fun _ => Ok (Some "AAAA")) (fun _ => Ok [x01; x00]) false
           (fun _ s => s)
           (mkPage story "Joe: Hello." [] "Kore" "default" false "multi"
              [mkSpeaker "Joe" "Kore"] false "Kore" "sonnet" "french")).
  - reflexivity.
  - left. reflexivity.
  - cbn. unfold MIN_SPEAKERS. lia.
Defined.

End PromptFacts.

(** ** The MP3 export and its busy flag *)

Module Mp3Facts.

Import Mp3.










End Mp3Facts.

(** ** Speakers *)

Module SpeakersFacts.

Import Speakers.
Local Open Scope string_scope.
Local Open Scope list_scope.

(** *** The pattern *)

Lemma span_spec (p : ascii -> bool) (l a b : list ascii) :
  Str.span p l = (a, b) ->
  l = (a ++ b)%list /\ Forall (fun c => p c = true) a /\ Str.stops p b.
Proof.
  revert a b. induction l as [|c l IH]; intros a b H; cbn in H.
  - injection H as <- <-. repeat split. constructor.
  - destruct (p c) eqn:Hc.
    + destruct (Str.span p l) as [a' b'] eqn:Hs.
      injection H as <- <-.
      destruct (IH a' b' eq_refl) as (-> & Hall & Hstop).
      repeat split; [constructor; assumption|exact Hstop].
    + injection H as <- <-. repeat split; [constructor|exact Hc].
Qed.

Lemma span_app (p : ascii -> bool) (a b : list ascii) :
  Forall (fun c => p c = true) a -> Str.stops p b ->
  Str.span p (a ++ b) = (a, b).
Proof.
  intros Ha Hb. induction Ha as [|c a Hc _ IH].
  - destruct b as [|c b]; [reflexivity|]. cbn in Hb |- *. rewrite Hb.
    reflexivity.
  - cbn. rewrite Hc, IH. reflexivity.
Qed.

(** A line terminator is white space, so what stops the white space
    does not stop the rest of the line. *)
Lemma line_terminator_is_space (c : ascii) :
  Str.is_line_terminator c = true -> Str.is_space c = true.
Proof.
  unfold Str.is_line_terminator, Str.is_space.
  destruct (Nat.eqb_spec (nat_of_ascii c) 10) as [->|];
    [reflexivity|].
  destruct (Nat.eqb_spec (nat_of_ascii c) 13) as [->|];
    [reflexivity|discriminate].
Qed.

(** Matching the matched text again finds the same match: the match is
    the whole of its own text. *)
Lemma match_here_matched (s : list ascii) (m : Match) :
  match_here s = Some m -> match_here (matched m) = Some m.
Proof.
  destruct s as [|c s1]; [discriminate|]. cbn [match_here].
  destruct (is_name_start c) eqn:Hc; [|discriminate].
  destruct (Str.span is_name_char s1) as [more s2] eqn:Hname.
  destruct s2 as [|x s3]; [discriminate|].
  destruct (Ascii.eqb_spec x ":") as [->|]; [|discriminate].
  destruct (Str.span Str.is_space s3) as [spaces s4] eqn:Hspace.
  destruct (Str.span not_line_terminator s4) as [line s5] eqn:Hline.
  intros [= <-]. cbn [matched match_here]. rewrite Hc.
  apply span_spec in Hname as (_ & Hmore & _).
  apply span_spec in Hspace as (_ & Hspaces & Hstop).
  apply span_spec in Hline as (-> & Hrest & _).
  rewrite (span_app is_name_char more) by (exact Hmore || reflexivity).
  cbn [Ascii.eqb Bool.eqb].
  rewrite (span_app Str.is_space spaces line).
  - rewrite <- (app_nil_r line) at 1.
    rewrite (span_app not_line_terminator line []) by (exact Hrest || exact I).
    reflexivity.
  - exact Hspaces.
  - destruct line as [|l0 line]; [exact I|]. exact Hstop.
Qed.

Lemma scan_skips (s : list ascii) :
  forall line_start skip,
    length s <= skip -> scan s line_start skip = [].
Proof.
  induction s as [|c s IH]; intros ls skip Hlen; [reflexivity|].
  cbn [length] in Hlen. destruct skip as [|k]; [lia|].
  cbn [scan]. apply IH. lia.
Qed.

Lemma matched_not_empty (s : list ascii) (m : Match) :
  match_here s = Some m -> exists c rest, matched m = c :: rest.
Proof.
  destruct s as [|c s1]; [discriminate|]. cbn [match_here].
  destruct (is_name_start c); [|discriminate].
  destruct (Str.span is_name_char s1) as [more s2].
  destruct s2 as [|x s3]; [discriminate|].
  destruct (Ascii.eqb x ":"); [|discriminate].
  destruct (Str.span Str.is_space s3) as [spaces s4].
  destruct (Str.span not_line_terminator s4) as [line s5].
  intros [= <-]. cbn. eauto.
Qed.

Lemma rescan_single (s : list ascii) (m : Match) :
  match_here s = Some m -> scan (matched m) true 0 = [m].
Proof.
  intros H. pose proof (match_here_matched s m H) as Hm.
  destruct (matched_not_empty s m H) as (c & rest & E).
  rewrite E in Hm |- *. cbn [scan]. rewrite Hm, E. cbn [length].
  rewrite scan_skips by lia. reflexivity.
Qed.

Lemma scan_matches (s : list ascii) :
  forall line_start skip m,
    m ∈ scan s line_start skip -> exists s', match_here s' = Some m.
Proof.
  induction s as [|c s IH]; intros ls skip m Hin; cbn [scan] in Hin.
  - apply elem_of_nil in Hin. destruct Hin.
  - destruct skip as [|k]; [|eapply IH; exact Hin].
    destruct (if ls then match_here (c :: s) else None) as [m0|] eqn:Hm;
      [|eapply IH; exact Hin].
    apply elem_of_cons in Hin as [->|Hin]; [|eapply IH; exact Hin].
    destruct ls; [|discriminate]. eauto.
Qed.

Lemma chars_of_chars (l : list ascii) : Str.chars (Str.of_chars l) = l.
Proof. apply list_ascii_of_string_of_list_ascii. Qed.

(** *** The standalone TTS service *)

(** [part.match(pattern)] on a matched text returns that text alone, so
    its element [1] is [undefined]. *)
Lemma String_match_part (text part : string) :
  part ∈ parseMultiSpeakerText text -> String_match part = Some [part].
Proof.
  unfold parseMultiSpeakerText at 1, matchAll. intros Hin.
  apply list_elem_of_fmap in Hin as (m & -> & Hin).
  apply scan_matches in Hin as (s' & Hm).
  unfold String_match, parseMultiSpeakerText, matchAll.
  rewrite chars_of_chars, (rescan_single s' m Hm). reflexivity.
Qed.

Lemma add_speaker_keeps (speechSettings : SpeechSettings) (text part : string)
      (state : list (string * VoiceConfig) * list string) :
  part ∈ parseMultiSpeakerText text ->
  add_speaker speechSettings state part = state.
Proof.
  intros Hin. unfold add_speaker. destruct state as [configs unique].
  rewrite (String_match_part text part Hin). reflexivity.
Qed.

Lemma collect_speakers_empty (speechSettings : SpeechSettings)
      (text : string) :
  collect_speakers speechSettings (parseMultiSpeakerText text) = [].
Proof.
  unfold collect_speakers.
  assert (forall parts state,
             (forall part, part ∈ parts ->
                           part ∈ parseMultiSpeakerText text) ->
             foldl (add_speaker speechSettings) state parts = state) as H.
  { induction parts as [|part parts IH]; intros state Hsub; [reflexivity|].
    cbn [foldl].
    rewrite (add_speaker_keeps speechSettings text part)
      by (apply Hsub; left).
    apply IH. intros part' Hin. apply Hsub. right. exact Hin. }
  rewrite H by auto. reflexivity.
Qed.

(** C10: when the text has lines that match the speaker pattern and no
    speaker voice configuration comes out of them, [generateTTS] sends
    the single-voice configuration with the voice name and the speech
    settings of the caller. *)
Theorem generateTTS_single_voice_fallback (text voice : string)
        (speechSettings : SpeechSettings) :
  parseMultiSpeakerText text <> [] ->
  collect_speakers speechSettings (parseMultiSpeakerText text) = [] ->
  generateTTS_speechConfig text voice speechSettings
  = voiceConfig (mkVoiceConfig voice speechSettings).
Proof.
  intros Hparts Hnone. unfold generateTTS_speechConfig.
  rewrite Hnone.
  destruct (parseMultiSpeakerText text); [contradiction|reflexivity].
Qed.

Lemma generateTTS_single_voice_fallback_witness :
  generateTTS_speechConfig "Joe: Hello." "Puck" (mkSettings 1 0 0)
  = voiceConfig (mkVoiceConfig "Puck" (mkSettings 1 0 0)).
Proof.
  apply (generateTTS_single_voice_fallback "Joe: Hello." "Puck"
           (mkSettings 1 0 0)).
  - discriminate.
  - reflexivity.
Defined.

(** The fallback is in fact the only outcome: the configuration sent is
    the caller's single voice for every text. *)
Theorem generateTTS_always_single_voice (text voice : string)
        (speechSettings : SpeechSettings) :
  generateTTS_speechConfig text voice speechSettings
  = voiceConfig (mkVoiceConfig voice speechSettings).
Proof.
  unfold generateTTS_speechConfig.
  rewrite collect_speakers_empty.
  destruct (parseMultiSpeakerText text); reflexivity.
Qed.

(** *** Recognized speakers *)

Lemma filter_filter_absorb (acc : list string) (x : string)
      (l : list string) :
  x ∈ acc ->
  filter (fun y => y ∉ acc) (filter (fun y => y <> x) l)
  = filter (fun y => y ∉ acc) l.
Proof.
  intros Hx. induction l as [|y l IH]; [reflexivity|].
  rewrite !filter_cons.
  destruct (decide (y <> x)) as [Hne|He].
  - rewrite filter_cons, IH. reflexivity.
  - assert (y = x) as -> by (destruct (decide (y = x)); tauto).
    destruct (decide (x ∉ acc)); [contradiction|exact IH].
Qed.

Lemma filter_not_in_snoc (acc : list string) (x : string)
      (l : list string) :
  filter (fun y => y ∉ (acc ++ [x])%list) l
  = filter (fun y => y ∉ acc) (filter (fun y => y <> x) l).
Proof.
  induction l as [|y l IH]; [reflexivity|].
  rewrite !filter_cons.
  destruct (decide (y <> x)) as [Hne|He].
  - rewrite filter_cons, <- IH.
    destruct (decide (y ∉ acc)) as [Hy|Hy];
      destruct (decide (y ∉ (acc ++ [x])%list)) as [Hy'|Hy'];
      try reflexivity; exfalso.
    + apply Hy'. rewrite elem_of_app, list_elem_of_singleton. tauto.
    + apply Hy. intros Hin. apply Hy'. apply elem_of_app. left. exact Hin.
  - assert (y = x) as -> by (destruct (decide (y = x)); tauto).
    destruct (decide (x ∉ (acc ++ [x])%list)) as [Hy'|_]; [|exact IH].
    exfalso. apply Hy'. apply elem_of_app. right. left.
Qed.

Lemma filter_not_in_nil (l : list string) :
  filter (fun y => y ∉ @nil string) l = l.
Proof.
  induction l as [|y l IH]; [reflexivity|].
  rewrite filter_cons_True by apply not_elem_of_nil.
  rewrite IH. reflexivity.
Qed.

(** Adding to a [Set] one by one keeps the first appearances. *)
Lemma foldl_set_add (l : list string) :
  forall acc,
    foldl set_add acc l
    = (acc ++ filter (fun y => y ∉ acc) (first_appearances l))%list.
Proof.
  induction l as [|x l IH]; intros acc; cbn [foldl first_appearances].
  - rewrite filter_nil, app_nil_r. reflexivity.
  - rewrite IH. unfold set_add. rewrite filter_cons.
    destruct (decide (x ∈ acc)) as [Hx|Hx].
    + rewrite bool_decide_eq_true_2 by exact Hx.
      destruct (decide (x ∉ acc)); [contradiction|].
      rewrite filter_filter_absorb by exact Hx. reflexivity.
    + rewrite bool_decide_eq_false_2 by exact Hx.
      destruct (decide (x ∉ acc)); [|contradiction].
      rewrite filter_not_in_snoc, <- app_assoc. reflexivity.
Qed.

Lemma first_appearances_elem (l : list string) (x : string) :
  x ∈ first_appearances l <-> x ∈ l.
Proof.
  induction l as [|y l IH]; [reflexivity|].
  cbn [first_appearances].
  rewrite !elem_of_cons, list_elem_of_filter, IH.
  destruct (decide (x = y)); tauto.
Qed.

Lemma first_appearances_NoDup (l : list string) :
  NoDup (first_appearances l).
Proof.
  induction l as [|y l IH]; [constructor|].
  cbn [first_appearances]. constructor.
  - rewrite list_elem_of_filter. tauto.
  - apply NoDup_filter. exact IH.
Qed.

Lemma group1_not_empty (s : list ascii) (m : Match) :
  match_here s = Some m -> Str.falsy (Str.of_chars (group1 m)) = false.
Proof.
  destruct s as [|c s1]; [discriminate|]. cbn [match_here].
  destruct (is_name_start c); [|discriminate].
  destruct (Str.span is_name_char s1) as [more s2].
  destruct s2 as [|x s3]; [discriminate|].
  destruct (Ascii.eqb x ":"); [|discriminate].
  destruct (Str.span Str.is_space s3) as [spaces s4].
  destruct (Str.span not_line_terminator s4) as [line s5].
  intros [= <-]. reflexivity.
Qed.

Lemma getRecognizedSpeakers_foldl (text : string) :
  getRecognizedSpeakers text = foldl set_add [] (names text).
Proof.
  unfold getRecognizedSpeakers, names.
  assert (forall ms acc,
             (forall m, m ∈ ms -> m ∈ matchAll text) ->
             foldl (fun speakers m =>
                      let name := Str.of_chars (group1 m) in
                      if Str.falsy name then speakers
                      else set_add speakers name) acc ms
             = foldl set_add acc
                 (map (fun m => Str.of_chars (group1 m)) ms)) as H.
  { induction ms as [|m ms IH]; intros acc Hsub; [reflexivity|].
    cbn [foldl map].
    destruct (scan_matches _ _ _ m (Hsub m ltac:(left))) as (s' & Hm).
    rewrite (group1_not_empty s' m Hm).
    apply IH. intros m' Hin. apply Hsub. right. exact Hin. }
  apply H. auto.
Qed.

(** [getRecognizedSpeakers] returns the names captured by the matches of
    the pattern: each once, in the order of their first match. *)
Theorem getRecognizedSpeakers_first_appearances (text : string) :
  getRecognizedSpeakers text = first_appearances (names text) /\
  NoDup (getRecognizedSpeakers text) /\
  (forall x, x ∈ getRecognizedSpeakers text <-> x ∈ names text).
Proof.
  assert (getRecognizedSpeakers text = first_appearances (names text)) as E.
  { rewrite getRecognizedSpeakers_foldl, foldl_set_add. cbn [app].
    apply filter_not_in_nil. }
  rewrite E. split; [reflexivity|].
  split; [apply first_appearances_NoDup|].
  intros x. apply first_appearances_elem.
Qed.

(** The specification's example. *)
Example recognized_Joe_Jane :
  getRecognizedSpeakers
    ("Joe: Hello." +:+ Str.of_chars ["010"%char] +:+ "Jane: Hi!")
  = ["Joe"; "Jane"].
Proof. reflexivity. Qed.

(** C6: a speaker tag with nothing after its colon takes the next line
    as its text, because the white space the pattern skips includes the
    line break; the speaker tag of that next line is not recognized,
    where a line-by-line reading recognizes it. *)
Lemma recognized_speakers_skip_line_after_bare_tag :
  let text := "Joe:" +:+ Str.of_chars ["010"%char] +:+ "Jane: Hi!" in
  getRecognizedSpeakers text = ["Joe"] /\
  spec_extractSpeakers text = ["Joe"; "Jane"] /\
  parseMultiSpeakerText text = [text].
Proof. repeat split. Qed.

(** *** Line by line *)

Lemma span_app_stop (p : ascii -> bool) (l a b r : list ascii) (x : ascii) :
  Str.span p l = (a, x :: b) ->
  Str.span p (l ++ r) = (a, (x :: b) ++ r).
Proof.
  intros H. apply span_spec in H as (-> & Ha & Hx).
  rewrite <- app_assoc. apply span_app; assumption.
Qed.

Lemma span_all (p : ascii -> bool) (l : list ascii) :
  Forall (fun c => p c = true) l -> Str.span p l = (l, []).
Proof.
  intros H. rewrite <- (app_nil_r l) at 1. apply span_app; [exact H|exact I].
Qed.

Lemma span_whole (p : ascii -> bool) (l a : list ascii) :
  Str.span p l = (a, []) -> a = l /\ Forall (fun c => p c = true) l.
Proof.
  intros H. apply span_spec in H as (-> & Ha & _).
  rewrite app_nil_r. split; [reflexivity|exact Ha].
Qed.

Lemma line_terminator_code (c : ascii) :
  Str.is_line_terminator c = true ->
  c = ascii_of_nat 10 \/ c = ascii_of_nat 13.
Proof.
  unfold Str.is_line_terminator. intros H.
  destruct (Nat.eqb_spec (nat_of_ascii c) 10) as [E|_].
  - left. rewrite <- (ascii_nat_embedding c), E. reflexivity.
  - destruct (Nat.eqb_spec (nat_of_ascii c) 13) as [E|_]; [|discriminate].
    right. rewrite <- (ascii_nat_embedding c), E. reflexivity.
Qed.

Lemma line_terminator_not_name (c : ascii) :
  Str.is_line_terminator c = true ->
  is_name_start c = false /\ is_name_char c = false /\
  Ascii.eqb c ":" = false.
Proof.
  intros H. destruct (line_terminator_code c H) as [-> | ->];
    repeat split.
Qed.

(** The lines of a text, through [span]. *)
Lemma lines_of_span (s : list ascii) :
  forall current,
    lines_of s current
    = match Str.span not_line_terminator s with
      | (l, []) => [(current ++ l)%list]
      | (l, _ :: rest) => (current ++ l)%list :: lines_of rest []
      end.
Proof.
  induction s as [|c s IH]; intros current; cbn [lines_of Str.span].
  - rewrite app_nil_r. reflexivity.
  - unfold not_line_terminator at 1.
    destruct (Str.is_line_terminator c); cbn [negb].
    + rewrite app_nil_r. reflexivity.
    + rewrite IH.
      destruct (Str.span not_line_terminator s) as [l [|x rest]];
        rewrite <- app_assoc; reflexivity.
Qed.

(** After the start of a line nothing matches before the next line. *)
Lemma scan_rest_of_line (l : list ascii) :
  Forall (fun c => not_line_terminator c = true) l ->
  forall skip,
    skip <= length l ->
    scan l false skip = [] /\
    forall c rest,
      Str.is_line_terminator c = true ->
      scan (l ++ c :: rest) false skip = scan rest true 0.
Proof.
  induction 1 as [|x l Hx _ IH]; intros skip Hskip.
  - cbn [length] in Hskip. assert (skip = 0) as -> by lia.
    split; [reflexivity|]. intros c rest Hc. cbn [app scan]. rewrite Hc.
    reflexivity.
  - assert (Str.is_line_terminator x = false) as Hx'
      by (unfold not_line_terminator in Hx; destruct (Str.is_line_terminator x);
          [discriminate|reflexivity]).
    cbn [length] in Hskip.
    destruct skip as [|k]; cbn [app scan]; rewrite Hx'.
    + apply IH. lia.
    + apply IH. lia.
Qed.

(** At the start of a line whose tag, if it has one, has text after it
    (or which is the last line), the pattern matches exactly when the
    line is a speaker line, and then the match is the line. *)
Lemma match_here_line (l r : list ascii) :
  Forall (fun c => not_line_terminator c = true) l ->
  Str.stops not_line_terminator r ->
  (r <> [] -> bare_tag l = false) ->
  match line_speaker l with
  | Some name =>
      exists m, match_here (l ++ r) = Some m /\
                Str.of_chars (group1 m) = name /\ matched m = l
  | None => match_here (l ++ r) = None
  end.
Proof.
  intros Hl Hr Hbare.
  assert (forall c rest, r = c :: rest -> Str.is_line_terminator c = true)
    as Hhead.
  { intros c rest ->. cbn in Hr. unfold not_line_terminator in Hr.
    destruct (Str.is_line_terminator c); [reflexivity|discriminate]. }
  destruct l as [|c0 l1].
  - cbn [line_speaker app]. destruct r as [|c rest]; [reflexivity|].
    cbn [match_here].
    destruct (line_terminator_not_name c (Hhead c rest eq_refl)) as (-> & _).
    reflexivity.
  - cbn [line_speaker app match_here bare_tag] in *.
    destruct (is_name_start c0); [|reflexivity].
    inversion Hl as [|? ? _ Hl1]; subst.
    destruct (Str.span is_name_char l1) as [more l2] eqn:Hname.
    destruct l2 as [|x l3].
    + (* the name runs to the end of the line *)
      apply span_whole in Hname as (-> & Hmore).
      destruct r as [|c rest].
      * rewrite app_nil_r, (span_all _ _ Hmore). reflexivity.
      * destruct (line_terminator_not_name c (Hhead c rest eq_refl))
          as (_ & Hc & Hcolon).
        rewrite (span_app is_name_char l1 (c :: rest) Hmore Hc), Hcolon.
        reflexivity.
    + rewrite (span_app_stop _ _ _ _ r _ Hname). cbn [app].
      destruct (Ascii.eqb_spec x ":") as [->|]; [|reflexivity].
      pose proof Hname as Hsplit.
      apply span_spec in Hsplit as (-> & _ & _).
      assert (Forall (fun c => not_line_terminator c = true) l3) as Hl3.
      { apply Forall_app in Hl1 as [_ Hl1].
        inversion Hl1; assumption. }
      destruct (Str.span Str.is_space l3) as [spaces l4] eqn:Hspace.
      destruct l4 as [|y l5].
      * (* only white space after the colon: the last line *)
        apply span_whole in Hspace as (-> & Hspaces).
        destruct r as [|c rest].
        -- rewrite app_nil_r, (span_all _ _ Hspaces). cbn [Str.span].
           eexists. split; [reflexivity|]. split; [reflexivity|].
           cbn [matched]. rewrite app_nil_r. reflexivity.
        -- exfalso. specialize (Hbare ltac:(discriminate)).
           cbn [andb] in Hbare.
           rewrite (proj2 (forallb_forall _ _)) in Hbare; [discriminate|].
           intros z Hz. apply (proj1 (Forall_forall _ _) Hspaces).
           apply list_elem_of_In. exact Hz.
      * rewrite (span_app_stop _ _ _ _ r _ Hspace).
        pose proof Hspace as Hsplit.
        apply span_spec in Hsplit as (-> & _ & _).
        assert (Forall (fun c => not_line_terminator c = true) (y :: l5))
          as Hrest by (apply Forall_app in Hl3 as [_ Hl3]; exact Hl3).
        rewrite (span_app not_line_terminator (y :: l5) r Hrest Hr).
        eexists. split; [reflexivity|]. split; reflexivity.
Qed.

Lemma foldl_omap_set_add (lines : list (list ascii)) :
  forall speakers,
    foldl (fun speakers line =>
             match line_speaker line with
             | Some name => set_add speakers name
             | None => speakers
             end) speakers lines
    = foldl set_add speakers (omap line_speaker lines).
Proof.
  induction lines as [|line lines IH]; intros speakers; [reflexivity|].
  cbn [foldl omap list_omap].
  destruct (line_speaker line); cbn [foldl]; apply IH.
Qed.

Lemma lines_of_not_nil (s current : list ascii) :
  exists line rest, lines_of s current = line :: rest.
Proof.
  rewrite lines_of_span.
  destruct (Str.span not_line_terminator s) as [l [|x r]]; eauto.
Qed.

(** The scan of one line from its start. *)
Lemma scan_line (l : list ascii) (tail : list Match) :
  Forall (fun c => not_line_terminator c = true) l ->
  forall r,
    Str.stops not_line_terminator r ->
    (r <> [] -> bare_tag l = false) ->
    (forall skip, skip <= length (tl l) ->
                  scan (tl l ++ r) false skip = tail) ->
    l <> [] ->
    map (fun m => Str.of_chars (group1 m)) (scan (l ++ r) true 0)
    = match line_speaker l with
      | Some name => [name]
      | None => []
      end ++ map (fun m => Str.of_chars (group1 m)) tail.
Proof.
  intros Hl r Hr Hbare Htail Hne.
  pose proof (match_here_line l r Hl Hr Hbare) as Hm.
  destruct l as [|c0 l1]; [congruence|]. cbn [tl] in Htail.
  assert (Str.is_line_terminator c0 = false) as Hc0.
  { inversion Hl as [|? ? Hc _]; subst. unfold not_line_terminator in Hc.
    destruct (Str.is_line_terminator c0); [discriminate|reflexivity]. }
  change ((c0 :: l1) ++ r) with (c0 :: (l1 ++ r)) in *.
  cbn [scan]. rewrite Hc0.
  destruct (line_speaker (c0 :: l1)) as [name|].
  - destruct Hm as (m & -> & Hname & Hmatched).
    rewrite Hmatched. cbn [length Nat.sub map app].
    rewrite Nat.sub_0_r, Htail by lia. rewrite Hname. reflexivity.
  - rewrite Hm, Htail by lia. reflexivity.
Qed.

Lemma scan_lines (n : nat) :
  forall s,
    length s <= n ->
    tags_have_text (lines_of s []) ->
    map (fun m => Str.of_chars (group1 m)) (scan s true 0)
    = omap line_speaker (lines_of s []).
Proof.
  induction n as [|n IH]; intros s Hlen Htags.
  - destruct s; [reflexivity|cbn in Hlen; lia].
  - rewrite lines_of_span in Htags |- *.
    destruct (Str.span not_line_terminator s) as [l r] eqn:Hs.
    apply span_spec in Hs as (-> & Hl & Hr). cbn [app] in *.
    destruct r as [|c rest].
    + (* the last line *)
      rewrite app_nil_r. cbn [omap list_omap].
      destruct l as [|c0 l1]; [reflexivity|].
      pose proof (scan_line (c0 :: l1) [] Hl [] I ltac:(congruence)) as H.
      rewrite !app_nil_r in H. rewrite H; [|..|discriminate].
      * destruct (line_speaker (c0 :: l1)); reflexivity.
      * intros skip Hskip. cbn [tl] in *.
        inversion Hl; subst. apply scan_rest_of_line; assumption.
    + assert (Str.is_line_terminator c = true) as Hc.
      { cbn in Hr. unfold not_line_terminator in Hr.
        destruct (Str.is_line_terminator c); [reflexivity|discriminate]. }
      destruct (lines_of_not_nil rest []) as (l' & L' & HL).
      cbn [tags_have_text] in Htags. rewrite HL in Htags.
      destruct Htags as [Hbare Htags]. rewrite <- HL in Htags.
      assert (length rest <= n) as Hrest
        by (rewrite length_app in Hlen; cbn [length] in Hlen; lia).
      specialize (IH rest Hrest Htags).
      cbn [omap list_omap].
      destruct l as [|c0 l1].
      * cbn [app scan].
        destruct (line_terminator_not_name c Hc) as (Hstart & _).
        cbn [match_here]. rewrite Hstart, Hc. cbn [line_speaker].
        exact IH.
      * rewrite (scan_line (c0 :: l1) (scan rest true 0) Hl (c :: rest) Hr
                   (fun _ => Hbare)); [|..|discriminate].
        -- rewrite IH. destruct (line_speaker (c0 :: l1)); reflexivity.
        -- intros skip Hskip. cbn [tl] in *.
           inversion Hl; subst. apply scan_rest_of_line; assumption.
Qed.

(** Where every speaker tag has text on its own line (a tag with only
    white space after its colon may close the script),
    [getRecognizedSpeakers] reads the script line by line: it returns the
    names of the lines that start with a name and a colon, each once, in
    the order of their first appearance. *)
Theorem getRecognizedSpeakers_line_by_line (text : string) :
  tags_have_text (lines_of (Str.chars text) []) ->
  getRecognizedSpeakers text = spec_extractSpeakers text.
Proof.
  intros Htags.
  rewrite getRecognizedSpeakers_foldl.
  unfold spec_extractSpeakers. rewrite foldl_omap_set_add.
  unfold names, matchAll.
  rewrite (scan_lines (length (Str.chars text)) _ (Nat.le_refl _) Htags).
  reflexivity.
Qed.

Lemma getRecognizedSpeakers_line_by_line_witness :
  getRecognizedSpeakers
    ("Joe: Hello." +:+ Str.of_chars ["010"%char] +:+ "Jane: Hi!"
     +:+ Str.of_chars ["010"%char] +:+ "Joe:")
  = spec_extractSpeakers
      ("Joe: Hello." +:+ Str.of_chars ["010"%char] +:+ "Jane: Hi!"
       +:+ Str.of_chars ["010"%char] +:+ "Joe:").
Proof.
  apply (getRecognizedSpeakers_line_by_line
           ("Joe: Hello." +:+ Str.of_chars ["010"%char] +:+ "Jane: Hi!"
            +:+ Str.of_chars ["010"%char] +:+ "Joe:")).
  cbn. repeat split.
Defined.

(** *** The roster from the script analysis *)

Lemma length_newSpeakerConfigs (now : Z) (characterNames : list string) :
  length (newSpeakerConfigs now characterNames)
  = Nat.min Prompt.MAX_SPEAKERS (length characterNames).
Proof.
  unfold newSpeakerConfigs. rewrite length_imap, length_take. reflexivity.
Qed.

(** At most [MAX_SPEAKERS] names are kept, the later ones are dropped,
    and the [i]-th kept name gets the voice [defaultVoices[i mod 5]]. *)
Theorem newSpeakerConfigs_spec (now : Z) (characterNames : list string) :
  length (newSpeakerConfigs now characterNames) <= Prompt.MAX_SPEAKERS /\
  map name (newSpeakerConfigs now characterNames)
    = take Prompt.MAX_SPEAKERS characterNames /\
  (forall i config,
      newSpeakerConfigs now characterNames !! i = Some config ->
      characterNames !! i = Some (name config) /\
      defaultVoices !! (i mod length defaultVoices) = Some (voice config)).
Proof.
  split; [rewrite length_newSpeakerConfigs; lia|].
  split.
  { unfold newSpeakerConfigs.
    generalize (take Prompt.MAX_SPEAKERS characterNames). intros l.
    apply list_eq. intros i.
    rewrite list_lookup_fmap, list_lookup_imap.
    destruct (l !! i); reflexivity. }
  intros i config Hi. unfold newSpeakerConfigs in Hi.
  rewrite list_lookup_imap in Hi.
  destruct (take Prompt.MAX_SPEAKERS characterNames !! i) as [n|] eqn:Hn;
    [|discriminate].
  cbv [fmap option_fmap option_map] in Hi.
  apply (inj Some) in Hi. subst config.
  pose proof (lookup_lt_Some _ _ _ Hn) as Hlt.
  rewrite length_take in Hlt.
  rewrite lookup_take_lt in Hn by (unfold Prompt.MAX_SPEAKERS in *; lia).
  split; [exact Hn|].
  assert (i mod length defaultVoices < length defaultVoices) as Hmod
    by (apply Nat.mod_upper_bound; discriminate).
  destruct (lookup_lt_is_Some_2 _ _ Hmod) as [v Hv].
  rewrite Hv. reflexivity.
Qed.

Example roster_Joe_Jane :
  map (fun c => (name c, voice c)) (newSpeakerConfigs 0 ["Joe"; "Jane"])
  = [("Joe", "Kore"); ("Jane", "Zephyr")].
Proof. reflexivity. Qed.

End SpeakersFacts.

(** ** The standalone TTS service *)

Module TtsServiceFacts.

Import TtsService.
Local Open Scope Z_scope.

(** *** Writes at the end of what is written so far *)

Lemma setUint32_at (pre rest : list byte) (pos : nat) (z : Z) :
  pos = length pre -> (4 <= length rest)%nat ->
  JS.setUint32 (pre ++ rest) pos (JS.of_Z z)
  = Ok ((pre ++ JS.le32 (z mod 2 ^ 32)) ++ drop 4 rest).
Proof.
  intros -> H. unfold JS.setUint32.
  rewrite WavFacts.ToUint32_of_Z, WavFacts.store_prefix by exact H.
  rewrite app_assoc. reflexivity.
Qed.

Lemma setUint16_at (pre rest : list byte) (pos : nat) (z : Z) :
  pos = length pre -> (2 <= length rest)%nat ->
  JS.setUint16 (pre ++ rest) pos (JS.of_Z z)
  = Ok ((pre ++ JS.le16 (z mod 2 ^ 16)) ++ drop 2 rest).
Proof.
  intros -> H. unfold JS.setUint16.
  rewrite WavFacts.ToUint16_of_Z, WavFacts.store_prefix by exact H.
  rewrite app_assoc. reflexivity.
Qed.

Lemma setUint8_at (pre rest : list byte) (pos : nat) (c : ascii) :
  pos = length pre -> (1 <= length rest)%nat ->
  setUint8 (pre ++ rest) pos (JS.of_nat (nat_of_ascii c))
  = Ok ((pre ++ [char_byte c]) ++ drop 1 rest).
Proof.
  intros -> H. unfold setUint8, JS.ToUint, JS.of_nat, JS.of_Z.
  rewrite JSFacts.truncate_inject_Z.
  change (2 ^ 8) with 256. rewrite JSFacts.byte_of_Z_mod.
  rewrite WavFacts.store_prefix by exact H.
  rewrite app_assoc. reflexivity.
Qed.

Lemma writeString_from_at (s : list ascii) :
  forall (pre rest : list byte) (offset i : nat),
    (offset + i)%nat = length pre -> (length s <= length rest)%nat ->
    writeString_from (pre ++ rest) offset i s
    = Ok ((pre ++ map char_byte s) ++ drop (length s) rest).
Proof.
  induction s as [|c s IH]; intros pre rest offset i Hpos Hlen.
  - cbn [writeString_from map length]. rewrite app_nil_r, drop_0.
    reflexivity.
  - cbn [length] in Hlen. cbn [writeString_from].
    rewrite setUint8_at by (exact Hpos || lia).
    cbn [mbind result_bind JS.bind].
    rewrite IH.
    + rewrite drop_drop. cbn [map length].
      rewrite <- !app_assoc. reflexivity.
    + rewrite length_app. cbn [length]. lia.
    + rewrite length_drop. lia.
Qed.

Lemma writeString_at (pre rest : list byte) (offset : nat) (s : string) :
  offset = length pre -> (length (Str.chars s) <= length rest)%nat ->
  writeString (pre ++ rest) offset s
  = Ok ((pre ++ map char_byte (Str.chars s))
        ++ drop (length (Str.chars s)) rest).
Proof.
  intros Hpos Hlen. unfold writeString.
  apply writeString_from_at; [lia|exact Hlen].
Qed.

Lemma length_bytes_of_samples (l : list Z) :
  length (Pcm.bytes_of_samples l) = (2 * length l)%nat.
Proof.
  unfold Pcm.bytes_of_samples.
  induction l as [|v l IH]; [reflexivity|].
  cbn [map concat]. rewrite length_app, IH, JSFacts.length_le16.
  cbn [length]. lia.
Qed.

Lemma length_pcm16 (channel : list num) :
  length (pcm16 channel) = (2 * length channel)%nat.
Proof. unfold pcm16. rewrite length_bytes_of_samples, length_map. lia. Qed.

(** *** The blob *)

Ltac side :=
  first [reflexivity
        |rewrite ?length_drop, ?length_replicate;
         cbn [Str.chars list_ascii_of_string length]; lia].


Lemma convertAudioBufferToWavBlob_spec (rate : Z) (first : list num)
      (others : list (list num)) :
  let a := mkAudioBuffer rate (first :: others) in
  let len := (length first * S (length others) * 2)%nat in
  convertAudioBufferToWavBlob a
  = Ok (Wav.header (S (length others)) rate (len + 44)
        ++ pcm16 first
        ++ replicate (2 * length first * length others) x00).
Proof.
  intros a len. unfold convertAudioBufferToWavBlob.
  change (JS.frames a) with (length first).
  change (JS.numberOfChannels a) with (S (length others)).
  change (JS.sampleRate a) with rate.
  change (JS.getChannelData a 0) with first.
  fold len. cbv zeta.
  change (replicate (44 + len) x00)
    with ([] ++ replicate (44 + len) x00).
  unfold JS.of_nat.
  do 13 (first [rewrite writeString_at by side
               |rewrite setUint32_at by side
               |rewrite setUint16_at by side];
         cbn [mbind result_bind JS.bind]).
  assert (map char_byte (Str.chars "RIFF") = JS.le32 0x46464952) as ->
    by reflexivity.
  assert (map char_byte (Str.chars "WAVE") = JS.le32 0x45564157) as ->
    by reflexivity.
  assert (map char_byte (Str.chars "fmt ") = JS.le32 0x20746d66) as ->
    by reflexivity.
  assert (map char_byte (Str.chars "data") = JS.le32 0x61746164) as ->
    by reflexivity.
  rewrite !drop_drop, drop_replicate.
  change (length (Str.chars _)) with 4%nat.
  replace (44 + len - _)%nat with len by lia.
  change (16 / 8) with 2. change (16 mod 2 ^ 32) with 16.
  change (1 mod 2 ^ 16) with 1. change (16 mod 2 ^ 16) with 16.
  replace (Z.of_nat (36 + len)) with (Z.of_nat (len + 44) - 8) by lia.
  replace (Z.of_nat len) with (Z.of_nat (len + 44) - 44) by lia.
  replace (rate * Z.of_nat (S (length others)) * 2)
    with (rate * 2 * Z.of_nat (S (length others))) by lia.
  rewrite app_nil_l, <- !app_assoc.
  change (JS.le32 1179011410 ++ _)
    with (Wav.header (S (length others)) rate (len + 44)
          ++ replicate len x00).
  set (h := Wav.header _ _ _).
  assert (length h = 44%nat) as Hh by reflexivity.
  replace len
    with (2 * length first + 2 * length first * length others)%nat
    by (subst len; lia).
  rewrite replicate_add, <- Hh.
  rewrite (PcmFacts.floatTo16BitPCM_spec first h
             (replicate (2 * length first) x00)
             (replicate (2 * length first * length others) x00))
    by apply length_replicate.
  reflexivity.
Qed.

(** The WAV blob of the standalone service, for a buffer of one or more
    channels: [44 + frames * channels * 2] bytes, the same 44-byte header
    that [bufferToWave] writes, then the 16-bit samples of channel 0
    alone; the room of the other channels stays zero. *)
Theorem convertAudioBufferToWavBlob_layout (rate : Z) (first : list num)
        (others : list (list num)) :
  exists bytes,
    convertAudioBufferToWavBlob (mkAudioBuffer rate (first :: others))
      = Ok bytes /\
    length bytes
      = (44 + length first * S (length others) * 2)%nat /\
    take 44 bytes
      = Wav.header (S (length others)) rate
          (length first * S (length others) * 2 + 44) /\
    drop 44 bytes
      = pcm16 first ++ replicate (2 * length first * length others) x00 /\
    (others = [] -> drop 44 bytes = pcm16 first).
Proof.
  eexists. split; [apply convertAudioBufferToWavBlob_spec|].
  set (h := Wav.header _ _ _).
  assert (length h = 44%nat) as Hh by reflexivity.
  split.
  { rewrite !length_app, Hh, length_pcm16, length_replicate. lia. }
  split; [rewrite <- Hh; apply take_app_length|].
  rewrite <- Hh, drop_app_length.
  split; [reflexivity|].
  intros ->. cbn [length]. rewrite Nat.mul_0_r. apply app_nil_r.
Qed.

Section ServiceRuns.

Variable GoogleGenAI : result unit.
Variable generateContent : Request -> result (option string).
Variable decode : string -> result (list byte).
Variable decodeAudioData : list byte -> Z -> nat -> result AudioBuffer.
Variable platform_message : exn -> string.

(** [generateTTS] in closed form: nothing is sent when the client cannot
    be made; otherwise one request goes out, with the single-voice
    configuration. *)
Lemma generateTTS_closed_form (text voice : string)
      (settings : Speakers.SpeechSettings) :
  generateTTS GoogleGenAI generateContent decode decodeAudioData
    platform_message text voice settings
  = match GoogleGenAI with
    | Throw error => (Throw error, [])
    | Ok _ =>
        (match synthesize generateContent decode decodeAudioData
                 (mkRequest MODEL_NAME text
                    (Speakers.voiceConfig
                       (Speakers.mkVoiceConfig voice settings))) with
         | Ok audioData => Ok audioData
         | Throw error =>
             Throw (Error ("Failed to generate audio: "
                           +:+ message_of platform_message error))
         end,
         [mkRequest MODEL_NAME text
            (Speakers.voiceConfig
               (Speakers.mkVoiceConfig voice settings))])
    end.
Proof.
  unfold TtsService.generateTTS, Speakers.generateTTS_speechConfig.
  rewrite SpeakersFacts.collect_speakers_empty.
  destruct GoogleGenAI; [|reflexivity].
  destruct (Speakers.parseMultiSpeakerText text); reflexivity.
Qed.

Lemma synthesize_ok (request : Request) (audioData : list byte) :
  synthesize generateContent decode decodeAudioData request
  = Ok audioData ->
  exists data bytes audioBuffer,
    generateContent request = Ok (Some data) /\
    Str.falsy data = false /\
    decode data = Ok bytes /\
    decodeAudioData bytes OUTPUT_SAMPLE_RATE OUTPUT_CHANNELS
      = Ok audioBuffer /\
    convertAudioBufferToWavBlob audioBuffer = Ok audioData.
Proof.
  unfold TtsService.synthesize.
  destruct (generateContent request) as [[data|]|];
    cbn [mbind result_bind JS.bind]; try discriminate.
  destruct (Str.falsy data) eqn:Hdata; [discriminate|].
  destruct (decode data) as [bytes|] eqn:Hbytes;
    cbn [mbind result_bind JS.bind]; [|discriminate].
  destruct (decodeAudioData bytes OUTPUT_SAMPLE_RATE OUTPUT_CHANNELS)
    as [audioBuffer|] eqn:Hbuf; cbn [mbind result_bind JS.bind];
    [|discriminate].
  intros H. exists data, bytes, audioBuffer. auto.
Qed.

(** When the client cannot be made, [generateTTS] sends nothing and
    throws the client's error as it is.  Otherwise it sends one request,
    for the whole text and with the caller's voice and settings; when it
    succeeds the blob is the WAV image of the decoded answer; whatever
    goes wrong from the request on, the error it throws is an [Error]
    whose message starts with the words "Failed to generate audio: ",
    and an answer without audio gives the message "No audio data
    received from Gemini API." after them. *)
Theorem generateTTS_outcome (text voice : string)
        (settings : Speakers.SpeechSettings) :
  let request :=
    mkRequest MODEL_NAME text
      (Speakers.voiceConfig (Speakers.mkVoiceConfig voice settings)) in
  match GoogleGenAI with
  | Throw error =>
      generateTTS GoogleGenAI generateContent decode decodeAudioData
        platform_message text voice settings
      = (Throw error, [])
  | Ok _ =>
      snd (generateTTS GoogleGenAI generateContent decode decodeAudioData
             platform_message text voice settings) = [request] /\
      match fst (generateTTS GoogleGenAI generateContent decode
                   decodeAudioData platform_message text voice settings)
      with
      | Ok audioData =>
          exists data bytes audioBuffer,
            generateContent request = Ok (Some data) /\
            Str.falsy data = false /\
            decode data = Ok bytes /\
            decodeAudioData bytes 24000 1 = Ok audioBuffer /\
            convertAudioBufferToWavBlob audioBuffer = Ok audioData
      | Throw error =>
          exists message,
            error = Error ("Failed to generate audio: " +:+ message)
      end /\
      (generateContent request = Ok None \/
       generateContent request = Ok (Some "") ->
       fst (generateTTS GoogleGenAI generateContent decode
              decodeAudioData platform_message text voice settings)
       = Throw (Error ("Failed to generate audio: "
                       +:+ "No audio data received from Gemini API.")))
  end.
Proof.
  intros request. rewrite generateTTS_closed_form. fold request.
  destruct GoogleGenAI as [client|error]; [|reflexivity].
  cbn [fst snd]. split; [reflexivity|]. split.
  - destruct (synthesize generateContent decode decodeAudioData request)
      as [audioData|error] eqn:Hrun.
    + apply synthesize_ok. exact Hrun.
    + eexists. reflexivity.
  - unfold TtsService.synthesize. intros [-> | ->]; reflexivity.
Qed.

End ServiceRuns.

End TtsServiceFacts.

(** ** The standalone page *)

Module AppFacts.

Import App.
Local Open Scope string_scope.
Local Open Scope list_scope.

Lemma foldl_set_add_not_nil (l acc : list string) :
  acc <> [] -> foldl Speakers.set_add acc l <> [].
Proof.
  revert acc. induction l as [|x l IH]; intros acc Hacc; [exact Hacc|].
  cbn [foldl]. apply IH. unfold Speakers.set_add.
  destruct (bool_decide (x ∈ acc)); [exact Hacc|].
  destruct acc; [congruence|discriminate].
Qed.

(** The notice about speaker tags shows exactly when
    [getRecognizedSpeakers] finds a speaker, which is exactly when
    [generateTTS] takes its multi-speaker branch: [hasMultiSpeakerPattern],
    [getRecognizedSpeakers] and [parseMultiSpeakerText] agree on whether
    the text has speaker lines. *)
Theorem hasMultiSpeakerPattern_recognized (text : string) :
  (hasMultiSpeakerPattern text = true
   <-> Speakers.getRecognizedSpeakers text <> []) /\
  (hasMultiSpeakerPattern text = true
   <-> Speakers.parseMultiSpeakerText text <> []).
Proof.
  rewrite SpeakersFacts.getRecognizedSpeakers_foldl.
  unfold hasMultiSpeakerPattern, Speakers.names,
    Speakers.parseMultiSpeakerText.
  destruct (Speakers.matchAll text) as [|m ms]; cbn [map foldl].
  - split; split; (discriminate || congruence).
  - split; (split; [intros _|reflexivity]); [|discriminate].
    apply foldl_set_add_not_nil. discriminate.
Qed.

Section PageRuns.

Variable GoogleGenAI : result unit.
Variable generateContent :
  TtsService.Request -> result (option string).
Variable decode : string -> result (list byte).
Variable decodeAudioData : list byte -> Z -> nat -> result AudioBuffer.
Variable platform_message : exn -> string.

(** [handleGenerateAudio] on a blank text sends nothing and only sets the
    error.  Otherwise it ends with [isLoading] off.  When the client
    cannot be made, nothing is sent, there is no audio, and the error is
    the client's message behind the words "Failed to generate audio: ".
    When it can, one request is sent with the selected voice, and the
    page ends with either the new audio and no error, or no audio and an
    error that carries the words "Failed to generate audio: " twice,
    once from the service and once from the page. *)
Theorem handleGenerateAudio_outcome (s : State) :
  let '(s', sent) :=
    handleGenerateAudio GoogleGenAI generateContent decode
      decodeAudioData platform_message s in
  inputText s' = inputText s /\
  selectedVoice s' = selectedVoice s /\
  speechSettings s' = speechSettings s /\
  if Str.falsy (Str.trim (inputText s)) then
    sent = [] /\
    audioUrl s' = audioUrl s /\
    isLoading s' = isLoading s /\
    error s' = Some "Please enter some text to generate audio."
  else
    isLoading s' = false /\
    match GoogleGenAI with
    | Throw clientError =>
        sent = [] /\
        audioUrl s' = None /\
        error s'
        = Some ("Failed to generate audio: "
                +:+ match clientError with
                    | Error message => message
                    | _ => platform_message clientError
                    end)
    | Ok _ =>
        sent = [TtsService.mkRequest TtsService.MODEL_NAME (inputText s)
                  (Speakers.voiceConfig
                     (Speakers.mkVoiceConfig (selectedVoice s)
                        (speechSettings s)))] /\
        ((exists audioData,
             audioUrl s' = Some audioData /\ error s' = None)
         \/
         (audioUrl s' = None /\
          exists message,
            error s'
            = Some ("Failed to generate audio: Failed to generate audio: "
                    +:+ message)))
    end.
Proof.
  unfold App.handleGenerateAudio.
  destruct (Str.falsy (Str.trim (inputText s))); [cbn; auto 10|].
  rewrite TtsServiceFacts.generateTTS_closed_form.
  destruct GoogleGenAI as [client|clientError];
    cbn [inputText selectedVoice speechSettings audioUrl isLoading error].
  - destruct (TtsService.synthesize _ _ _ _) as [audioData|err];
      cbn [inputText selectedVoice speechSettings audioUrl isLoading
           error].
    + repeat split. left. eauto.
    + repeat split. right. split; [reflexivity|].
      cbn [TtsService.message_of]. eexists. reflexivity.
  - repeat split.
Qed.

End PageRuns.

End AppFacts.

(** ** The generated audio as the player gets it *)

Module PlayerFacts.

Import Player.
Local Open Scope Z_scope.

Lemma ToInt16_of_Z (z : Z) :
  -32768 <= z <= 32767 -> JS.ToInt16 (JS.of_Z z) = z.
Proof.
  intros Hz. unfold JS.of_Z.
  rewrite JSFacts.ToInt16_truncate; rewrite JSFacts.truncate_inject_Z; lia.
Qed.

Lemma even_half (n : nat) : Nat.even n = true -> n = (2 * (n / 2))%nat.
Proof.
  intros He. apply Nat.even_spec in He as [k ->].
  rewrite Nat.mul_comm, Nat.div_mul by lia. lia.
Qed.

(** One decode and one [bufferToWave] conversion on a sample. *)
Lemma stored_sample_pcm_float (v : Z) :
  -32768 <= v <= 32767 ->
  Wav.stored_sample (Pcm.pcm_float v) = wave_requantize v.
Proof.
  intros Hv. unfold Wav.stored_sample, Pcm.wave_sample.
  destruct (PcmFacts.pcm_float_Fin v) as (q & -> & Hq).
  rewrite PcmFacts.clamp_Fin.
  assert (Pcm.clampQ q == v # 32768)%Q as Hc.
  { rewrite PcmFacts.clampQ_id; [exact Hq|]. rewrite Hq.
    unfold Qle. simpl. lia. }
  unfold JS.of_Z, JS.add. rewrite PcmFacts.ltb_Fin.
  unfold wave_requantize.
  destruct (PcmFacts.Qltb_spec ((1 # 2) + Pcm.clampQ q) (inject_Z 0))
    as [Hneg|Hpos]; cbn [JS.mul].
  - rewrite Hc in Hneg. unfold Qlt in Hneg. simpl in Hneg.
    destruct (Z.ltb_spec v (-16384)); [|lia].
    rewrite JSFacts.ToInt32_truncate;
      rewrite (PcmFacts.truncate_Qeq _ (inject_Z v))
        by (rewrite Hc; unfold Qeq; simpl; lia);
      rewrite JSFacts.truncate_inject_Z; [|lia].
    apply (ToInt16_of_Z v). lia.
  - rewrite Hc in Hpos. unfold Qlt in Hpos. simpl in Hpos.
    destruct (Z.ltb_spec v (-16384)); [lia|].
    assert (JS.truncate (Pcm.clampQ q * inject_Z 32767)
            = Z.quot (v * 32767) 32768) as Ht.
    { rewrite (PcmFacts.truncate_Qeq _ (v * 32767 # 32768))
        by (rewrite Hc; unfold Qeq; simpl; lia).
      reflexivity. }
    assert (Z.quot (v * 32767) 32768
            = if v <? 0 then v + 1 else if 0 <? v then v - 1 else 0) as Hq'.
    { destruct (Z.ltb_spec v 0).
      - replace (v * 32767) with (- ((- v) * 32767)) by lia.
        rewrite Z.quot_opp_l by lia.
        rewrite Z.quot_div_nonneg by lia.
        rewrite <- (Z.div_unique ((- v) * 32767) 32768 (- v - 1)
                      (32768 + v)) by lia.
        lia.
      - destruct (Z.ltb_spec 0 v).
        + rewrite Z.quot_div_nonneg by lia.
          symmetry. apply (Z.div_unique _ _ _ (32768 - v)); lia.
        + assert (v = 0) by lia. subst v. reflexivity. }
    rewrite JSFacts.ToInt32_truncate; rewrite Ht, Hq'.
    + apply ToInt16_of_Z.
      destruct (Z.ltb_spec v 0); [lia|]. destruct (Z.ltb_spec 0 v); lia.
    + destruct (Z.ltb_spec v 0); [lia|]. destruct (Z.ltb_spec 0 v); lia.
Qed.

Lemma wave_requantize_range (v : Z) :
  -32768 <= v <= 32767 -> -32768 <= wave_requantize v <= 32767.
Proof.
  unfold wave_requantize. intros Hv.
  destruct (Z.ltb_spec v (-16384)); [lia|].
  destruct (Z.ltb_spec v 0); [lia|]. destruct (Z.ltb_spec 0 v); lia.
Qed.

Lemma wave_requantize_fixed (v : Z) :
  wave_requantize v = v <-> v = 0 \/ v < -16384.
Proof.
  unfold wave_requantize.
  destruct (Z.ltb_spec v (-16384)); [lia|].
  destruct (Z.ltb_spec v 0); [lia|]. destruct (Z.ltb_spec 0 v); lia.
Qed.

Lemma map_wave_requantize_fixed (l : list Z) :
  map wave_requantize l = l <-> Forall (fun v => v = 0 \/ v < -16384) l.
Proof.
  induction l as [|v l IH]; [split; auto|].
  cbn [map]. split.
  - intros [= Hv Hl]. constructor; [|apply IH; exact Hl].
    apply wave_requantize_fixed. exact Hv.
  - intros H. inversion H as [|? ? Hv Hl]; subst.
    f_equal; [|apply IH; exact Hl].
    apply wave_requantize_fixed. exact Hv.
Qed.

(** The interleaved data of a single channel. *)
Lemma interleaved_mono (channel : list num) :
  Wav.interleaved [channel] (length channel)
  = Pcm.bytes_of_samples (map Wav.stored_sample channel).
Proof.
  unfold Wav.interleaved, Wav.interleaved_from, Pcm.bytes_of_samples.
  f_equal. rewrite <- (PcmFacts.map_seq_lookup channel
                         (fun i => Wav.stored_sample
                                     (Wav.read_sample channel i))
                         Wav.stored_sample).
  - rewrite map_map. apply map_ext. intros i.
    unfold Wav.frame_bytes. cbn [map concat]. apply app_nil_r.
  - intros i x Hx. unfold Wav.read_sample. rewrite Hx. reflexivity.
Qed.

Lemma playable_wave_closed_form (decodedBytes : list byte) :
  Nat.even (length decodedBytes) = true -> decodedBytes <> [] ->
  Z.of_nat (length decodedBytes / 2) < 2 ^ 32 ->
  playable_wave decodedBytes
  = Ok (Some (Ok (Wav.header 1 24000 (length decodedBytes + 44)
                  ++ Pcm.bytes_of_samples
                       (map wave_requantize
                            (JS.int16_pairs decodedBytes))))).
Proof.
  intros He Hne Hbound.
  assert (1 <= length decodedBytes / 2)%nat as Hlen.
  { destruct decodedBytes as [|b0 [|b1 rest]];
      [congruence|discriminate|].
    cbn [length].
    change (S (S (length rest))) with (1 * 2 + length rest)%nat.
    rewrite Nat.add_comm, Nat.div_add by lia. lia. }
  pose proof (even_half _ He) as Hhalf.
  unfold playable_wave.
  rewrite PcmFacts.decodeAudioData_even;
    rewrite ?Nat.div_1_r; try lia; try exact He;
    try (unfold JS.minSampleRate, JS.maxSampleRate; lia).
  cbn [mbind result_bind JS.bind seq map].
  unfold Wav.bufferToWave.
  set (n := (length decodedBytes / 2)%nat) in *.
  set (channel := Pcm.planar (JS.int16_pairs decodedBytes) 1 n 0).
  assert (length channel = n) as Hch.
  { subst channel. unfold Pcm.planar. rewrite length_map, length_seq.
    reflexivity. }
  change (JS.frames (mkAudioBuffer 24000 [channel])) with (length channel).
  rewrite WavFacts.bufferToWave_fuel_spec by (cbn; lia).
  cbn [JS.numberOfChannels JS.channels JS.sampleRate length].
  rewrite interleaved_mono.
  do 4 f_equal.
  - f_equal. lia.
  - f_equal.
    pose proof (PcmFacts.int16_pairs_range decodedBytes) as Hr.
    pose proof (PcmFacts.length_int16_pairs decodedBytes) as Hl.
    fold n in Hl. subst channel. unfold Pcm.planar. rewrite <- Hl.
    remember (JS.int16_pairs decodedBytes) as l eqn:El. clear El Hl.
    rewrite map_map. apply PcmFacts.map_seq_lookup. intros i v Hv.
    unfold Pcm.sample_at. rewrite Nat.mul_1_r, Nat.add_0_r, Hv.
    apply stored_sample_pcm_float.
    exact (proj1 (Forall_lookup _ l) Hr i v Hv).
Qed.

(** The WAV that [generateAudio] hands to the player, and [downloadWav]
    to the user, for the mono 16-bit PCM the model returned (an even,
    positive number of bytes): the 44-byte header for one channel at
    24000 Hz, followed by the received samples with every sample from
    -16384 to 32767 other than zero moved one step toward zero.  The
    data equals the received bytes exactly when every sample is zero or
    below -16384. *)
Theorem playable_wave_requantizes (decodedBytes : list byte) :
  Nat.even (length decodedBytes) = true -> decodedBytes <> [] ->
  Z.of_nat (length decodedBytes / 2) < 2 ^ 32 ->
  exists wave,
    playable_wave decodedBytes = Ok (Some (Ok wave)) /\
    length wave = (44 + length decodedBytes)%nat /\
    take 44 wave = Wav.header 1 24000 (length decodedBytes + 44) /\
    drop 44 wave
      = Pcm.bytes_of_samples
          (map wave_requantize (JS.int16_pairs decodedBytes)) /\
    (drop 44 wave = decodedBytes <->
     Forall (fun v => v = 0 \/ v < -16384) (JS.int16_pairs decodedBytes)).
Proof.
  intros He Hne Hbound. eexists.
  split; [apply playable_wave_closed_form; assumption|].
  set (h := Wav.header _ _ _).
  assert (length h = 44%nat) as Hh by reflexivity.
  pose proof (PcmFacts.length_int16_pairs decodedBytes) as Hl.
  pose proof (even_half _ He) as Hhalf.
  split.
  { rewrite length_app, Hh, TtsServiceFacts.length_bytes_of_samples,
      length_map, Hl. lia. }
  split; [rewrite <- Hh; apply take_app_length|].
  rewrite <- Hh, drop_app_length. split; [reflexivity|].
  pose proof (PcmFacts.int16_pairs_range decodedBytes) as Hr.
  rewrite <- map_wave_requantize_fixed. split.
  - intros H. apply (f_equal JS.int16_pairs) in H.
    rewrite PcmFacts.int16_pairs_bytes in H; [exact H|].
    apply Forall_fmap. eapply Forall_impl; [exact Hr|].
    intros v Hv. apply wave_requantize_range. exact Hv.
  - intros ->. apply PcmFacts.bytes_of_int16_pairs. exact He.
Qed.

Lemma playable_wave_requantizes_witness :
  exists wave,
    playable_wave [xff; xff; x05; x00; x00; xc0] = Ok (Some (Ok wave)) /\
    length wave = 50%nat /\
    take 44 wave = Wav.header 1 24000 50 /\
    drop 44 wave
      = Pcm.bytes_of_samples
          (map wave_requantize
               (JS.int16_pairs [xff; xff; x05; x00; x00; xc0])) /\
    (drop 44 wave = [xff; xff; x05; x00; x00; xc0] <->
     Forall (fun v => v = 0 \/ v < -16384)
            (JS.int16_pairs [xff; xff; x05; x00; x00; xc0])).
Proof.
  apply (playable_wave_requantizes [xff; xff; x05; x00; x00; xc0]).
  - reflexivity.
  - discriminate.
  - reflexivity.
Defined.

End PlayerFacts.

(** ** Runs of [generateAudio] *)

Module GenerationFacts.

Import Prompt Validation.
Local Open Scope string_scope.

Lemma append_assoc (a b c : string) : (a +:+ b) +:+ c = a +:+ (b +:+ c).
Proof.
  induction a as [|x a IH]; [reflexivity|].
  change (String x ((a +:+ b) +:+ c) = String x (a +:+ (b +:+ c))).
  f_equal. exact IH.
Qed.

Section Runs.

Variable generateContent : Request -> result (option string).
Variable atob : string -> result (list byte).
Variable abortedDuringCall : bool.
Variable directorNotes : bool -> string -> string.

Lemma story_mode_test (mode : string) :
  String.eqb mode "multi" || String.eqb mode "ai" = true
  <-> mode = "multi" \/ mode = "ai".
Proof.
  destruct (String.eqb_spec mode "multi") as [Hm|Hm];
    destruct (String.eqb_spec mode "ai") as [Ha|Ha];
    cbn; intuition congruence.
Qed.

(** [request_audio] either throws before any call, on a rejected page,
    or makes one call. *)
Lemma request_audio_cases (page : Page) :
  (rejected page /\
   exists message,
     request_audio generateContent directorNotes page []
     = throw message []) \/
  (~ rejected page /\
   exists request,
     request_audio generateContent directorNotes page []
     = call generateContent request []).
Proof.
  unfold request_audio, rejected.
  destruct (Str.falsy (Str.trim (script page))) eqn:Hblank;
    [left; eauto|].
  destruct (activeTab page) eqn:Htab.
  - right. split; [intros [|[]]; congruence|eauto].
  - destruct (String.eqb (storyMode page) "multi"
              || String.eqb (storyMode page) "ai") eqn:Hmode.
    + apply story_mode_test in Hmode.
      destruct (Nat.ltb_spec (length (speakerConfigsForGeneration page))
                  MIN_SPEAKERS).
      * left. split; [right; auto|eauto].
      * right. split; [intros [|(_ & _ & ?)]; [congruence|lia]|eauto].
    + right. split; [|eauto].
      intros [|(_ & Hm & _)]; [congruence|].
      apply story_mode_test in Hm. congruence.
  - right. split; [intros [|[]]; congruence|eauto].
Qed.

(** A run of [generateAudio] calls the model at most once, and not at
    all exactly when the page is rejected: a blank script, or a
    multi-speaker or AI-director story with fewer than [MIN_SPEAKERS]
    speakers. *)
Theorem generateAudio_calls_once (page : Page) :
  (length (snd (generateAudio generateContent atob abortedDuringCall
                  directorNotes page)) <= 1)%nat /\
  (snd (generateAudio generateContent atob abortedDuringCall
          directorNotes page) = []
   <-> rejected page).
Proof.
  destruct (request_audio_cases page)
    as [(Hrej & message & Hrun)|(Hok & request & Hrun)].
  - rewrite (PromptFacts.run_after_throw generateContent atob
               abortedDuringCall directorNotes page message Hrun).
    cbn. split; [lia|tauto].
  - rewrite (PromptFacts.run_after_call generateContent atob
               abortedDuringCall directorNotes page request Hrun).
    cbn. split; [lia|]. split; [discriminate|contradiction].
Qed.

(** What a multi-speaker or AI-director story run reads from the page:
    the script, the mode, the speakers and the creative toggle. *)
Theorem story_run_ignores_emotion_lab (page other : Page) :
  activeTab page = story -> activeTab other = story ->
  storyMode page = "multi" \/ storyMode page = "ai" ->
  script other = script page ->
  storyMode other = storyMode page ->
  speakerConfigsForGeneration other = speakerConfigsForGeneration page ->
  aiCreativeToggle other = aiCreativeToggle page ->
  generateAudio generateContent atob abortedDuringCall directorNotes other
  = generateAudio generateContent atob abortedDuringCall directorNotes
      page.
Proof.
  intros Htab Htab' Hmode Hscript Hmode' Hspeakers Hcreative.
  unfold generateAudio. f_equal.
  unfold mbind, Gen_bind.
  assert (request_audio generateContent directorNotes other
          = request_audio generateContent directorNotes page) as ->;
    [|reflexivity].
  unfold request_audio.
  rewrite Htab, Htab', Hscript, Hmode', Hspeakers, Hcreative.
  apply story_mode_test in Hmode. rewrite Hmode. reflexivity.
Qed.

(** The prompt of the request, when the script goes out unchanged. *)
Lemma request_audio_verbatim (page : Page) :
  ~ (activeTab page = story /\ storyMode page = "ai") ->
  ~ rejected page ->
  exists lead voices,
    request_audio generateContent directorNotes page []
    = call generateContent
        (mkRequest tts_model (lead +:+ script page) voices) [].
Proof.
  intros Hai Hok. unfold request_audio.
  destruct (Str.falsy (Str.trim (script page))) eqn:Hblank.
  { exfalso. apply Hok. left. exact Hblank. }
  destruct (activeTab page) eqn:Htab.
  - rewrite PromptFacts.tts_prompt_closed_form.
    exists ("TTS the following text: "
            +:+ (if hinglishToggle page then hinglish_hint else "")
            +:+ default ""
                  (Obj.get_text narrationStylePromptMap
                     (narrationStyleSelect page))
            +:+ getEmotionPromptString (emotionControls page)),
           (SingleVoice (voiceSelect page)).
    rewrite 3!append_assoc. reflexivity.
  - destruct (String.eqb_spec (storyMode page) "ai") as [Ha|Ha];
      [exfalso; apply Hai; auto|].
    destruct (String.eqb (storyMode page) "multi") eqn:Hm; cbn [orb].
    + destruct (Nat.ltb_spec (length (speakerConfigsForGeneration page))
                  MIN_SPEAKERS) as [Hfew|_].
      { exfalso. apply Hok. right. split; [exact Htab|].
        split; [|exact Hfew]. left.
        apply String.eqb_eq. exact Hm. }
      exists ("TTS the following conversation between "
              +:+ Str.join " and "
                    (map name (speakerConfigsForGeneration page))
              +:+ ": "),
             (MultiSpeaker (speakerConfigsForGeneration page)).
      rewrite 2!append_assoc. reflexivity.
    + exists ("TTS the following story: "
              +:+ getEmotionPromptString (emotionControls page)),
             (SingleVoice (storyVoiceSelect page)).
      rewrite append_assoc. reflexivity.
  - exists (getEmotionPromptString (emotionControls page)
            +:+ "Recite the following " +:+ genreSelect page +:+ " "
            +:+ default "undefined"
                  (Obj.get_text poetryAccentPromptMap (regionSelect page))
            +:+ ": "),
           (SingleVoice (voiceSelect page)).
    rewrite 5!append_assoc. reflexivity.
Qed.

(** Outside the AI-director mode the script reaches the model unchanged:
    the prompt of the request a run sends ends with the script as it
    stands in the editor. *)
Theorem script_sent_verbatim (page : Page) :
  ~ (activeTab page = story /\ storyMode page = "ai") ->
  ~ rejected page ->
  exists lead voices,
    snd (generateAudio generateContent atob abortedDuringCall
           directorNotes page)
    = [mkRequest tts_model (lead +:+ script page) voices].
Proof.
  intros Hai Hok.
  destruct (request_audio_verbatim page Hai Hok) as (lead & voices & Hrun).
  exists lead, voices.
  apply (PromptFacts.run_after_call generateContent atob abortedDuringCall
           directorNotes page _ Hrun).
Qed.

End Runs.

Lemma story_run_ignores_emotion_lab_witness :
  generateAudio (fun _ => Ok None) (fun _ => Ok []) false (fun _ s => s)
    (mkPage story "Joe: Hi." [mkEmotion "sad" 90] "Puck" "news" true
       "multi" [mkSpeaker "Joe" "Kore"; mkSpeaker "Jane" "Puck"] false
       "Fenrir" "ode" "french")
  = generateAudio (fun _ => Ok None) (fun _ => Ok []) false (fun _ s => s)
      (mkPage story "Joe: Hi." [] "Kore" "default" false
         "multi" [mkSpeaker "Joe" "Kore"; mkSpeaker "Jane" "Puck"] false
         "Kore" "sonnet" "canadian").
Proof.
  apply (story_run_ignores_emotion_lab
           (fun _ => Ok None) (fun _ => Ok []) false (fun _ s => s));
    try reflexivity.
  left. reflexivity.
Defined.

Lemma script_sent_verbatim_witness :
  exists lead voices,
    snd (generateAudio (fun _ => Ok None) (fun _ => Ok []) false
           (fun _ s => s)
           (mkPage poetry "Shall I compare thee" [mkEmotion "calm" 40]
              "Kore" "default" false "single" [] false "Kore" "sonnet"
              "british-rp"))
    = [mkRequest tts_model (lead +:+ "Shall I compare thee") voices].
Proof.
  apply (script_sent_verbatim
           (fun _ => Ok None) (fun _ => Ok []) false (fun _ s => s)
           (mkPage poetry "Shall I compare thee" [mkEmotion "calm" 40]
              "Kore" "default" false "single" [] false "Kore" "sonnet"
              "british-rp")).
  - intros [H _]. discriminate H.
  - intros [H|[H _]]; discriminate H.
Defined.

End GenerationFacts.

(** ** The speaker manager *)

Module SpeakerManagerFacts.

Import Speakers SpeakerManager.
Local Open Scope string_scope.
Local Open Scope list_scope.

Lemma length_setSpeakersFromScript (speakers : list SpeakerConfig)
      (now : Z) (characterNames : list string) :
  length (setSpeakersFromScript speakers now characterNames)
  = match characterNames with
    | [] => length speakers
    | _ :: _ => Nat.min Prompt.MAX_SPEAKERS (length characterNames)
    end.
Proof.
  unfold setSpeakersFromScript.
  pose proof (SpeakersFacts.length_newSpeakerConfigs now characterNames)
    as Hlen.
  destruct characterNames as [|c cs]; [reflexivity|].
  destruct (newSpeakerConfigs now (c :: cs)) as [|d ds] eqn:E.
  - cbn in Hlen. discriminate.
  - exact Hlen.
Qed.

Lemma step_at_most (s : state) (e : event) :
  length (speakers s) <= Prompt.MAX_SPEAKERS ->
  length (speakers (step s e)) <= Prompt.MAX_SPEAKERS.
Proof.
  intros H. destruct e as [now|removed|updated newName newVoice
                          |now characterNames|filtered];
    cbn [step].
  - unfold addSpeaker.
    destruct (Nat.ltb_spec (length (speakers s)) Prompt.MAX_SPEAKERS);
      [|exact H].
    cbn [speakers]. rewrite length_app. cbn [length]. lia.
  - unfold removeSpeaker.
    destruct (Prompt.MIN_SPEAKERS <? length (speakers s))%nat; [|exact H].
    cbn [speakers].
    pose proof (length_filter (fun speaker => id speaker <> removed)
                  (speakers s)).
    lia.
  - cbn [updateSpeaker speakers]. rewrite length_map. exact H.
  - cbn [handleSetSpeakers speakers].
    rewrite length_setSpeakersFromScript.
    destruct characterNames; [exact H|]. lia.
  - exact H.
Qed.

(** Whatever the user and the script analysis do, in any order, the
    roster never holds more than [MAX_SPEAKERS] speakers. *)
Theorem roster_at_most_MAX_SPEAKERS (events : list event) :
  length (speakers (run events initial)) <= Prompt.MAX_SPEAKERS.
Proof.
  unfold run.
  assert (length (speakers initial) <= Prompt.MAX_SPEAKERS) as H
    by (cbn; unfold Prompt.MAX_SPEAKERS; lia).
  revert H. generalize initial.
  induction events as [|e events IH]; intros s H; [exact H|].
  cbn [foldl]. apply IH. apply step_at_most. exact H.
Qed.

(** *** Ids *)

Lemma ids_newSpeakerConfigs (now : Z) (characterNames : list string) :
  map id (newSpeakerConfigs now characterNames)
  = map (fun i => (now + Z.of_nat i)%Z)
        (seq 0 (length (newSpeakerConfigs now characterNames))).
Proof.
  unfold newSpeakerConfigs.
  generalize (take Prompt.MAX_SPEAKERS characterNames). intros l.
  rewrite length_imap. apply list_eq. intros i.
  rewrite !list_lookup_fmap, list_lookup_imap.
  destruct (l !! i) as [x|] eqn:Hx.
  - rewrite lookup_seq_lt by (eapply lookup_lt_Some; exact Hx).
    reflexivity.
  - rewrite lookup_seq_ge by (apply lookup_ge_None_1; exact Hx).
    reflexivity.
Qed.

Lemma NoDup_ids_newSpeakerConfigs (now : Z) (characterNames : list string) :
  NoDup (map id (newSpeakerConfigs now characterNames)).
Proof.
  rewrite ids_newSpeakerConfigs.
  apply NoDup_fmap_2; [|apply NoDup_seq].
  intros i j H. lia.
Qed.

Lemma filter_all {A} (P : A -> Prop) `{forall x, Decision (P x)}
      (l : list A) :
  Forall P l -> filter P l = l.
Proof.
  induction 1 as [|x l Hx _ IH]; [reflexivity|].
  rewrite filter_cons_True by exact Hx. f_equal. exact IH.
Qed.

(** Removing an id from a roster without double ids takes away one
    speaker at most, and leaves no double id. *)
Lemma remove_id (removed : Z) (l : list SpeakerConfig) :
  NoDup (map id l) ->
  length l <= S (length (filter (fun speaker => id speaker <> removed) l))
  /\ NoDup (map id (filter (fun speaker => id speaker <> removed) l)).
Proof.
  induction l as [|x l IH]; intros Hnd; [split; [cbn; lia|constructor]|].
  cbn [map] in Hnd. apply NoDup_cons in Hnd as [Hx Hnd].
  destruct (IH Hnd) as [Hlen Hnd'].
  destruct (decide (id x = removed)) as [Hdrop|Hkeep].
  - rewrite filter_cons_False by tauto.
    rewrite filter_all.
    + split; [cbn [length]; lia|exact Hnd].
    + apply Forall_forall. intros y Hy Hid. apply Hx.
      rewrite Hdrop, <- Hid. apply list_elem_of_fmap. eauto.
  - rewrite filter_cons_True by exact Hkeep.
    cbn [length map]. split; [lia|].
    apply NoDup_cons. split; [|exact Hnd'].
    intros Hin. apply Hx.
    apply list_elem_of_fmap in Hin as (y & Hy & Hin).
    apply list_elem_of_filter in Hin as [_ Hin].
    apply list_elem_of_fmap. eauto.
Qed.

Lemma step_in_order (s : state) (e : event) :
  expected s e ->
  Prompt.MIN_SPEAKERS <= length (speakers s) ->
  NoDup (map id (speakers s)) ->
  Prompt.MIN_SPEAKERS <= length (speakers (step s e)) /\
  NoDup (map id (speakers (step s e))).
Proof.
  intros He Hmin Hids.
  destruct e as [now|removed|updated newName newVoice
                |now characterNames|filtered];
    cbn [step expected] in *.
  - unfold addSpeaker.
    destruct (length (speakers s) <? Prompt.MAX_SPEAKERS)%nat;
      [|auto].
    cbn [speakers]. rewrite length_app, map_app. cbn [length map id].
    split; [lia|].
    apply NoDup_app. split; [exact Hids|]. split.
    + intros x Hx Hx'. apply list_elem_of_singleton in Hx'. subst x.
      contradiction.
    + apply NoDup_singleton.
  - unfold removeSpeaker.
    destruct (Nat.ltb_spec Prompt.MIN_SPEAKERS (length (speakers s)))
      as [Hmore|_]; [|auto].
    cbn [speakers].
    destruct (remove_id removed (speakers s) Hids) as [Hlen Hnd].
    split; [lia|exact Hnd].
  - cbn [updateSpeaker speakers]. rewrite length_map, map_map.
    split; [exact Hmin|].
    erewrite map_ext; [exact Hids|].
    intros x. cbn. destruct (id x =? updated)%Z; reflexivity.
  - cbn [handleSetSpeakers speakers].
    rewrite length_setSpeakersFromScript.
    destruct characterNames as [|c cs];
      [cbn in He; unfold Prompt.MIN_SPEAKERS in He; lia|].
    split; [unfold Prompt.MIN_SPEAKERS, Prompt.MAX_SPEAKERS in *; lia|].
    unfold setSpeakersFromScript.
    pose proof (NoDup_ids_newSpeakerConfigs now (c :: cs)) as Hnd.
    destruct (newSpeakerConfigs now (c :: cs)); [exact Hids|exact Hnd].
  - auto.
Qed.

(** With time stamps that are new each time a speaker is added, and
    script analyses that name at least [MIN_SPEAKERS] characters, the
    roster keeps between [MIN_SPEAKERS] and [MAX_SPEAKERS] speakers and
    no two of them share an id, and the roster handed to
    [generateAudio] passes its check for [MIN_SPEAKERS] speakers. *)
Theorem roster_in_order (events : list event) :
  all_expected initial events ->
  Prompt.MIN_SPEAKERS <= length (speakers (run events initial))
    <= Prompt.MAX_SPEAKERS /\
  NoDup (map id (speakers (run events initial))) /\
  (length (speakerConfigsForGeneration (run events initial))
   <? Prompt.MIN_SPEAKERS)%nat = false.
Proof.
  intros Hev.
  assert (Prompt.MIN_SPEAKERS <= length (speakers (run events initial))
          /\ NoDup (map id (speakers (run events initial)))) as [Hmin Hnd].
  { unfold run. revert Hev.
    assert (Prompt.MIN_SPEAKERS <= length (speakers initial)) as Hmin
      by (cbn; unfold Prompt.MIN_SPEAKERS; lia).
    assert (NoDup (map id (speakers initial))) as Hnd.
    { cbn. apply NoDup_cons. split; [|apply NoDup_singleton].
      intros Hin. apply list_elem_of_singleton in Hin. discriminate. }
    revert Hmin Hnd. generalize initial.
    induction events as [|e events IH]; intros s Hmin Hnd Hev; [auto|].
    cbn [foldl all_expected] in *. destruct Hev as [He Hev].
    destruct (step_in_order s e He Hmin Hnd) as [Hmin' Hnd'].
    apply IH; assumption. }
  split; [split; [exact Hmin|]|split; [exact Hnd|]].
  - unfold run.
    assert (length (speakers initial) <= Prompt.MAX_SPEAKERS) as H
      by (cbn; unfold Prompt.MAX_SPEAKERS; lia).
    revert H. generalize initial. clear.
    induction events as [|e events IH]; intros s H; [exact H|].
    cbn [foldl]. apply IH. apply step_at_most. exact H.
  - unfold speakerConfigsForGeneration. rewrite length_map.
    apply Nat.ltb_ge. exact Hmin.
Qed.

Lemma roster_in_order_witness :
  Prompt.MIN_SPEAKERS
    <= length (speakers
                 (run [AddSpeaker 1700000000000; RemoveSpeaker 1;
                       UpdateSpeaker 2 "Bob" "Puck";
                       SetSpeakersFromScript 1700000000500
                         ["Joe"; "Jane"; "Max"];
                       AddSpeaker 1700000000900] initial))
    <= Prompt.MAX_SPEAKERS /\
  NoDup (map id
           (speakers
              (run [AddSpeaker 1700000000000; RemoveSpeaker 1;
                    UpdateSpeaker 2 "Bob" "Puck";
                    SetSpeakersFromScript 1700000000500
                      ["Joe"; "Jane"; "Max"];
                    AddSpeaker 1700000000900] initial))) /\
  (length (speakerConfigsForGeneration
             (run [AddSpeaker 1700000000000; RemoveSpeaker 1;
                   UpdateSpeaker 2 "Bob" "Puck";
                   SetSpeakersFromScript 1700000000500
                     ["Joe"; "Jane"; "Max"];
                   AddSpeaker 1700000000900] initial))
   <? Prompt.MIN_SPEAKERS)%nat = false.
Proof.
  apply (roster_in_order
           [AddSpeaker 1700000000000; RemoveSpeaker 1;
            UpdateSpeaker 2 "Bob" "Puck";
            SetSpeakersFromScript 1700000000500 ["Joe"; "Jane"; "Max"];
            AddSpeaker 1700000000900]).
  cbn. unfold Prompt.MIN_SPEAKERS.
  repeat split; try lia;
    repeat (apply not_elem_of_cons; split; [discriminate|]);
    apply not_elem_of_nil.
Defined.

End SpeakerManagerFacts.

(** ** The Emotion Lab *)

Module EmotionLabFacts.

Import Prompt EmotionLab.
Local Open Scope string_scope.
Local Open Scope list_scope.

(** *** Rows *)

Section Rows.

Variable select_value : string -> string.
Variable slider_value : Z -> Z.

Lemma addEmotionControl_consistent (emotion : string) (intensity : Z)
      (s : state) :
  consistent s ->
  consistent (addEmotionControl select_value slider_value emotion
                intensity s).
Proof.
  unfold consistent, addEmotionControl, MAX_EMOTIONS.
  intros [Hlen Hbtn].
  destruct (Nat.leb_spec 3 (length (controls s))); [auto|].
  cbn [controls addEmotionBtn_disabled]. rewrite length_app.
  cbn [length].
  destruct (Nat.leb_spec 3 (length (controls s) + 1)).
  - split; [lia|]. split; [lia|reflexivity].
  - split; [lia|]. rewrite Hbtn. lia.
Qed.

Lemma applyEmotionPreset_consistent (emotions : list EmotionControl)
      (s : state) :
  consistent (applyEmotionPreset select_value slider_value emotions s).
Proof.
  unfold applyEmotionPreset.
  assert (consistent (mkState [] false)) as Hempty.
  { unfold consistent, MAX_EMOTIONS. cbn. split; [lia|].
    split; [discriminate|lia]. }
  destruct (0 <? length emotions)%nat;
    [|apply addEmotionControl_consistent; exact Hempty].
  revert Hempty. generalize (mkState [] false).
  induction emotions as [|p emotions IH]; intros s0 H0; [exact H0|].
  cbn [foldl]. apply IH. apply addEmotionControl_consistent. exact H0.
Qed.

Lemma step_consistent (s : state) (e : event) :
  consistent s -> consistent (step select_value slider_value s e).
Proof.
  intros H. destruct e as [|i|i value|i value|emotions]; cbn [step].
  - apply addEmotionControl_consistent. exact H.
  - unfold removeControl.
    destruct (controls s !! i) as [c|] eqn:Hc; [|exact H].
    destruct H as [Hlen _]. unfold consistent, MAX_EMOTIONS in *.
    cbn [controls addEmotionBtn_disabled].
    rewrite length_delete by (rewrite Hc; eauto).
    apply lookup_lt_Some in Hc.
    split; [lia|]. split; [discriminate|lia].
  - unfold consistent, sliderInput in *.
    cbn [controls addEmotionBtn_disabled]. rewrite length_alter. exact H.
  - unfold consistent, selectChange in *.
    cbn [controls addEmotionBtn_disabled]. rewrite length_alter. exact H.
  - apply applyEmotionPreset_consistent.
Qed.

Lemma length_phrases (blend : list EmotionControl) :
  length (phrases blend) <= length blend.
Proof.
  unfold phrases. rewrite length_map. apply length_filter.
Qed.

(** From a lab in good order (the empty lab is one), whatever the user
    does, the lab never holds more than [MAX_EMOTIONS] rows, the add
    button is disabled exactly when it holds [MAX_EMOTIONS], and the
    emotion instruction names at most [MAX_EMOTIONS] emotions. *)
Theorem lab_stays_consistent (events : list event) (s : state) :
  consistent s ->
  consistent (run select_value slider_value events s) /\
  length (phrases (controls (run select_value slider_value events s)))
  <= MAX_EMOTIONS.
Proof.
  intros H.
  assert (consistent (run select_value slider_value events s)) as Hrun.
  { unfold run. revert s H.
    induction events as [|e events IH]; intros s H; [exact H|].
    cbn [foldl]. apply IH. apply step_consistent. exact H. }
  split; [exact Hrun|].
  destruct Hrun as [Hlen _].
  pose proof (length_phrases
                (controls (run select_value slider_value events s))).
  lia.
Qed.

(** The loop of [applyEmotionPreset]: rows are added while there is
    room. *)
Lemma add_rows (emotions : list EmotionControl) :
  forall (rows : list EmotionControl) (disabled : bool),
    consistent (mkState rows disabled) ->
    foldl (fun s p =>
             addEmotionControl select_value slider_value (emotion p)
               (intensity p) s)
          (mkState rows disabled) emotions
    = mkState
        (rows
         ++ map (fun p =>
                   new_row select_value slider_value (emotion p)
                     (intensity p))
                (take (MAX_EMOTIONS - length rows) emotions))
        (MAX_EMOTIONS <=? length rows + length emotions)%nat.
Proof.
  induction emotions as [|p emotions IH]; intros rows disabled H.
  - cbn [foldl length]. rewrite take_nil. cbn [map].
    rewrite app_nil_r, Nat.add_0_r.
    f_equal. destruct H as [Hlen Hbtn]. cbn in Hlen, Hbtn.
    destruct (Nat.leb_spec MAX_EMOTIONS (length rows)).
    + apply Hbtn. lia.
    + destruct disabled; [|reflexivity].
      assert (length rows = MAX_EMOTIONS) by (apply Hbtn; reflexivity).
      lia.
  - cbn [foldl].
    pose proof (addEmotionControl_consistent (emotion p) (intensity p)
                  _ H) as H'.
    destruct H as [Hlen Hbtn]. cbn in Hlen, Hbtn.
    unfold addEmotionControl in *. cbn [controls addEmotionBtn_disabled]
      in *.
    destruct (Nat.leb_spec MAX_EMOTIONS (length rows)) as [Hfull|Hroom].
    + rewrite (IH rows disabled H').
      replace (MAX_EMOTIONS - length rows)%nat with 0%nat by lia.
      cbn [take map length]. f_equal.
      destruct (Nat.leb_spec MAX_EMOTIONS (length rows + length emotions));
        destruct (Nat.leb_spec MAX_EMOTIONS
                    (length rows + S (length emotions))); lia || reflexivity.
    + rewrite (IH _ _ H'). rewrite length_app. cbn [length].
      replace (MAX_EMOTIONS - length rows)%nat
        with (S (MAX_EMOTIONS - (length rows + 1)))%nat by lia.
      cbn [take map]. rewrite <- app_assoc. cbn [app]. f_equal.
      f_equal. lia.
Qed.

(** [applyEmotionPreset] replaces the rows, whatever they were, by the
    first [MAX_EMOTIONS] entries of the preset (as the markup shows
    them), or by one neutral row at 50 when the preset is empty; the add
    button ends up disabled exactly when the preset has [MAX_EMOTIONS]
    entries or more. *)
Theorem applyEmotionPreset_rows (emotions : list EmotionControl)
        (s : state) :
  applyEmotionPreset select_value slider_value emotions s
  = match emotions with
    | [] =>
        mkState [new_row select_value slider_value "neutral" 50] false
    | _ :: _ =>
        mkState
          (map (fun p =>
                  new_row select_value slider_value (emotion p)
                    (intensity p))
               (take MAX_EMOTIONS emotions))
          (MAX_EMOTIONS <=? length emotions)%nat
    end.
Proof.
  unfold applyEmotionPreset.
  destruct emotions as [|p emotions]; [reflexivity|].
  change (0 <? length (p :: emotions))%nat with true. cbv iota.
  rewrite add_rows.
  - reflexivity.
  - unfold consistent, MAX_EMOTIONS. cbn. split; [lia|].
    split; [discriminate|lia].
Qed.

End Rows.

Lemma lab_stays_consistent_witness :
  consistent
    (run (fun e => e) (fun i => i)
       [AddClick; ApplyPreset [mkEmotion "joyful" 80; mkEmotion "sad" 20];
        AddClick; AddClick; SliderInput 1 0; RemoveClick 0]
       EmotionLab.empty) /\
  length (phrases
            (controls
               (run (fun e => e) (fun i => i)
                  [AddClick;
                   ApplyPreset [mkEmotion "joyful" 80; mkEmotion "sad" 20];
                   AddClick; AddClick; SliderInput 1 0; RemoveClick 0]
                  EmotionLab.empty)))
  <= MAX_EMOTIONS.
Proof.
  apply (lab_stays_consistent (fun e => e) (fun i => i)
           [AddClick; ApplyPreset [mkEmotion "joyful" 80; mkEmotion "sad" 20];
            AddClick; AddClick; SliderInput 1 0; RemoveClick 0]
           EmotionLab.empty).
  unfold consistent, MAX_EMOTIONS. cbn. split; [lia|].
  split; [discriminate|lia].
Defined.

End EmotionLabFacts.

(** ** The colour of a blend *)

Module ColorFacts.

Import Prompt EmotionLab.
Local Open Scope Z_scope.

(** Every colour of the table is a triple of bytes. *)
Lemma emotionColorMap_range (e : string) (cr cg cb : Z) :
  emotionColorMap !! e = Some (cr, cg, cb) ->
  0 <= cr <= 255 /\ 0 <= cg <= 255 /\ 0 <= cb <= 255.
Proof.
  unfold emotionColorMap. intros H.
  apply elem_of_list_to_map_2 in H.
  repeat (apply elem_of_cons in H as [H|H];
          [injection H as _ -> -> ->; lia|]).
  apply elem_of_nil in H. destruct H.
Qed.

Lemma tint_range (e : EmotionControl) (cr cg cb : Z) :
  tint e = Some (cr, cg, cb) ->
  0 < intensity e /\
  0 <= cr <= 255 /\ 0 <= cg <= 255 /\ 0 <= cb <= 255.
Proof.
  unfold tint, counts.
  destruct (negb (String.eqb (emotion e) "neutral")); [|discriminate].
  destruct (Z.ltb_spec 0 (intensity e)); [|discriminate].
  cbn [andb]. intros Hcolor. split; [assumption|].
  eapply emotionColorMap_range. exact Hcolor.
Qed.

Lemma poisons_positive (e : EmotionControl) :
  poisons e = true -> 0 < intensity e.
Proof.
  unfold poisons, counts.
  destruct (negb (String.eqb (emotion e) "neutral")); [|discriminate].
  destruct (Z.ltb_spec 0 (intensity e)); [auto|discriminate].
Qed.

(** One turn of the loop, by the tint of the entry: an entry of the
    table adds its weighted colour, an entry named like an inherited
    property turns the sums into [NaN], and both add to the total. *)
Lemma add_color_cases (acc : sums) (e : EmotionControl) :
  add_color acc e
  = match tint e with
    | Some (cr, cg, cb) =>
        mkSums (accumulate (r acc) (Some cr) (intensity e))
          (accumulate (g acc) (Some cg) (intensity e))
          (accumulate (b acc) (Some cb) (intensity e))
          (totalIntensity acc + intensity e)
    | None =>
        if poisons e
        then mkSums None None None (totalIntensity acc + intensity e)
        else acc
    end.
Proof.
  unfold add_color, tint, poisons, counts, Obj.get.
  destruct (negb (String.eqb (emotion e) "neutral") && (0 <? intensity e));
    [|reflexivity].
  cbn [andb].
  destruct (emotionColorMap !! emotion e) as [[[cr cg] cb]|];
    [reflexivity|].
  destruct (Obj.inherits (emotion e)); [|reflexivity].
  unfold accumulate. destruct (r acc), (g acc), (b acc); reflexivity.
Qed.

(** [Math.round] of a quotient of integers, in integers. *)
Lemma round_div_eq (a b : Z) :
  0 < b -> round_div a b = (2 * a + b) / (2 * b).
Proof.
  intros Hb. unfold round_div.
  destruct b as [|p|p]; try lia.
  rewrite (Qfloor_comp _ ((2 * a + Z.pos p) # (2 * p))).
  - reflexivity.
  - unfold Qeq, Qdiv, Qmult, Qinv, Qplus, inject_Z. cbn [Qnum Qden].
    rewrite !Pos2Z.inj_mul. lia.
Qed.

Lemma round_div_range (a b : Z) :
  0 < b -> 0 <= a <= 255 * b -> 0 <= round_div a b <= 255.
Proof.
  intros Hb Ha. rewrite round_div_eq by exact Hb. split.
  - apply Z.div_pos; lia.
  - apply Z.lt_succ_r. apply Z.div_lt_upper_bound; lia.
Qed.

Lemma round_div_multiple (c b : Z) :
  0 < b -> round_div (c * b) b = c.
Proof.
  intros Hb. rewrite round_div_eq by exact Hb.
  symmetry. apply (Z.div_unique _ _ _ b); lia.
Qed.

(** The total never shrinks, and grows with every entry that counts
    and finds a value. *)
Lemma add_color_total (acc : sums) (e : EmotionControl) :
  totalIntensity acc <= totalIntensity (add_color acc e) /\
  (tint e <> None \/ poisons e = true ->
   totalIntensity acc < totalIntensity (add_color acc e)).
Proof.
  rewrite add_color_cases.
  destruct (tint e) as [[[cr cg] cb]|] eqn:Ht.
  - apply tint_range in Ht as [Hw _]. cbn. lia.
  - destruct (poisons e) eqn:Hp.
    + apply poisons_positive in Hp. cbn. lia.
    + split; [lia|]. intros [H|H]; congruence.
Qed.

Lemma foldl_add_color_total (emotions : list EmotionControl) (acc : sums) :
  totalIntensity acc <= totalIntensity (foldl add_color acc emotions) /\
  (omap tint emotions <> [] \/ existsb poisons emotions = true ->
   totalIntensity acc < totalIntensity (foldl add_color acc emotions)) /\
  (omap tint emotions = [] -> existsb poisons emotions = false ->
   foldl add_color acc emotions = acc).
Proof.
  revert acc. induction emotions as [|e emotions IH]; intros acc.
  - cbn. split; [lia|]. split; [|reflexivity].
    intros [H|H]; congruence.
  - cbn [foldl omap list_omap existsb].
    destruct (IH (add_color acc e)) as (Hle & Hlt & Hsame).
    destruct (add_color_total acc e) as [Hle1 Hlt1].
    split; [lia|]. split.
    + destruct (tint e) as [c|] eqn:Ht;
        [intros _; specialize (Hlt1 ltac:(left; discriminate)); lia|].
      destruct (poisons e) eqn:Hp;
        [intros _; specialize (Hlt1 ltac:(right; reflexivity)); lia|].
      cbn [orb]. intros H. specialize (Hlt H). lia.
    + destruct (tint e) as [c|] eqn:Ht; [discriminate|].
      destruct (poisons e) eqn:Hp; [discriminate|].
      cbn [orb]. intros H1 H2. rewrite (Hsame H1 H2).
      rewrite add_color_cases, Ht, Hp. reflexivity.
Qed.

(** Sums that are [NaN] stay [NaN]. *)
Lemma add_color_NaN (acc : sums) (e : EmotionControl) :
  r acc = None /\ g acc = None /\ b acc = None ->
  r (add_color acc e) = None /\ g (add_color acc e) = None /\
  b (add_color acc e) = None.
Proof.
  intros (Hr & Hg & Hb). rewrite add_color_cases.
  destruct (tint e) as [[[cr cg] cb]|].
  - cbn. rewrite Hr, Hg, Hb. auto.
  - destruct (poisons e); cbn; auto.
Qed.

Lemma foldl_add_color_NaN (emotions : list EmotionControl) (acc : sums) :
  r acc = None /\ g acc = None /\ b acc = None ->
  let final := foldl add_color acc emotions in
  r final = None /\ g final = None /\ b final = None.
Proof.
  revert acc. induction emotions as [|e emotions IH]; intros acc H;
    [exact H|].
  cbn [foldl]. apply IH. apply add_color_NaN. exact H.
Qed.

(** No name of an inherited property is a key of the table. *)
Lemma inherited_not_registered (key : string) :
  Obj.inherits key = true -> emotionColorMap !! key = None.
Proof.
  unfold Obj.inherits. intros H.
  apply orb_true_iff in H as [H|H].
  - apply bool_decide_eq_true in H. unfold Obj.prototype_functions in H.
    repeat (apply elem_of_cons in H as [->|H]; [reflexivity|]).
    apply elem_of_nil in H. destruct H.
  - apply String.eqb_eq in H. subst key. reflexivity.
Qed.

Lemma poisons_no_tint (e : EmotionControl) :
  poisons e = true -> tint e = None.
Proof.
  unfold poisons, tint. destruct (counts e); [|reflexivity].
  cbn [andb]. apply inherited_not_registered.
Qed.

(** One entry named like an inherited property makes all three sums
    [NaN]. *)
Lemma foldl_add_color_poisoned (emotions : list EmotionControl)
      (acc : sums) :
  existsb poisons emotions = true ->
  let final := foldl add_color acc emotions in
  r final = None /\ g final = None /\ b final = None.
Proof.
  revert acc. induction emotions as [|e emotions IH]; intros acc H;
    [discriminate|].
  cbn [foldl existsb] in *.
  destruct (poisons e) eqn:Hp.
  - apply foldl_add_color_NaN. rewrite add_color_cases.
    rewrite (poisons_no_tint e Hp), Hp. cbn. auto.
  - apply IH. exact H.
Qed.

Lemma add_color_bounded (acc : sums) (e : EmotionControl) :
  poisons e = false -> bounded acc -> bounded (add_color acc e).
Proof.
  intros Hp H. rewrite add_color_cases, Hp.
  destruct (tint e) as [[[cr cg] cb]|] eqn:Ht; [|exact H].
  apply tint_range in Ht.
  destruct H as (red & green & blue & Hr & Hg & Hb & H).
  exists (red + cr * intensity e), (green + cg * intensity e),
         (blue + cb * intensity e).
  cbn. rewrite Hr, Hg, Hb. cbn.
  split; [reflexivity|]. split; [reflexivity|]. split; [reflexivity|].
  nia.
Qed.

Lemma foldl_add_color_bounded (emotions : list EmotionControl)
      (acc : sums) :
  existsb poisons emotions = false ->
  bounded acc -> bounded (foldl add_color acc emotions).
Proof.
  revert acc. induction emotions as [|e emotions IH]; intros acc Hp H;
    [exact H|].
  cbn [foldl existsb] in *. apply orb_false_iff in Hp as [Hp Hrest].
  apply IH; [exact Hrest|]. apply add_color_bounded; assumption.
Qed.

Lemma bounded_start : bounded (mkSums (Some 0) (Some 0) (Some 0) 0).
Proof. exists 0, 0, 0. cbn. repeat split; lia. Qed.

(** An entry counts when its emotion is not neutral and its intensity
    is positive.  When one that counts is named like a property every
    object inherits, the colour is [rgb(NaN, NaN, NaN)].  Otherwise a
    blend none of whose counting entries is in the table gets the
    fallback colour of the style sheet, and any other blend gets an
    [rgb(...)] colour whose three components lie between 0 and 255. *)
Theorem calculateEmotionColor_range (emotions : list EmotionControl) :
  if existsb poisons emotions
  then calculateEmotionColor emotions = "rgb(NaN, NaN, NaN)"%string
  else
    match omap tint emotions with
    | [] => calculateEmotionColor emotions = "var(--border-color)"%string
    | _ :: _ =>
        exists red green blue,
          calculateEmotionColor emotions = rgb red green blue /\
          0 <= red <= 255 /\ 0 <= green <= 255 /\ 0 <= blue <= 255
    end.
Proof.
  unfold calculateEmotionColor.
  pose proof (foldl_add_color_total emotions
                (mkSums (Some 0) (Some 0) (Some 0) 0))
    as (_ & Hpos & Hnone).
  cbn [totalIntensity] in Hpos.
  destruct (existsb poisons emotions) eqn:Hp.
  - specialize (Hpos ltac:(right; reflexivity)).
    destruct (foldl_add_color_poisoned emotions
                (mkSums (Some 0) (Some 0) (Some 0) 0) Hp)
      as (-> & -> & ->).
    destruct (Z.ltb_spec 0 (totalIntensity
                (foldl add_color (mkSums (Some 0) (Some 0) (Some 0) 0)
                       emotions))); [reflexivity|lia].
  - pose proof (foldl_add_color_bounded emotions _ Hp bounded_start)
      as (red & green & blue & Hr & Hg & Hb & Hrange).
    destruct (omap tint emotions) as [|c cs].
    + rewrite Hnone by reflexivity. reflexivity.
    + specialize (Hpos ltac:(left; discriminate)).
      rewrite Hr, Hg, Hb.
      destruct (Z.ltb_spec 0 (totalIntensity
                  (foldl add_color (mkSums (Some 0) (Some 0) (Some 0) 0)
                         emotions))); [|lia].
      eexists _, _, _. split; [reflexivity|].
      repeat split; apply round_div_range; lia.
Qed.

(** When all the entries that count have one colour, the sums are that
    colour times the total weight. *)
Lemma foldl_add_color_uniform (cr cg cb : Z)
      (emotions : list EmotionControl) (acc : sums) :
  existsb poisons emotions = false ->
  Forall (fun e => tint e = None \/ tint e = Some (cr, cg, cb)) emotions ->
  r acc = Some (cr * totalIntensity acc) ->
  g acc = Some (cg * totalIntensity acc) ->
  b acc = Some (cb * totalIntensity acc) ->
  let final := foldl add_color acc emotions in
  r final = Some (cr * totalIntensity final) /\
  g final = Some (cg * totalIntensity final) /\
  b final = Some (cb * totalIntensity final).
Proof.
  intros Hp Hall. revert acc Hp.
  induction Hall as [|e emotions He _ IH]; intros acc Hp Hr Hg Hb;
    [cbn; auto|].
  cbn [foldl existsb] in *. apply orb_false_iff in Hp as [Hp Hrest].
  apply IH; [exact Hrest| | |]; rewrite add_color_cases, Hp;
    destruct He as [-> | ->]; cbn; rewrite ?Hr, ?Hg, ?Hb; cbn;
    try reflexivity; f_equal; lia.
Qed.

(** Entries of one colour blend to that colour, whatever their
    intensities, as long as no entry that counts is named like a
    property every object inherits: a single emotion of the table shows
    the colour the table gives it. *)
Theorem calculateEmotionColor_uniform (cr cg cb : Z)
        (emotions : list EmotionControl) :
  existsb poisons emotions = false ->
  Forall (fun e => tint e = None \/ tint e = Some (cr, cg, cb)) emotions ->
  Exists (fun e => tint e = Some (cr, cg, cb)) emotions ->
  calculateEmotionColor emotions = rgb cr cg cb.
Proof.
  intros Hp Hall Hsome. unfold calculateEmotionColor.
  pose proof (foldl_add_color_total emotions
                (mkSums (Some 0) (Some 0) (Some 0) 0))
    as (_ & Hpos & _).
  assert (omap tint emotions <> []) as Hne.
  { clear Hall Hpos Hp. induction Hsome as [e l He|e l _ IH].
    - cbn [omap list_omap]. rewrite He. discriminate.
    - cbn [omap list_omap]. destruct (tint e); [discriminate|exact IH]. }
  specialize (Hpos (or_introl Hne)). cbn [totalIntensity] in Hpos.
  destruct (foldl_add_color_uniform cr cg cb emotions
              (mkSums (Some 0) (Some 0) (Some 0) 0) Hp Hall
              ltac:(cbn; f_equal; lia) ltac:(cbn; f_equal; lia)
              ltac:(cbn; f_equal; lia))
    as (-> & -> & ->).
  destruct (Z.ltb_spec 0 (totalIntensity
              (foldl add_color (mkSums (Some 0) (Some 0) (Some 0) 0)
                     emotions))); [|lia].
  unfold component_text.
  rewrite !round_div_multiple by assumption. reflexivity.
Qed.

Lemma calculateEmotionColor_uniform_witness :
  calculateEmotionColor
    [mkEmotion "neutral" 50; mkEmotion "calm" 37; mkEmotion "calm" 80;
     mkEmotion "angry" 0]
  = rgb 173 216 230.
Proof.
  apply (calculateEmotionColor_uniform 173 216 230
           [mkEmotion "neutral" 50; mkEmotion "calm" 37;
            mkEmotion "calm" 80; mkEmotion "angry" 0]).
  - reflexivity.
  - repeat constructor; (left; reflexivity) || (right; reflexivity).
  - right. left. reflexivity.
Defined.

End ColorFacts.

(** ** Saved blends *)

Module BlendFacts.

Import Prompt EmotionLab.
Local Open Scope string_scope.
Local Open Scope list_scope.

Section Names.

Variable toLowerCase : string -> string.

Lemma existsb_name_taken (name' : string)
      (presets : list CustomEmotionPreset) :
  existsb (fun p => String.eqb (toLowerCase (name p)) (toLowerCase name'))
          presets = false ->
  toLowerCase name' ∉ map (fun p => toLowerCase (name p)) presets.
Proof.
  intros Hfree Hin. apply list_elem_of_fmap in Hin as (p & Hp & Hin).
  apply list_elem_of_In in Hin.
  assert (existsb (fun p => String.eqb (toLowerCase (name p))
                              (toLowerCase name')) presets = true) as Ht.
  { apply existsb_exists. exists p. split; [exact Hin|].
    apply String.eqb_eq. congruence. }
  congruence.
Qed.

Lemma not_all_neutral (controls : list EmotionControl) :
  forallb (fun e => String.eqb (emotion e) "neutral") controls = false ->
  Exists (fun e => emotion e <> "neutral") controls.
Proof.
  induction controls as [|e controls IH]; [discriminate|].
  cbn [forallb].
  destruct (String.eqb_spec (emotion e) "neutral") as [He|He].
  - cbn [andb]. intros H. right. apply IH. exact H.
  - intros _. left. exact He.
Qed.

Lemma save_tidy (input : string) (controls : list EmotionControl)
      (presets : list CustomEmotionPreset) :
  tidy toLowerCase presets ->
  tidy toLowerCase
    (fst (saveCurrentEmotionBlend toLowerCase input controls presets)).
Proof.
  intros [Hnames Hall]. unfold saveCurrentEmotionBlend.
  destruct (Str.falsy (Str.trim input)) eqn:Hname; [split; assumption|].
  destruct (existsb _ presets) eqn:Htaken; [split; assumption|].
  destruct (length controls =? 0)%nat eqn:Hempty; [split; assumption|].
  destruct (forallb _ controls) eqn:Hneutral; [split; assumption|].
  cbn [orb fst]. unfold tidy. rewrite map_app. cbn [map name]. split.
  - apply NoDup_app. split; [exact Hnames|]. split.
    + intros x Hx Hx'. apply list_elem_of_singleton in Hx'. subst x.
      revert Hx. apply existsb_name_taken. exact Htaken.
    + apply NoDup_singleton.
  - apply Forall_app. split; [exact Hall|].
    constructor; [|constructor]. cbn [name emotions]. split.
    + intros E. rewrite E in Hname. discriminate.
    + apply not_all_neutral. exact Hneutral.
Qed.

Lemma delete_tidy (deleted : string) (presets : list CustomEmotionPreset) :
  tidy toLowerCase presets ->
  tidy toLowerCase (deleteBlend deleted presets).
Proof.
  intros [Hnames Hall]. unfold deleteBlend, tidy. split.
  - revert Hnames.
    induction presets as [|p presets IH]; intros Hnd; [constructor|].
    cbn [map] in Hnd. apply NoDup_cons in Hnd as [Hp Hnd].
    destruct (decide (name p <> deleted)) as [Hkeep|Hdrop].
    + rewrite filter_cons_True by exact Hkeep. cbn [map].
      apply NoDup_cons. split.
      * intros Hin. apply Hp.
        apply list_elem_of_fmap in Hin as (q & Hq & Hin).
        apply list_elem_of_filter in Hin as [_ Hin].
        apply list_elem_of_fmap. eauto.
      * apply IH; [|exact Hnd]. inversion Hall; assumption.
    + rewrite filter_cons_False by exact Hdrop.
      apply IH; [|exact Hnd]. inversion Hall; assumption.
  - apply Forall_forall. intros p Hp.
    apply list_elem_of_filter in Hp as [_ Hp].
    exact (proj1 (Forall_forall _ _) Hall p Hp).
Qed.

Lemma deleteBlend_gone (deleted : string)
      (presets : list CustomEmotionPreset) :
  deleted ∉ map name (deleteBlend deleted presets).
Proof.
  intros Hin. apply list_elem_of_fmap in Hin as (p & Hp & Hin).
  apply list_elem_of_filter in Hin as [Hne _]. congruence.
Qed.

(** Saved emotion blends stay in good order under saving and deleting:
    no two blends have names that agree up to case, no blend has an empty
    name, every blend holds an emotion that is not neutral; and a deleted
    name is gone. *)
Theorem blends_stay_tidy (events : list blend_event)
        (presets : list CustomEmotionPreset) :
  tidy toLowerCase presets ->
  tidy toLowerCase (foldl (blend_step toLowerCase) presets events) /\
  forall deleted,
    deleted ∉ map name (blend_step toLowerCase
                          (foldl (blend_step toLowerCase) presets events)
                          (Delete deleted)).
Proof.
  intros H. split; [|intros deleted; apply deleteBlend_gone].
  revert presets H.
  induction events as [|e events IH]; intros presets H; [exact H|].
  cbn [foldl]. apply IH. destruct e as [input controls|deleted].
  - apply save_tidy. exact H.
  - apply delete_tidy. exact H.
Qed.

End Names.

Lemma blends_stay_tidy_witness :
  tidy (fun s => s)
    (foldl (blend_step (fun s => s)) []
       [Save " Cheerful " [mkEmotion "joyful" 80];
        Save "Cheerful" [mkEmotion "sad" 10];
        Save "Flat" [mkEmotion "neutral" 50];
        Delete "Cheerful"]) /\
  forall deleted,
    deleted ∉ map name
      (blend_step (fun s => s)
         (foldl (blend_step (fun s => s)) []
            [Save " Cheerful " [mkEmotion "joyful" 80];
             Save "Cheerful" [mkEmotion "sad" 10];
             Save "Flat" [mkEmotion "neutral" 50];
             Delete "Cheerful"])
         (Delete deleted)).
Proof.
  apply (blends_stay_tidy (fun s => s)
           [Save " Cheerful " [mkEmotion "joyful" 80];
            Save "Cheerful" [mkEmotion "sad" 10];
            Save "Flat" [mkEmotion "neutral" 50];
            Delete "Cheerful"] []).
  split; constructor.
Defined.

End BlendFacts.

(** ** The MP3 worker *)

Module Mp3WorkerFacts.

Import Mp3Worker.
Local Open Scope list_scope.

Section Encoding.

Variable Mp3Encoder : Type.
Variable encodeBuffer : Mp3Encoder -> list Z -> Mp3Encoder * list byte.
Variable flush : Mp3Encoder -> list byte.

Lemma concat_push_buffer (mp3Data : list (list byte)) (mp3buf : list byte) :
  concat (push_buffer mp3Data mp3buf) = concat mp3Data ++ mp3buf.
Proof.
  unfold push_buffer. destruct mp3buf as [|x mp3buf].
  - cbn. rewrite app_nil_r. reflexivity.
  - cbn [length Nat.ltb Nat.leb]. rewrite concat_app. cbn [concat].
    rewrite app_nil_r. reflexivity.
Qed.

Lemma encode_blocks_run (samples : list Z) (fuel : nat) :
  forall (i : nat) (p : progress Mp3Encoder),
    length samples - i < fuel ->
    exists (cs : list (list Z)) (mp3Data' : list (list byte)),
      encode_blocks Mp3Encoder encodeBuffer fuel samples i p
      = Some (mkProgress Mp3Encoder
                (fst (encoded Mp3Encoder encodeBuffer
                        (mp3encoder Mp3Encoder p) cs))
                mp3Data' (chunks Mp3Encoder p ++ cs)) /\
      concat mp3Data'
      = concat (mp3Data Mp3Encoder p)
        ++ snd (encoded Mp3Encoder encodeBuffer
                  (mp3encoder Mp3Encoder p) cs) /\
      blocks_of (drop i samples) cs.
Proof.
  induction fuel as [|fuel IH]; intros i p Hfuel; [lia|].
  cbn [encode_blocks].
  destruct (Nat.ltb_spec i (length samples)) as [Hlt|Hge].
  - unfold subarray. rewrite Nat.add_sub'.
    set (chunk := take sampleBlockSize (drop i samples)).
    destruct (encodeBuffer (mp3encoder Mp3Encoder p) chunk)
      as [encoder mp3buf] eqn:Hencode.
    destruct (IH (i + sampleBlockSize)
                (mkProgress Mp3Encoder encoder
                   (push_buffer (mp3Data Mp3Encoder p) mp3buf)
                   (chunks Mp3Encoder p ++ [chunk])))
      as (cs & data & Hrun & Hdata & Hcat & Hlen & Hfull).
    { unfold sampleBlockSize. lia. }
    cbn [mp3encoder mp3Data chunks] in Hrun, Hdata.
    exists (chunk :: cs), data. cbn [encoded]. rewrite Hencode.
    destruct (encoded Mp3Encoder encodeBuffer encoder cs)
      as [final more] eqn:Hrest.
    cbn [fst snd] in *. split; [|split; [|split; [|split]]].
    + rewrite Hrun, <- app_assoc. reflexivity.
    + rewrite Hdata, concat_push_buffer, <- app_assoc. reflexivity.
    + cbn [concat]. rewrite Hcat. subst chunk.
      rewrite <- drop_drop. apply take_drop.
    + constructor; [|exact Hlen]. subst chunk.
      rewrite length_take, length_drop. unfold sampleBlockSize. lia.
    + intros j c Hj Hmore. destruct j as [|j].
      * injection Hj as <-. subst chunk.
        rewrite length_take, length_drop.
        destruct cs as [|c1 cs]; [cbn in Hmore; lia|].
        assert (i + sampleBlockSize < length samples); [|lia].
        destruct (Nat.lt_ge_cases (i + sampleBlockSize) (length samples))
          as [|Hend]; [assumption|].
        rewrite drop_ge in Hcat by exact Hend.
        inversion Hlen as [|? ? Hc1 _]; subst.
        cbn [concat] in Hcat. destruct c1; [cbn in Hc1; lia|discriminate].
      * cbn [lookup list_lookup] in Hj. cbn [length] in Hmore.
        apply (Hfull j c Hj). lia.
  - exists [], (mp3Data Mp3Encoder p). cbn [encoded fst snd].
    rewrite !app_nil_r. destruct p. split; [reflexivity|].
    split; [reflexivity|].
    rewrite drop_ge by exact Hge. split; [reflexivity|].
    split; [constructor|]. intros j c Hj. discriminate.
Qed.

(** The worker always answers.  The encoder gets every sample once and
    in order, converted as [floatTo16BitPCM] converts it, in chunks of
    [sampleBlockSize] samples of which only the last can be shorter and
    none is empty; the blob is what the encoder returned for the chunks,
    in order, followed by what [flush] returned: leaving out the empty
    buffers changes nothing. *)
Theorem onmessage_encodes_all (fresh : Mp3Encoder)
        (pcmFloat32 : list num) :
  exists cs,
    onmessage Mp3Encoder encodeBuffer flush fresh pcmFloat32
    = Some (snd (encoded Mp3Encoder encodeBuffer fresh cs)
            ++ flush (fst (encoded Mp3Encoder encodeBuffer fresh cs)),
            cs) /\
    concat cs = map Pcm.spec_sample pcmFloat32 /\
    Forall (fun c => 0 < length c <= sampleBlockSize) cs /\
    (forall j c, cs !! j = Some c -> S j < length cs ->
                 length c = sampleBlockSize).
Proof.
  unfold onmessage.
  destruct (encode_blocks_run (map to_int16 pcmFloat32)
              (S (length (map to_int16 pcmFloat32))) 0
              (mkProgress Mp3Encoder fresh [] []) ltac:(lia))
    as (cs & data & Hrun & Hdata & Hcat & Hlen & Hfull).
  cbn [mp3encoder mp3Data chunks concat app] in Hrun, Hdata.
  exists cs. rewrite Hrun. cbn [mp3Data mp3encoder chunks].
  rewrite concat_push_buffer, Hdata.
  split; [reflexivity|]. split; [|split; assumption].
  rewrite Hcat, drop_0. apply map_ext. intros x.
  unfold to_int16. apply PcmFacts.scale16_spec.
Qed.

End Encoding.

End Mp3WorkerFacts.

(** ** The MP3 export of the generated audio *)

Module AudioLabFacts.

Import AudioLab.
Local Open Scope list_scope.

Section Mp3Export.

Variable mixBackground : string -> AudioBuffer -> result AudioBuffer.
Variable renderEffects : Controls -> AudioBuffer -> result AudioBuffer.
Variable mixStatic : AudioBuffer -> result AudioBuffer.
Variable Mp3Encoder : Type.
Variable encodeBuffer : Mp3Encoder -> list Z -> Mp3Encoder * list byte.
Variable flush : Mp3Encoder -> list byte.

Lemma applyAudioLabEffects_plain (lab : Controls) (input : AudioBuffer) :
  plain lab ->
  applyAudioLabEffects mixBackground renderEffects mixStatic lab input
  = Ok input.
Proof.
  intros (Hbgm & Heffects & Hstatic). unfold applyAudioLabEffects.
  rewrite Hbgm, Heffects, Hstatic. reflexivity.
Qed.

(** The decoded mono channel. *)
Lemma decoded_channel (decodedBytes : list byte) :
  Nat.even (length decodedBytes) = true -> decodedBytes <> [] ->
  (Z.of_nat (length decodedBytes / 2) < 2 ^ 32)%Z ->
  Pcm.decodeAudioData decodedBytes 24000 1
  = Ok (mkAudioBuffer 24000
          [map Pcm.pcm_float (JS.int16_pairs decodedBytes)]).
Proof.
  intros He Hne Hbound.
  assert (1 <= length decodedBytes / 2) as Hlen.
  { destruct decodedBytes as [|b0 [|b1 rest]];
      [congruence|discriminate|].
    cbn [length].
    change (S (S (length rest))) with (1 * 2 + length rest).
    rewrite Nat.add_comm, Nat.div_add by lia. lia. }
  rewrite PcmFacts.decodeAudioData_even;
    rewrite ?Nat.div_1_r; try lia; try exact He;
    try (unfold JS.minSampleRate, JS.maxSampleRate; lia).
  cbn [seq map]. do 3 f_equal.
  rewrite <- PcmFacts.length_int16_pairs.
  unfold Pcm.planar. apply PcmFacts.map_seq_lookup. intros i v Hv.
  unfold Pcm.sample_at. rewrite Nat.mul_1_r, Nat.add_0_r, Hv.
  reflexivity.
Qed.

(** With no background music and every effect off, the MP3 export of
    the audio decoded from the model's answer gives the encoder the
    received samples with every positive sample lowered by one and the
    others unchanged (where the WAV export moves the small negative
    samples too). *)
Theorem plain_mp3_export_requantizes (lab : Controls)
        (decodedBytes : list byte) (fresh : Mp3Encoder) :
  plain lab ->
  Nat.even (length decodedBytes) = true -> decodedBytes <> [] ->
  (Z.of_nat (length decodedBytes / 2) < 2 ^ 32)%Z ->
  exists finalAudioBuffer pcmData blob cs,
    Pcm.decodeAudioData decodedBytes 24000 1 = Ok finalAudioBuffer /\
    posted_pcm mixBackground renderEffects mixStatic lab finalAudioBuffer
      = Ok pcmData /\
    Mp3Worker.onmessage Mp3Encoder encodeBuffer flush fresh pcmData
      = Some (blob, cs) /\
    concat cs = map Pcm.requantize (JS.int16_pairs decodedBytes).
Proof.
  intros Hplain He Hne Hbound.
  destruct (Mp3WorkerFacts.encode_blocks_run Mp3Encoder encodeBuffer
              (map Mp3Worker.to_int16
                   (map Pcm.pcm_float (JS.int16_pairs decodedBytes)))
              (S (length (map Mp3Worker.to_int16
                            (map Pcm.pcm_float
                                 (JS.int16_pairs decodedBytes)))))
              0 (Mp3Worker.mkProgress Mp3Encoder fresh [] [])
              ltac:(lia))
    as (cs & data & Hrun & _ & Hcat & _).
  cbn [Mp3Worker.mp3encoder Mp3Worker.chunks app] in Hrun.
  exists (mkAudioBuffer 24000
            [map Pcm.pcm_float (JS.int16_pairs decodedBytes)]),
         (map Pcm.pcm_float (JS.int16_pairs decodedBytes)).
  eexists _, cs.
  split; [apply decoded_channel; assumption|].
  split.
  { unfold posted_pcm.
    rewrite applyAudioLabEffects_plain by exact Hplain. reflexivity. }
  split.
  { unfold Mp3Worker.onmessage. rewrite Hrun. reflexivity. }
  rewrite Hcat, drop_0, map_map.
  pose proof (PcmFacts.int16_pairs_range decodedBytes) as Hr.
  clear Hrun Hcat.
  induction Hr as [|v l Hv _ IH]; [reflexivity|].
  cbn [map]. f_equal; [|exact IH].
  apply PcmFacts.requantize_spec. exact Hv.
Qed.

End Mp3Export.

Lemma plain_mp3_export_requantizes_witness :
  exists finalAudioBuffer pcmData blob cs,
    Pcm.decodeAudioData [xff; xff; x05; x00] 24000 1
      = Ok finalAudioBuffer /\
    posted_pcm (fun _ b => Ok b) (fun _ b => Ok b) (fun b => Ok b)
      (mkControls "none" false false false false false false)
      finalAudioBuffer
      = Ok pcmData /\
    Mp3Worker.onmessage unit (fun e _ => (e, [x00])) (fun _ => [])
      tt pcmData
      = Some (blob, cs) /\
    concat cs = map Pcm.requantize (JS.int16_pairs [xff; xff; x05; x00]).
Proof.
  apply (plain_mp3_export_requantizes
           (fun _ b => Ok b) (fun _ b => Ok b) (fun b => Ok b)
           unit (fun e _ => (e, [x00])) (fun _ => [])
           (mkControls "none" false false false false false false)
           [xff; xff; x05; x00] tt).
  - repeat split.
  - reflexivity.
  - discriminate.
  - reflexivity.
Defined.

End AudioLabFacts.
